(** * mhtml2html: a shallow embedding of [src/mhtml2html.js]

    The development follows the source file top to bottom:

    - JavaScript strings (sequences of UTF-16 code units) and the string
      methods the source calls;
    - plain JavaScript objects used as maps: their own properties
      (insertion ordered, with the array-index keys first, as
      [Object.keys] enumerates them) and what they inherit from
      [Object.prototype];
    - the helpers [absoluteURL], [findAsset], [processCSS],
      [replaceReferences], [convertAssetToDataURI];
    - [parse], the four-state machine over the MHTML text;
    - the DOM as a store of nodes, and [convert], the breadth-first walk
      that rewrites it in place.

    Whatever the source takes from its environment (the [base-64] and
    [quoted-printable] packages, [decodeURIComponent], [URL], the DOM
    provider) is a field of a class, so every theorem holds for every
    implementation of it. *)

From Stdlib Require Import ZArith NArith Lia.
From stdpp Require Import base tactics option list numbers strings.

Set Default Proof Using "Type".

(* ================================================================== *)
(** ** JavaScript strings *)
(* ================================================================== *)

(** A JavaScript string is a sequence of 16-bit code units. *)
Definition jsstring := list N.

(** A literal: the code units of an ASCII string. *)
Definition str (s : string) : jsstring :=
  Ascii.N_of_ascii <$> String.list_ascii_of_string s.
Global Arguments str : simpl never.

(** [s.length], as a JavaScript number. *)
Definition len (s : jsstring) : Z := Z.of_nat (length s).

(** [s.startsWith(pat)]. *)
Fixpoint startsWith (pat s : jsstring) : bool :=
  match pat, s with
  | [], _ => true
  | _ :: _, [] => false
  | a :: pat', b :: s' => (a =? b)%N && startsWith pat' s'
  end.

(** [s.endsWith(suf)]. *)
Definition endsWith (suf s : jsstring) : bool :=
  startsWith (reverse suf) (reverse s).

(** The first position [>= k] at which [pat] occurs, [s] being the text
    from position [k] on. *)
Fixpoint search (pat s : jsstring) (k : nat) : option nat :=
  if startsWith pat s then Some k
  else match s with
       | [] => None
       | _ :: s' => search pat s' (S k)
       end.

(** A position argument clamped to [0 .. s.length]. *)
Definition clamp (s : jsstring) (n : Z) : nat :=
  Z.to_nat (Z.min (Z.max n 0) (len s)).

(** [s.indexOf(pat, from)]: [-1] when there is no occurrence. *)
Definition indexOf (pat s : jsstring) (from : Z) : Z :=
  let k := clamp s from in
  match search pat (drop k s) k with
  | Some p => Z.of_nat p
  | None => (-1)%Z
  end.

(** [s.includes(pat)]. *)
Definition includes (pat s : jsstring) : bool :=
  bool_decide (search pat s 0 ≠ None).

(** [s.substring(a, b)]: both ends clamped, and swapped when [a > b]. *)
Definition substring (s : jsstring) (a b : Z) : jsstring :=
  let a' := clamp s a in
  let b' := clamp s b in
  take (Nat.max a' b' - Nat.min a' b') (drop (Nat.min a' b') s).

(** [s.split(sep)] for a non-empty separator. [skip] counts the code
    units of a separator still to be passed over, [cur] is the current
    piece, reversed. *)
Fixpoint split_aux (sep : jsstring) (skip : nat) (cur s : jsstring)
  : list jsstring :=
  match s with
  | [] => [reverse cur]
  | c :: s' =>
      match skip with
      | S k => split_aux sep k cur s'
      | O =>
          if startsWith sep s
          then reverse cur :: split_aux sep (length sep - 1) [] s'
          else split_aux sep 0 (c :: cur) s'
      end
  end.

Definition split (sep s : jsstring) : list jsstring := split_aux sep 0 [] s.

(** [a.join(sep)]. *)
Fixpoint join (sep : jsstring) (a : list jsstring) : jsstring :=
  match a with
  | [] => []
  | [x] => x
  | x :: a' => x ++ sep ++ join sep a'
  end.

(** [a.pop()], as the array it leaves; nothing happens to an empty one. *)
Definition pop (a : list jsstring) : list jsstring :=
  take (length a - 1) a.

(** White space in the sense of [String.prototype.trim] and of [\s]:
    WhiteSpace and LineTerminator code units. *)
Definition is_space (c : N) : bool :=
  ((c =? 9) || (c =? 10) || (c =? 11) || (c =? 12) || (c =? 13)
   || (c =? 32) || (c =? 160) || (c =? 5760)
   || ((8192 <=? c) && (c <=? 8202))
   || (c =? 8232) || (c =? 8233) || (c =? 8239) || (c =? 8287)
   || (c =? 12288) || (c =? 65279))%N.

Fixpoint drop_space (s : jsstring) : jsstring :=
  match s with
  | c :: s' => if is_space c then drop_space s' else s
  | [] => []
  end.

(** The two line endings. *)
Definition LF : jsstring := [10%N].

(** [s.trim()]. *)
Definition str_trim (s : jsstring) : jsstring :=
  reverse (drop_space (reverse (drop_space s))).

(** [s.replace(/c/g, '')] for a set of single code units. *)
Definition remove_chars (cs : list N) (s : jsstring) : jsstring :=
  filter (λ c, c ∉ cs) s.

(** ASCII upper case of one code unit, as the regular-expression flag [i]
    and [createElement] use it on ASCII letters. *)
Definition upper (c : N) : N :=
  if ((97 <=? c) && (c <=? 122))%N then (c - 32)%N else c.

Fixpoint startsWith_ci (pat s : jsstring) : bool :=
  match pat, s with
  | [], _ => true
  | _ :: _, [] => false
  | a :: pat', b :: s' => (upper a =? upper b)%N && startsWith_ci pat' s'
  end.

(** [s.replace(/pat/gi, rep)] for a literal, non-empty ASCII pattern. *)
Fixpoint replace_ci_aux (pat rep : jsstring) (skip : nat) (s : jsstring)
  : jsstring :=
  match s with
  | [] => []
  | c :: s' =>
      match skip with
      | S k => replace_ci_aux pat rep k s'
      | O =>
          if startsWith_ci pat s
          then rep ++ replace_ci_aux pat rep (length pat - 1) s'
          else c :: replace_ci_aux pat rep 0 s'
      end
  end.

Definition replace_ci (pat rep s : jsstring) : jsstring :=
  replace_ci_aux pat rep 0 s.

(** The upper-case hexadecimal digit of a value below 16. *)
Definition hex_digit (d : N) : N :=
  if (d <? 10)%N then (48 + d)%N else (55 + d)%N.

(** The global function [escape]: the code units of
    [A-Za-z0-9@*_+-./] stay, one below 256 becomes [%XX], any other
    [%uXXXX]. *)
Definition escape_unreserved (c : N) : bool :=
  (((65 <=? c) && (c <=? 90)) || ((97 <=? c) && (c <=? 122))
   || ((48 <=? c) && (c <=? 57))
   || (c =? 64) || (c =? 42) || (c =? 95) || (c =? 43) || (c =? 45)
   || (c =? 46) || (c =? 47))%N.

Definition escape_unit (c : N) : jsstring :=
  if escape_unreserved c then [c]
  else if (c <? 256)%N
       then [37%N; hex_digit (c / 16); hex_digit (c mod 16)]
       else [37%N; 117%N; hex_digit (c / 4096); hex_digit ((c / 256) mod 16);
             hex_digit ((c / 16) mod 16); hex_digit (c mod 16)].

Definition escape (s : jsstring) : jsstring := s ≫= escape_unit.

(* ================================================================== *)
(** ** Plain objects used as maps *)
(* ================================================================== *)

(** An object made by [{}]: the list of its own properties, in the order
    in which their names were added. Behind them stands
    [Object.prototype], whose members every such object inherits (see
    [read] below).

    The name [__proto__] is special. It is an accessor of
    [Object.prototype]: reading it gives the prototype of the object, and
    assigning an object to it installs that object as the prototype
    instead of adding a property. In the source only [frames[id] = asset]
    of [parse] can do so, for a part whose [Content-ID] is [__proto__].
    The entry a list then holds under [__proto__] stands for the
    prototype installed: reading [frames['__proto__']] gives it back, and
    the only other names [convert] reads in [frames] begin with [<],
    which no property of an asset and no member of [Object.prototype]
    does. The objects a caller hands to [convert] are taken to be
    ordinary ones: own data properties that hold assets, and
    [Object.prototype] behind them. *)
Definition jsobj (V : Type) := list (jsstring * V).

(** The own property [k] of [o], if there is one. *)
Fixpoint get {V} (o : jsobj V) (k : jsstring) : option V :=
  match o with
  | [] => None
  | (k', v) :: o' => if bool_decide (k' = k) then Some v else get o' k
  end.

(** The own property [k] of [o] receives the value [v]: an existing
    property keeps its place, a new one comes last. This is [o[k] = v]
    for an object [v] (an inherited member is shadowed, the prototype
    replaced), and the update of the attribute list of an element. *)
Fixpoint set {V} (o : jsobj V) (k : jsstring) (v : V) : jsobj V :=
  match o with
  | [] => [(k, v)]
  | (k', v') :: o' =>
      if bool_decide (k' = k) then (k, v) :: o' else (k', v') :: set o' k v
  end.

(** The names of the members of [Object.prototype], which every object
    made by [{}] inherits: eleven functions and the accessor
    [__proto__]. *)
Definition Object_prototype : list jsstring :=
  [str "constructor"; str "__defineGetter__"; str "__defineSetter__";
   str "hasOwnProperty"; str "__lookupGetter__"; str "__lookupSetter__";
   str "isPrototypeOf"; str "propertyIsEnumerable"; str "toString";
   str "valueOf"; str "__proto__"; str "toLocaleString"].

(** What the expression [o[k]] evaluates to: [undefined], the value of an
    own property, or a member of [Object.prototype] (a function, or for
    [__proto__] the prototype itself). An inherited member is truthy, its
    [typeof] is ['function'] or ['object'], and it has no property
    [type], [encoding] or [data]. *)
Inductive value (V : Type) :=
  | Undefined
  | Own (v : V)
  | Inherited.
Arguments Undefined {V}.
Arguments Own {V} v.
Arguments Inherited {V}.

(** [o[k]], read. *)
Definition read {V} (o : jsobj V) (k : jsstring) : value V :=
  match get o k with
  | Some v => Own v
  | None => if bool_decide (k ∈ Object_prototype) then Inherited else Undefined
  end.

(** Whether a value read from an object of objects is truthy:
    everything but [undefined] is. *)
Definition truthy {V} (v : value V) : bool :=
  match v with Undefined => false | _ => true end.

(** [o[k] = v] for a string [v], in an object that has no own property
    [__proto__]: the setter of the inherited accessor [__proto__] ignores
    a value that is no object, so nothing is stored under that name. *)
Definition put (o : jsobj jsstring) (k v : jsstring) : jsobj jsstring :=
  if bool_decide (k = str "__proto__") then o else set o k v.

Definition is_digit (c : N) : bool := ((48 <=? c) && (c <=? 57))%N.

Definition digits_value (s : jsstring) : N :=
  foldl (λ a c, 10 * a + (c - 48))%N 0%N s.

(** The array index a property name denotes, if any: the canonical
    decimal form of an integer below [2^32 - 1]. *)
Definition array_index (k : jsstring) : option N :=
  match k with
  | [] => None
  | c :: k' =>
      if forallb is_digit k
         && ((negb (c =? 48)%N) || bool_decide (k' = []))
         && (digits_value k <? 4294967295)%N
      then Some (digits_value k) else None
  end.

Fixpoint insert_index (x : N * jsstring) (l : list (N * jsstring))
  : list (N * jsstring) :=
  match l with
  | [] => [x]
  | y :: l' => if (x.1 <=? y.1)%N then x :: l else y :: insert_index x l'
  end.

(** [Object.keys(o)]: the array indices in ascending order, then the other
    names in the order they were added. *)
Definition keys {V} (o : jsobj V) : list jsstring :=
  let ks := o.*1 in
  (foldr insert_index []
     (omap (λ k, (λ n, (n, k)) <$> array_index k) ks)).*2
  ++ filter (λ k, array_index k = None) ks.

(** [Object.assign({}, o, { [k]: v })]: the copy receives the properties
    of [o] in the order of [Object.keys], then [k]. *)
Definition assign {V} (o : jsobj V) (k : jsstring) (v : V) : jsobj V :=
  set (omap (λ k', (λ v', (k', v')) <$> get o k') (keys o)) k v.

(* ================================================================== *)
(** ** Exceptions *)
(* ================================================================== *)

(** The messages of the [Error]s that [assert] throws in the source. The
    parser's messages end in the current line number. *)
Inductive message :=
  | NoDOMParser                 (* 'No DOM parser available' *)
  | UnexpectedEOF               (* 'Unexpected EOF' *)
  | MissingHeaders (l : nat)    (* 'Missing MHTML headers; Line l' *)
  | MissingContentType (l : nat)(* 'Missing document content type; Line l' *)
  | MissingBoundary (l : nat)   (* 'Missing boundary from document headers; Line l' *)
  | ExpectedBoundary (l : nat)  (* 'Expected boundary; Line l' *)
  | IndexNotFound (l : nat)     (* 'Index not found; Line l' *)
  | NoIdOrLocation (l : nat)    (* 'ID or location header not provided;  Line l' *)
  | NoEncoding (l : nat)        (* 'Content-Transfer-Encoding not provided;  Line l' *)
  | NoType (l : nat)            (* 'Content-Type not provided; Line l' *)
  | BadArgument                 (* 'Expected argument of type string or object' *)
  | InvalidFrames               (* 'MHTML error: invalid frames' *)
  | InvalidMedia                (* 'MHTML error: invalid media' *)
  | InvalidIndex.               (* 'MHTML error: invalid index' *)

Inductive exn :=
  | Error (m : message)      (* thrown by [assert] *)
  | Base64Error              (* thrown by [Base64.encode] / [Base64.decode] *)
  | QuotedPrintableError     (* thrown by [QuotedPrintable.decode] *)
  | URIError                 (* thrown by [encodeURIComponent] *)
  | DOMProviderError         (* thrown by the injected [parseDOM] *)
  | TypeError                (* a property of [undefined] was read *)
  | OutOfFuel.               (* the run did not end within the fuel given *)

Inductive res (A : Type) :=
  | Ret (a : A)
  | Throw (e : exn).
Arguments Ret {A} a.
Arguments Throw {A} e.

Global Instance res_ret : MRet res := λ A a, Ret a.
Global Instance res_bind : MBind res := λ A B f m,
  match m with Ret a => f a | Throw e => Throw e end.
Global Instance res_fmap : FMap res := λ A B f m,
  match m with Ret a => Ret (f a) | Throw e => Throw e end.

(** [assert(condition, error)]. *)
Definition assert (condition : bool) (error : message) : res unit :=
  if condition then Ret () else Throw (Error error).

(** The result of a library call that throws [e] when it fails. *)
Definition lift {A} (e : exn) (o : option A) : res A :=
  match o with Some a => Ret a | None => Throw e end.

(* ================================================================== *)
(** ** What the source takes from its environment *)
(* ================================================================== *)

(** The two packages the source requires and the built-ins whose
    behaviour is not a few lines. [None] stands for a thrown exception. *)
Class Runtime := {
  (** [Base64.encode] of package [base-64]. *)
  Base64_encode : jsstring → option jsstring;
  (** [Base64.decode] of package [base-64]. *)
  Base64_decode : jsstring → option jsstring;
  (** [QuotedPrintable.decode] of package [quoted-printable]. *)
  QuotedPrintable_decode : jsstring → option jsstring;
  (** The global [decodeURIComponent]. *)
  decodeURIComponent : jsstring → option jsstring;
  (** The global [encodeURIComponent]. *)
  encodeURIComponent : jsstring → option jsstring;
  (** [new URL(base).origin]; [None] when the constructor throws. *)
  URL_origin : jsstring → option jsstring;
  (** [String(Object.prototype[name])] for the name of a member of
      [Object.prototype]: the text of a built-in function, which the
      implementation chooses. *)
  inherited_text : jsstring → jsstring;
  (** The two regular-expression replacements of
      [processDeclarativeShadowDOM], which delete the [slot] elements and
      the comments of a text. *)
  remove_slots_and_comments : jsstring → jsstring;
}.

(* ================================================================== *)
(** ** Assets and archives *)
(* ================================================================== *)

(** The object [parse] builds for every part:
    [{ encoding, type, data, id }]. *)
Record asset := Asset {
  encoding : jsstring;
  type : jsstring;
  data : jsstring;
  id : option jsstring;
}.

(** [v.type] for a value read from an object of assets; [None] is
    [undefined]. *)
Definition type_of (v : value asset) : option jsstring :=
  match v with
  | Own entry => Some (type entry)
  | _ => None
  end.

(** The object [parse] returns: [{ frames, media, index }]. [index] is
    [None] when it is not a string. *)
Record archive := Archive {
  frames : jsobj asset;
  media : jsobj asset;
  index : option jsstring;
}.

(* ================================================================== *)
(** ** [absoluteURL] and [findAsset] *)
(* ================================================================== *)

(** One round of the loop of [absoluteURL] over [parts]. *)
Definition absoluteURL_step (stack : list jsstring) (part : jsstring)
  : list jsstring :=
  if bool_decide (part = str ".") then stack
  else if bool_decide (part = str "..") then pop stack
  else stack ++ [part].

(** [absoluteURL(base, relative)]. [base] is [None] when it is [null]
    (the [href] of a [link] that has none reaches it through
    [processCSS]); [base.split] then throws a [TypeError]. *)
Definition absoluteURL (base : option jsstring) (relative : jsstring)
  : res jsstring :=
  if bool_decide (indexOf (str "http://") relative 0 = 0%Z)
     || bool_decide (indexOf (str "https://") relative 0 = 0%Z)
  then Ret relative
  else
    base ← lift TypeError base;
    let stack := split (str "/") base in
    let parts := split (str "/") relative in
    let stack := pop stack in
    Ret (join (str "/") (foldl absoluteURL_step stack parts)).

(** The loop of the last strategy of [findAsset], over [Object.keys]. *)
Fixpoint findAsset_filename (media : jsobj asset) (filename : jsstring)
    (ks : list jsstring) : option (jsstring * value asset) :=
  match ks with
  | [] => None
  | key :: ks' =>
      if endsWith (str "/" ++ filename) key || endsWith filename key
      then Some (key, read media key)
      else findAsset_filename media filename ks'
  end.

(** [findAsset(media, base, reference)]: [{ path, entry }] or [null].
    The tests [if (media[k])] hold of an asset and of every member of
    [Object.prototype] alike: a reference such as [constructor] is found
    in every archive, and its entry is that member.
    [new URL(null)] is [new URL("null")]. *)
Definition findAsset `{Runtime} (media : jsobj asset)
    (base : option jsstring) (reference : jsstring)
  : res (option (jsstring * value asset)) :=
  let cleanRef := remove_chars [34; 39]%N reference in
  (* Direct lookup *)
  if truthy (read media cleanRef)
  then Ret (Some (cleanRef, read media cleanRef))
  else
  (* Resolve relative to base *)
  absolutePath ← absoluteURL base cleanRef;
  if truthy (read media absolutePath)
  then Ret (Some (absolutePath, read media absolutePath))
  else
  (* Root-relative URLs (starting with /) *)
  let rooted :=
    if startsWith (str "/") cleanRef then
      origin ← URL_origin (default (str "null") base);
      let fullUrl := origin ++ cleanRef in
      if truthy (read media fullUrl)
      then Some (fullUrl, read media fullUrl)
      else None
    else None in
  match rooted with
  | Some found => Ret (Some found)
  | None =>
  (* Filename matching (last resort) *)
  let filename := default [] (last (split (str "/") cleanRef)) in
  if bool_decide (filename ≠ []) && (3 <? len filename)%Z
  then Ret (findAsset_filename media filename (keys media))
  else Ret None
  end.

(* ================================================================== *)
(** ** [processCSS] and [replaceReferences] *)
(* ================================================================== *)

Definition CSS_URL_RULE : jsstring := str "url(".

(** [entry.encoding === 'base64' ? Base64.decode(entry.data) : entry.data] *)
Definition decoded_data `{Runtime} (entry : asset) : res jsstring :=
  if bool_decide (encoding entry = str "base64")
  then lift Base64Error (Base64_decode (data entry))
  else Ret (data entry).

(** [processCSS(media, path)], given [replaceReferences]; the result
    [None] is [null]. A [path] that is [null] names the property
    ["null"]. *)
Definition processCSS_with `{Runtime}
    (replace : jsobj asset → option jsstring → jsstring → res jsstring)
    (media : jsobj asset) (path : option jsstring) : res (option jsstring) :=
  match read media (default (str "null") path) with
  | Own entry =>
      if bool_decide (type entry ≠ str "text/css") then Ret None
      else
        decoded ← decoded_data entry;
        Some <$> replace media path decoded
  | _ => Ret None  (* [undefined], or a member that has no [type] *)
  end.

(** The [for] loop of [replaceReferences], entered with cursor [i]. One
    unit of fuel pays for one test of the loop condition; the call of
    [processCSS] for a nested stylesheet runs on what is left. The two
    functions of the source call each other, and a stylesheet that
    refers to itself makes them recurse for ever: that run ends here in
    [OutOfFuel] for every amount of fuel.

    When the entry found is a member of [Object.prototype], its [type],
    [encoding] and [data] are [undefined]: [assetData] is [undefined],
    which [Base64.encode] turns into the text ["undefined"] before it
    encodes (as it turns [null] into ["null"]), and so does the template
    literal with [entry.type]. *)
Fixpoint replaceReferences_from `{Runtime} (fuel : nat)
    (media : jsobj asset) (base : option jsstring) (css : jsstring) (i : Z)
  : res jsstring :=
  match fuel with
  | O => Throw OutOfFuel
  | S fuel =>
      let i := indexOf CSS_URL_RULE css i in
      if (0 <? i)%Z then
        let i := (i + len CSS_URL_RULE)%Z in
        let reference := substring css i (indexOf (str ")") css i) in
        found ← findAsset media base reference;
        css ←
          match found with
          | Some (path, Own entry) =>
              assetData ←
                (if bool_decide (type entry = str "text/css")
                 then processCSS_with
                        (λ m b c, replaceReferences_from fuel m b c 0)
                        media (Some path)
                 else Some <$> decoded_data entry);
              (* try { ... } catch (e) { console.warn(e); } *)
              match Base64_encode (default (str "null") assetData) with
              | Some b64 =>
                  let embeddedAsset :=
                    str "'data:" ++ type entry ++ str ";base64," ++ b64
                    ++ str "'" in
                  Ret (substring css 0 i ++ embeddedAsset
                       ++ substring css (i + len reference) (len css))
              | None => Ret css
              end
          | Some (path, _) =>
              (* try { ... } catch (e) { console.warn(e); } *)
              match Base64_encode (str "undefined") with
              | Some b64 =>
                  let embeddedAsset :=
                    str "'data:undefined;base64," ++ b64 ++ str "'" in
                  Ret (substring css 0 i ++ embeddedAsset
                       ++ substring css (i + len reference) (len css))
              | None => Ret css
              end
          | None => Ret css
          end;
        replaceReferences_from fuel media base css (i + len reference)
      else Ret css
  end.

Definition replaceReferences `{Runtime} (fuel : nat) (media : jsobj asset)
    (base : option jsstring) (css : jsstring) : res jsstring :=
  replaceReferences_from fuel media base css 0.

Definition processCSS `{Runtime} (fuel : nat) (media : jsobj asset)
    (path : option jsstring) : res (option jsstring) :=
  processCSS_with (replaceReferences fuel) media path.

(* ================================================================== *)
(** ** [convertAssetToDataURI] *)
(* ================================================================== *)

Definition convertAssetToDataURI `{Runtime} (asset : asset) : res jsstring :=
  if bool_decide (encoding asset = str "quoted-printable") then
    decoded ← lift QuotedPrintableError (QuotedPrintable_decode (data asset));
    Ret (str "data:" ++ type asset ++ str ";utf8," ++ escape decoded)
  else if bool_decide (encoding asset = str "base64") then
    Ret (str "data:" ++ type asset ++ str ";base64," ++ data asset)
  else
    b64 ← lift Base64Error (Base64_encode (data asset));
    Ret (str "data:" ++ type asset ++ str ";base64," ++ b64).

(* ================================================================== *)
(** ** [parse]: the loose comparison [next != 0] *)
(* ================================================================== *)

(** The longest prefix of [s] whose code units satisfy [p], and the rest. *)
Fixpoint span (p : N → bool) (s : jsstring) : jsstring * jsstring :=
  match s with
  | c :: s' =>
      if p c then let '(a, b) := span p s' in (c :: a, b) else ([], s)
  | [] => ([], [])
  end.

Definition all_zeros (s : jsstring) : bool := forallb (λ c, c =? 48)%N s.

(** A [0x], [0o] or [0b] literal (either case) of value zero. *)
Definition nondecimal_zero (t : jsstring) : bool :=
  match t with
  | 48%N :: p :: ds =>
      bool_decide (p ∈ [120; 88; 111; 79; 98; 66]%N)
      && bool_decide (ds ≠ []) && all_zeros ds
  | _ => false
  end.

(** The exponent part of a decimal literal: [Some 0] when there is none,
    [None] when what follows the mantissa is no exponent. *)
Definition exponent_part (r : jsstring) : option Z :=
  match r with
  | [] => Some 0%Z
  | e :: r' =>
      if bool_decide (e ∈ [101; 69]%N) then
        let '(neg, ds) :=
          match r' with
          | 43%N :: ds => (false, ds)
          | 45%N :: ds => (true, ds)
          | _ => (false, r')
          end in
        if bool_decide (ds ≠ []) && forallb is_digit ds
        then Some (if neg then - Z.of_N (digits_value ds)
                   else Z.of_N (digits_value ds))%Z
        else None
      else None
  end.

(** A decimal literal, sign included, whose Number value is [+0] or [-0]:
    its digits are all zero, or its value [m * 10^e] is at most
    [2^-1075], half the least positive Number, and rounds to zero. *)
Definition decimal_zero (t : jsstring) : bool :=
  let u := match t with
           | 43%N :: u => u
           | 45%N :: u => u
           | _ => t
           end in
  let '(ip, r1) := span is_digit u in
  let '(dot, fp, r2) :=
    match r1 with
    | 46%N :: r =>
        let '(fp, r2) := span is_digit r in (true, fp, r2)
    | _ => (false, [], r1)
    end in
  if bool_decide (ip ≠ []) || (dot && bool_decide (fp ≠ [])) then
    match exponent_part r2 with
    | Some e =>
        let m := Z.of_N (digits_value (ip ++ fp)) in
        let e := (e - len fp)%Z in
        (m =? 0)%Z
        || ((e <? 0)%Z && (m * 2 ^ 1075 <=? 10 ^ (- e))%Z)
    | None => false
    end
  else false.

(** [s == 0] for a string [s]: the string converts to a Number that is
    zero. White space around the literal is ignored, and an empty or a
    blank string converts to zero. *)
Definition loose_eq_zero (s : jsstring) : bool :=
  let t := str_trim s in
  bool_decide (t = []) || nondecimal_zero t || decimal_zero t.

(** The test [next != 0 && next != '\n'] of the two header states. *)
Definition is_header_line (next : jsstring) : bool :=
  negb (loose_eq_zero next) && bool_decide (next ≠ LF).

(* ================================================================== *)
(** ** [parse]: the state of the machine *)
(* ================================================================== *)

Inductive fsm := MHTML_HEADERS | MTHML_CONTENT | MHTML_DATA | MHTML_END.

Global Instance fsm_eq_dec : EqDecision fsm.
Proof. solve_decision. Defined.

(** The variables of [parse]. The assets are objects shared between
    [frames], [media] and the variable [asset]: they live in [s_heap], in
    the order of their creation, and are referred to by position.

    [s_locations] and [s_bodies] are not variables of the source. They
    record, for the n-th asset created, the [Content-Location] of its part
    and the body with which the data state left it; the machine never
    reads them. *)
Record pstate := PState {
  s_state : fsm;
  s_i : nat;
  s_l : nat;
  s_headers : jsobj jsstring;
  s_content : jsobj jsstring;
  s_media : jsobj nat;
  s_frames : jsobj nat;
  s_heap : list asset;
  s_asset : option nat;
  s_key : option jsstring;
  s_index : option jsstring;
  s_encoding : option jsstring;
  s_boundary : option jsstring;
  s_locations : list (option jsstring);
  s_bodies : list jsstring;
}.

Definition initial : pstate :=
  {| s_state := MHTML_HEADERS; s_i := 0; s_l := 0;
     s_headers := []; s_content := []; s_media := []; s_frames := [];
     s_heap := []; s_asset := None; s_key := None; s_index := None;
     s_encoding := None; s_boundary := None;
     s_locations := []; s_bodies := [] |}.

(** The loop of [trim()], [rest] being the text from position [i] on. *)
Fixpoint trim_loop (rest : jsstring) (i l : nat) : res (nat * nat) :=
  match rest with
  | c :: (c' :: _) as rest' =>
      (* i < mhtml.length - 1 *)
      if is_space c
      then trim_loop rest' (S i) (if (c' =? 10)%N then S l else l)
      else Ret (i, l)
  | _ => Throw (Error UnexpectedEOF)
  end.

(** [trim()]: discards characters until one that is not white space. *)
Definition trim (mhtml : jsstring) (i l : nat) : res (nat * nat) :=
  trim_loop (drop i mhtml) i l.

(** The loop of [getLine], [rest] being the text from position [i] on:
    the position of the line feed that ends the line. *)
Fixpoint getLine_loop (rest : jsstring) (i : nat) : res nat :=
  match rest with
  | [] => Throw (Error UnexpectedEOF)
  | c :: rest' =>
      if (c =? 10)%N then Ret i
      else match rest' with
           | [] => Throw (Error UnexpectedEOF)  (* i = mhtml.length - 1 *)
           | _ => getLine_loop rest' (S i)
           end
  end.

(** [getLine(encoding)]: the next line, decoded, with the new [i], [l]. *)
Definition getLine `{Runtime} (mhtml : jsstring) (i l : nat)
    (encoding : option jsstring) : res (jsstring * nat * nat) :=
  let j := i in
  i ← getLine_loop (drop i mhtml) i;
  let i := S i in
  let l := S l in
  let line := substring mhtml (Z.of_nat j) (Z.of_nat i) in
  if bool_decide (encoding = Some (str "quoted-printable")) then
    line ← lift QuotedPrintableError (QuotedPrintable_decode line);
    Ret (line, i, l)
  else if bool_decide (encoding = Some (str "base64")) then
    Ret (str_trim line, i, l)
  else Ret (line, i, l).

(** [String(v)] for the value [v] of [obj[key]]. *)
Definition text_of `{Runtime} (key : jsstring) (v : value jsstring)
  : jsstring :=
  match v with
  | Undefined => str "undefined"
  | Own s => s
  | Inherited => inherited_text key
  end.

(** [splitHeaders(line, obj)]: the new [key] and [obj]. [key] is a
    variable of [parse] that outlives [obj]: the line without a colon
    adds to [obj[key]] whatever that is, the text ["undefined"] or the
    text of a member of [Object.prototype] included. *)
Definition splitHeaders `{Runtime} (l : nat) (key : option jsstring)
    (line : jsstring) (obj : jsobj jsstring)
  : res (option jsstring * jsobj jsstring) :=
  let m := indexOf (str ":") line 0 in
  if (-1 <? m)%Z then
    let key := str_trim (substring line 0 m) in
    Ret (Some key, put obj key (str_trim (substring line (m + 1) (len line))))
  else
    match key with
    | None => Throw (Error (MissingHeaders l))
    | Some key =>
        Ret (Some key,
             put obj key (text_of key (read obj key) ++ str_trim line))
    end.

Definition is_line_terminator (c : N) : bool :=
  bool_decide (c ∈ [10; 13; 8232; 8233]%N).

(** [s.match(re)] for the expression [boundary=] followed by a group of
    any code units but line terminators: the group of the leftmost
    match. *)
Definition match_boundary (s : jsstring) : option jsstring :=
  p ← search (str "boundary=") s 0;
  Some (span (λ c, negb (is_line_terminator c))
          (drop (p + length (str "boundary=")) s)).1.

(* ================================================================== *)
(** ** [parse]: the transitions *)
(* ================================================================== *)

Definition with_data (a : asset) (d : jsstring) : asset :=
  {| encoding := encoding a; type := type a; data := d; id := id a |}.

(** The [while] loop of the data state: [asset.data += next] until a line
    includes the boundary. [r] is the position of [asset] in the heap. A
    boundary that is [undefined] would be searched for as the string
    ["undefined"]. *)
Fixpoint data_loop `{Runtime} (fuel : nat) (mhtml : jsstring)
    (encoding boundary : option jsstring) (r : nat) (heap : list asset)
    (next : jsstring) (i l : nat) : res (list asset * nat * nat) :=
  if includes (default (str "undefined") boundary) next
  then Ret (heap, i, l)
  else
    match fuel with
    | O => Throw OutOfFuel
    | S fuel =>
        let heap := alter (λ a, with_data a (data a ++ next)) r heap in
        '(next, i, l) ← getLine mhtml i l encoding;
        data_loop fuel mhtml encoding boundary r heap next i l
    end.

(** [try { asset.data = decodeURIComponent(escape(asset.data)); }
     catch (e) { e; }] *)
Definition decode_unicode `{Runtime} (a : asset) : asset :=
  match decodeURIComponent (escape (data a)) with
  | Some d => with_data a d
  | None => a
  end.

(** One round of the [while (state != MHTML_FSM.MHTML_END)] loop. The
    right summand is the argument of [parseDOM] when the round returns
    under [htmlOnly]. *)
Definition step `{Runtime} (mhtml : jsstring) (htmlOnly : bool) (s : pstate)
  : res (pstate + jsstring) :=
  match s_state s with
  | MHTML_HEADERS =>
      '(next, i, l) ← getLine mhtml (s_i s) (s_l s) None;
      if is_header_line next then
        '(key, headers) ← splitHeaders l (s_key s) next (s_headers s);
        Ret (inl {| s_state := MHTML_HEADERS; s_i := i; s_l := l;
                    s_headers := headers; s_content := s_content s;
                    s_media := s_media s; s_frames := s_frames s;
                    s_heap := s_heap s; s_asset := s_asset s;
                    s_key := key; s_index := s_index s;
                    s_encoding := s_encoding s;
                    s_boundary := s_boundary s;
                    s_locations := s_locations s;
                    s_bodies := s_bodies s |})
      else
        (* none of the names read in [headers] and [content] is a
           member of [Object.prototype] *)
        content_type ← lift (Error (MissingContentType l))
                          (get (s_headers s) (str "Content-Type"));
        matches ← lift (Error (MissingBoundary l))
                     (match_boundary content_type);
        let boundary := remove_chars [34]%N matches in
        '(i, l) ← trim mhtml i l;
        '(next, i, l) ← getLine mhtml i l None;
        (* Expect the next boundary to appear. *)
        _ ← assert (includes boundary next) (ExpectedBoundary l);
        Ret (inl {| s_state := MTHML_CONTENT; s_i := i; s_l := l;
                    s_headers := s_headers s; s_content := [];
                    s_media := s_media s; s_frames := s_frames s;
                    s_heap := s_heap s; s_asset := s_asset s;
                    s_key := s_key s; s_index := s_index s;
                    s_encoding := s_encoding s;
                    s_boundary := Some boundary;
                    s_locations := s_locations s;
                    s_bodies := s_bodies s |})
  | MTHML_CONTENT =>
      '(next, i, l) ← getLine mhtml (s_i s) (s_l s) None;
      if is_header_line next then
        '(key, content) ← splitHeaders l (s_key s) next (s_content s);
        Ret (inl {| s_state := MTHML_CONTENT; s_i := i; s_l := l;
                    s_headers := s_headers s; s_content := content;
                    s_media := s_media s; s_frames := s_frames s;
                    s_heap := s_heap s; s_asset := s_asset s;
                    s_key := key; s_index := s_index s;
                    s_encoding := s_encoding s;
                    s_boundary := s_boundary s;
                    s_locations := s_locations s;
                    s_bodies := s_bodies s |})
      else
        let encoding := get (s_content s) (str "Content-Transfer-Encoding") in
        let type := get (s_content s) (str "Content-Type") in
        let id := get (s_content s) (str "Content-ID") in
        let location := get (s_content s) (str "Content-Location") in
        (* Assume the first boundary to be the document. *)
        index ←
          match s_index s with
          | None =>
              _ ← assert (bool_decide (location ≠ None)
                          && bool_decide (type = Some (str "text/html")))
                    (IndexNotFound l);
              Ret location
          | Some index => Ret (Some index)
          end;
        (* Ensure the extracted information exists. *)
        _ ← assert (bool_decide (id ≠ None) || bool_decide (location ≠ None))
              (NoIdOrLocation l);
        encoding' ← lift (Error (NoEncoding l)) encoding;
        type' ← lift (Error (NoType l)) type;
        let asset := {| encoding := encoding'; type := type'; data := [];
                        id := id |} in
        let r := length (s_heap s) in
        let heap := s_heap s ++ [asset] in
        (* Keep track of frames by ID. *)
        let frames := match id with
                      | Some id => set (s_frames s) id r
                      | None => s_frames s
                      end in
        (* Keep track of resources by location:
           [typeof media[location] === 'undefined'] fails for a location
           that is registered and for one that names a member of
           [Object.prototype]. *)
        let media := match location with
                     | Some location =>
                         match read (s_media s) location with
                         | Undefined => set (s_media s) location r
                         | _ => s_media s
                         end
                     | None => s_media s
                     end in
        '(i, l) ← trim mhtml i l;
        Ret (inl {| s_state := MHTML_DATA; s_i := i; s_l := l;
                    s_headers := s_headers s; s_content := [];
                    s_media := media; s_frames := frames;
                    s_heap := heap; s_asset := Some r;
                    s_key := s_key s; s_index := index;
                    s_encoding := encoding;
                    s_boundary := s_boundary s;
                    s_locations := s_locations s ++ [location];
                    s_bodies := s_bodies s |})
  | MHTML_DATA =>
      r ← lift TypeError (s_asset s);
      '(next, i, l) ← getLine mhtml (s_i s) (s_l s) (s_encoding s);
      (* Build the decoded string. *)
      '(heap, i, l) ← data_loop (length mhtml) mhtml (s_encoding s)
                         (s_boundary s) r (s_heap s) next i l;
      (* Decode unicode. *)
      let heap := alter decode_unicode r heap in
      let body := default [] (data <$> heap !! r) in
      (* Ignore assets if 'htmlOnly' is set. *)
      if htmlOnly && bool_decide (s_index s ≠ None) then Ret (inr body)
      else
        (* Set the finishing state if there are no more characters. *)
        let state := if (len mhtml - 1 <=? Z.of_nat i)%Z
                     then MHTML_END else MTHML_CONTENT in
        Ret (inl {| s_state := state; s_i := i; s_l := l;
                    s_headers := s_headers s; s_content := s_content s;
                    s_media := s_media s; s_frames := s_frames s;
                    s_heap := heap; s_asset := s_asset s;
                    s_key := s_key s; s_index := s_index s;
                    s_encoding := s_encoding s;
                    s_boundary := s_boundary s;
                    s_locations := s_locations s;
                    s_bodies := s_bodies s ++ [body] |})
  | MHTML_END => Ret (inl s)
  end.

(** The [while] loop of [parse]. *)
Fixpoint parse_loop `{Runtime} (fuel : nat) (mhtml : jsstring)
    (htmlOnly : bool) (s : pstate) : res (pstate + jsstring) :=
  if bool_decide (s_state s = MHTML_END) then Ret (inl s)
  else
    match fuel with
    | O => Throw OutOfFuel
    | S fuel =>
        next ← step mhtml htmlOnly s;
        match next with
        | inl s' => parse_loop fuel mhtml htmlOnly s'
        | inr html => Ret (inr html)
        end
    end.

(** The run of [parse] up to its [return]. Every round reads at least one
    line, so the fuel given is never used up (see [parse_run_fuel]). *)
Definition parse_run `{Runtime} (mhtml : jsstring) (htmlOnly : bool)
  : res (pstate + jsstring) :=
  parse_loop (S (length mhtml)) mhtml htmlOnly initial.

(** The object a table of references stands for. *)
Definition deref (heap : list asset) (o : jsobj nat) : jsobj asset :=
  omap (λ '(k, r), (λ a, (k, a)) <$> heap !! r) o.

(** [{ frames: frames, media: media, index: index }] *)
Definition archive_of (s : pstate) : archive :=
  {| frames := deref (s_heap s) (s_frames s);
     media := deref (s_heap s) (s_media s);
     index := s_index s |}.

(* ================================================================== *)
(** ** The DOM *)
(* ================================================================== *)

(** A node of the tree the DOM provider returns. An element is a node
    with a [tagName]; only elements have [getAttribute],
    [removeAttribute] and [children]. [nodeValue] is the text of a text
    or comment node, [content] the fragment of a [template]. *)
Record node := Node {
  nodeType : N;
  tagName : option jsstring;
  attributes : jsobj jsstring;
  childNodes : list nat;
  nodeValue : jsstring;
  content : option nat;
}.

(** The nodes of a document are objects that the walk of [convert]
    changes in place: they live in a store and are referred to by
    position. *)
Definition store := list node.

(** What [parseDOM] returns: [dom.window.document] is [d_document]. *)
Record dom := Dom {
  d_store : store;
  d_document : nat;
}.

(** The DOM provider: the injected [parseDOM] and the serialisations of
    the trees it builds. *)
Class DOMProvider := {
  (** [parseDOM(html)]; [None] when it throws. *)
  parseDOM : jsstring → option dom;
  (** [node.innerHTML] *)
  innerHTML : store → nat → jsstring;
  (** [dom.window.document.documentElement.outerHTML] *)
  outerHTML : dom → jsstring;
}.

Definition with_attributes (nd : node) (a : jsobj jsstring) : node :=
  {| nodeType := nodeType nd; tagName := tagName nd; attributes := a;
     childNodes := childNodes nd; nodeValue := nodeValue nd;
     content := content nd |}.

Definition with_childNodes (nd : node) (c : list nat) : node :=
  {| nodeType := nodeType nd; tagName := tagName nd;
     attributes := attributes nd; childNodes := c;
     nodeValue := nodeValue nd; content := content nd |}.

(** [n.tagName] *)
Definition tag (s : store) (n : nat) : option jsstring :=
  nd ← s !! n; tagName nd.

(** [n.childNodes] *)
Definition kids (s : store) (n : nat) : list nat :=
  default [] (childNodes <$> s !! n).

(** Whether [n] has the methods of an element. *)
Definition is_element (s : store) (n : nat) : bool :=
  bool_decide (tag s n ≠ None).

(** [n.children] *)
Definition children (s : store) (n : nat) : list nat :=
  filter (λ c, is_element s c = true) (kids s n).

(** [n.getAttribute(name)]; [None] is [null]. *)
Definition getAttribute (s : store) (n : nat) (name : jsstring)
  : option jsstring :=
  nd ← s !! n; get (attributes nd) name.

Definition hasAttribute (s : store) (n : nat) (name : jsstring) : bool :=
  bool_decide (getAttribute s n name ≠ None).

(** [n.setAttribute(name, value)] *)
Definition setAttribute (s : store) (n : nat) (name value : jsstring)
  : store :=
  alter (λ nd, with_attributes nd (set (attributes nd) name value)) n s.

(** [n.removeAttribute(name)] *)
Definition removeAttribute (s : store) (n : nat) (name : jsstring) : store :=
  alter (λ nd, with_attributes nd
                 (filter (λ kv, kv.1 ≠ name) (attributes nd))) n s.

Definition set_kids (s : store) (n : nat) (c : list nat) : store :=
  alter (λ nd, with_childNodes nd c) n s.

(** [document.createElement(name)]: in an HTML document the tag name is
    the upper case of [name]. *)
Definition createElement (s : store) (name : jsstring) : store * nat :=
  (s ++ [{| nodeType := 1; tagName := Some (upper <$> name);
            attributes := []; childNodes := []; nodeValue := [];
            content := None |}], length s).

(** [document.createTextNode(text)] *)
Definition createTextNode (s : store) (text : jsstring) : store * nat :=
  (s ++ [{| nodeType := 3; tagName := None; attributes := [];
            childNodes := []; nodeValue := text; content := None |}],
   length s).

(** [parent.appendChild(n)] for a node [n] that has no parent. *)
Definition appendChild (s : store) (parent n : nat) : store :=
  set_kids s parent (kids s parent ++ [n]).

(** [parent.insertBefore(n, parent.firstChild)] *)
Definition insertFirst (s : store) (parent n : nat) : store :=
  set_kids s parent (n :: kids s parent).

Fixpoint replace_first (new old : nat) (l : list nat) : list nat :=
  match l with
  | [] => []
  | x :: l' =>
      if bool_decide (x = old) then new :: l' else x :: replace_first new old l'
  end.

Fixpoint remove_first (old : nat) (l : list nat) : list nat :=
  match l with
  | [] => []
  | x :: l' => if bool_decide (x = old) then l' else x :: remove_first old l'
  end.

(** [parent.replaceChild(new, old)] *)
Definition replaceChild (s : store) (parent new old : nat) : store :=
  set_kids s parent (replace_first new old (kids s parent)).

(** [parent.removeChild(old)] *)
Definition removeChild (s : store) (parent old : nat) : store :=
  set_kids s parent (remove_first old (kids s parent)).

(** [n.cloneNode(true)]: a copy of the subtree of [n], the content of a
    [template] included, made of new nodes. *)
Fixpoint cloneNode (fuel : nat) (s : store) (n : nat) : res (store * nat) :=
  match fuel with
  | O => Throw OutOfFuel
  | S fuel =>
      nd ← lift TypeError (s !! n);
      let fix clone_all (s : store) (ks : list nat) {struct ks}
        : res (store * list nat) :=
        match ks with
        | [] => Ret (s, [])
        | k :: ks =>
            '(s, k') ← cloneNode fuel s k;
            '(s, ks') ← clone_all s ks;
            Ret (s, k' :: ks')
        end in
      '(s, c) ← clone_all s (childNodes nd);
      '(s, t) ← match content nd with
                | Some f => '(s, f') ← cloneNode fuel s f; Ret (s, Some f')
                | None => Ret (s, None)
                end;
      Ret (s ++ [{| nodeType := nodeType nd; tagName := tagName nd;
                    attributes := attributes nd; childNodes := c;
                    nodeValue := nodeValue nd; content := t |}],
           length s)
  end.

(* ================================================================== *)
(** ** [processDeclarativeShadowDOM] and [updateInlineStyle] *)
(* ================================================================== *)

(** The test both [convert] and [processDeclarativeShadowDOM] apply to
    the children of an element. *)
Definition is_shadow_template (s : store) (c : nat) : bool :=
  bool_decide (tag s c = Some (str "TEMPLATE"))
  && (hasAttribute s c (str "data-shadowrootmode")
      || hasAttribute s c (str "data-shadowmode")).

(** The clones of the nodes of [ns] that are no comments, in order: the
    children the [DocumentFragment] of the source receives. *)
Fixpoint clone_content (fuel : nat) (s : store) (ns : list nat)
  : res (store * list nat) :=
  match ns with
  | [] => Ret (s, [])
  | n :: ns =>
      if bool_decide (nodeType <$> s !! n = Some 8%N)
      then clone_content fuel s ns
      else
        '(s, n') ← cloneNode fuel s n;
        '(s, ns') ← clone_content fuel s ns;
        Ret (s, n' :: ns')
  end.

(** [processDeclarativeShadowDOM(element, documentElem)]; the Boolean it
    returns is not used by [convert]. The fragment is not allocated: its
    children go to [element] at once. *)
Definition processDeclarativeShadowDOM `{Runtime} `{DOMProvider}
    (fuel : nat) (s : store) (element : nat) : res store :=
  match filter (λ c, is_shadow_template s c = true) (children s element) with
  | [] => Ret s
  | shadowTemplate :: _ =>
      (* Check if template has actual content vs just slots *)
      let templateContent := innerHTML s shadowTemplate in
      let hasOnlySlots :=
        bool_decide
          (str_trim (remove_slots_and_comments templateContent) = []) in
      (* Collect light DOM children (everything except the template) *)
      let lightDOMChildren :=
        filter (λ c, c ≠ shadowTemplate) (children s element) in
      s ←
        (if hasOnlySlots || bool_decide (lightDOMChildren ≠ []) then
           Ret (removeChild s element shadowTemplate)
         else
           let contentNodes :=
             match content <$> s !! shadowTemplate with
             | Some (Some f) => kids s f
             | _ => kids s shadowTemplate
             end in
           '(s, fragment) ← clone_content fuel s contentNodes;
           let s := removeChild s element shadowTemplate in
           Ret (set_kids s element (kids s element ++ fragment)));
      (* Remove 'loaded' attribute so CSS hide rules apply *)
      Ret (if hasAttribute s element (str "loaded")
           then removeAttribute s element (str "loaded") else s)
  end.

(** [updateInlineStyle(element, media, base)] *)
Definition updateInlineStyle `{Runtime} (fuel : nat) (s : store)
    (element : nat) (media : jsobj asset) (base : option jsstring)
  : res store :=
  match (if is_element s element
         then getAttribute s element (str "style") else None) with
  | Some inlineStyle =>
      if bool_decide (inlineStyle ≠ []) then
        css ← replaceReferences fuel media base inlineStyle;
        Ret (setAttribute s element (str "style") css)
      else Ret s
  | None => Ret s
  end.

(* ================================================================== *)
(** ** [convert] *)
(* ================================================================== *)

(** The body of the callback of [childNode.childNodes.forEach], without
    its last statement [nodes.push(child)]. [href] and [src] are the
    variables of [convert] the callback assigns; [None] is [null], the
    value [getAttribute] gives for an absent attribute (their initial
    [undefined] is never read: the branches that read them are taken for
    elements only, after the assignment). [convert] stands for the
    recursive call. *)
Definition visit `{Runtime} `{DOMProvider} (fuel : nat)
    (convert : option (jsobj asset) → option (jsobj asset) →
               option jsstring → res dom)
    (convertIframes : bool) (frames media : jsobj asset) (index : jsstring)
    (childNode child : nat) (s : store) (href src : option jsstring)
  : res (store * option jsstring * option jsstring) :=
  let '(href, src) :=
    if is_element s child
    then (getAttribute s child (str "href"), getAttribute s child (str "src"))
    else (href, src) in
  let s := if is_element s child
           then removeAttribute s child (str "integrity") else s in
  (* Process Declarative Shadow DOM if present *)
  s ← (if is_element s child
          && bool_decide (filter (λ c, is_shadow_template s c = true)
                            (children s child) ≠ [])
       then processDeclarativeShadowDOM fuel s child
       else Ret s);
  s ←
    match tag s child with
    | Some tagName =>
        if bool_decide (tagName = str "HEAD") then
          let '(s, base) := createElement s (str "base") in
          let s := setAttribute s base (str "target") (str "_parent") in
          Ret (insertFirst s child base)
        else if bool_decide (tagName = str "LINK") then
          (* Only process rel="stylesheet", skip alternate stylesheets *)
          let rel := getAttribute s child (str "rel") in
          if bool_decide (rel = Some (str "stylesheet"))
             && bool_decide
                  (type_of (read media (default (str "null") href))
                   = Some (str "text/css"))
          then
            let '(s, style) := createElement s (str "style") in
            let s := setAttribute s style (str "type") (str "text/css") in
            css ← processCSS fuel media href;
            let '(s, text) := createTextNode s (default (str "null") css) in
            let s := appendChild s style text in
            Ret (replaceChild s childNode style child)
          else Ret s
        else if bool_decide (tagName = str "STYLE") then
          let '(s, style) := createElement s (str "style") in
          let s := setAttribute s style (str "type") (str "text/css") in
          css ← replaceReferences fuel media (Some index) (innerHTML s child);
          let '(s, text) := createTextNode s css in
          let s := appendChild s style text in
          Ret (replaceChild s childNode style child)
        else if bool_decide (tagName = str "IMG") then
          s ←
            match read media (default (str "null") src) with
            | Own entry =>
                if includes (str "image") (type entry) then
                  (* try { ... } catch (e) { console.warn(e); } *)
                  match convertAssetToDataURI entry with
                  | Ret img => Ret (setAttribute s child (str "src") img)
                  | Throw _ => Ret s
                  end
                else Ret s
            | Inherited =>
                (* [media[src].type] is [undefined], which has no
                   [includes] *)
                Throw TypeError
            | Undefined => Ret s
            end;
          updateInlineStyle fuel s child media (Some index)
        else if bool_decide (tagName = str "IFRAME") then
          match src with
          | Some src =>
              if convertIframes && bool_decide (src ≠ []) then
                let id :=
                  str "<"
                  ++ default (str "undefined") (split (str "cid:") src !! 1)
                  ++ str ">" in
                match read frames id with
                | Own frame =>
                    if bool_decide (type frame = str "text/html") then
                      iframe ← convert (Some frames)
                                 (Some (assign media id frame)) (Some id);
                      html ← lift URIError
                               (encodeURIComponent (outerHTML iframe));
                      Ret (setAttribute s child (str "src")
                             (str "data:text/html;charset=utf-8," ++ html))
                    else Ret s
                | _ => Ret s
                end
              else Ret s
          | None => Ret s
          end
        else updateInlineStyle fuel s child media (Some index)
    | None => updateInlineStyle fuel s child media (Some index)
    end;
  Ret (s, href, src).

(** The state of the walk: the store, the queue [nodes], the place of the
    running [forEach] (the node [childNode] and the position in its live
    list [childNodes]; [None] between two rounds of the [while] loop) and
    the variables [href] and [src]. *)
Record wstate := WState {
  w_store : store;
  w_nodes : list nat;
  w_cur : option (nat * nat);
  w_href : option jsstring;
  w_src : option jsstring;
}.

(** [while (nodes.length) { const childNode = nodes.shift();
       childNode.childNodes.forEach(callback); }]
    One unit of fuel pays for one call of the callback, for the start or
    for the end of a [forEach]. *)
Fixpoint walk (fuel : nat)
    (callback : nat → nat → store → option jsstring → option jsstring →
                res (store * option jsstring * option jsstring))
    (w : wstate) : res store :=
  match w_cur w, w_nodes w with
  | None, [] => Ret (w_store w)
  | _, _ =>
      match fuel with
      | O => Throw OutOfFuel
      | S fuel =>
          match w_cur w with
          | None =>
              match w_nodes w with
              | childNode :: nodes =>
                  walk fuel callback
                    {| w_store := w_store w; w_nodes := nodes;
                       w_cur := Some (childNode, 0);
                       w_href := w_href w; w_src := w_src w |}
              | [] => Ret (w_store w)
              end
          | Some (childNode, k) =>
              match kids (w_store w) childNode !! k with
              | Some child =>
                  '(s, href, src) ←
                    callback childNode child (w_store w) (w_href w) (w_src w);
                  walk fuel callback
                    {| w_store := s; w_nodes := w_nodes w ++ [child];
                       w_cur := Some (childNode, S k);
                       w_href := href; w_src := src |}
              | None =>
                  walk fuel callback
                    {| w_store := w_store w; w_nodes := w_nodes w;
                       w_cur := None;
                       w_href := w_href w; w_src := w_src w |}
              end
          end
      end
  end.

(** The test of the last [assert] of [convert]:
    [media[index] && media[index].type === "text/html"]. *)
Definition valid_index (media : jsobj asset) (index : jsstring) : bool :=
  bool_decide (type_of (read media index) = Some (str "text/html")).

(** [convert] from its first [assert] on. The three arguments are
    [mhtml.frames], [mhtml.media] and [mhtml.index]; [None] is a value
    whose [typeof] is not the one asserted. The recursive call for an
    [iframe] runs on one unit of fuel less. *)
Fixpoint convert_object `{Runtime} `{DOMProvider} (fuel : nat)
    (convertIframes : bool) (frames media : option (jsobj asset))
    (index : option jsstring) {struct fuel} : res dom :=
  frames ← lift (Error InvalidFrames) frames;
  media ← lift (Error InvalidMedia) media;
  index ← lift (Error InvalidIndex) index;
  _ ← assert (valid_index media index) InvalidIndex;
  (* [media[index]] is an own property here: no member of
     [Object.prototype] has a [type] *)
  let htmlContent :=
    replace_ci (str "shadowmode=") (str "data-shadowmode=")
      (replace_ci (str "shadowrootmode=") (str "data-shadowrootmode=")
         (default [] (data <$> get media index))) in
  dom ← lift DOMProviderError (parseDOM htmlContent);
  let documentElem := d_document dom in
  let recur :=
    match fuel with
    | O => λ _ _ _, Throw OutOfFuel
    | S fuel => convert_object fuel convertIframes
    end in
  (* Merge resources into the document. *)
  s ← walk fuel
        (visit fuel recur convertIframes frames media index)
        {| w_store := d_store dom; w_nodes := [documentElem];
           w_cur := None; w_href := None; w_src := None |};
  Ret {| d_store := s; d_document := documentElem |}.

(** The first argument of [convert]: a string or an object. *)
Inductive input :=
  | MhtmlString (mhtml : jsstring)
  | MhtmlObject (frames media : option (jsobj asset))
      (index : option jsstring).

(** A parsed archive as an argument of [convert]. *)
Definition of_archive (a : archive) : input :=
  MhtmlObject (Some (frames a)) (Some (media a)) (index a).

(** [parse(mhtml, { htmlOnly, parseDOM })] *)
Definition parse `{Runtime} `{DOMProvider} (mhtml : jsstring)
    (htmlOnly : bool) : res (archive + dom) :=
  r ← parse_run mhtml htmlOnly;
  match r with
  | inl s => Ret (inl (archive_of s))
  | inr html => d ← lift DOMProviderError (parseDOM html); Ret (inr d)
  end.

(** [convert(mhtml, { convertIframes, parseDOM })]. A string is parsed
    first, with the default options. *)
Definition convert `{Runtime} `{DOMProvider} (fuel : nat)
    (convertIframes : bool) (mhtml : input) : res dom :=
  match mhtml with
  | MhtmlString mhtml =>
      r ← parse_run mhtml false;
      match r with
      | inl s =>
          convert_object fuel convertIframes
            (Some (frames (archive_of s))) (Some (media (archive_of s)))
            (index (archive_of s))
      | inr _ => Throw (Error InvalidFrames)
      end
  | MhtmlObject frames media index =>
      convert_object fuel convertIframes frames media index
  end.

(* ================================================================== *)
(** ** An environment for the examples *)
(* ================================================================== *)

(** The theorems below hold for every [Runtime] and [DOMProvider]. The
    examples need one of each to run on: this module writes out the two
    packages and the built-ins as their documentation describes them, and
    a DOM provider that knows the documents it is given in a table. *)
Module Sample.

(** *** Package [base-64] *)

Definition TABLE : jsstring :=
  str "ABCDEFGHIJKLMNOPQRSTUVWXYZabcdefghijklmnopqrstuvwxyz0123456789+/".

Definition table_char (v : N) : N := default 0%N (TABLE !! N.to_nat v).

Fixpoint encode_loop (input : jsstring) : jsstring :=
  match input with
  | a :: b :: c :: input' =>
      let buffer := (a * 65536 + b * 256 + c)%N in
      [table_char (buffer / 262144); table_char ((buffer / 4096) mod 64);
       table_char ((buffer / 64) mod 64); table_char (buffer mod 64)]
      ++ encode_loop input'
  | [a; b] =>
      let buffer := (a * 256 + b)%N in
      [table_char (buffer / 1024); table_char ((buffer / 16) mod 64);
       table_char ((buffer * 4) mod 64); 61%N]
  | [a] => [table_char (a / 4); table_char ((a * 16) mod 64); 61%N; 61%N]
  | [] => []
  end.

(** [Base64.encode]: throws on a code unit outside Latin-1. *)
Definition encode (input : jsstring) : option jsstring :=
  if forallb (λ c, c <? 256)%N input then Some (encode_loop input) else None.

Definition table_index (c : N) : option N :=
  N.of_nat <$> search [c] TABLE 0.

Fixpoint decode_loop (input : list N) : jsstring :=
  match input with
  | a :: b :: c :: d :: input' =>
      let bits := (((a * 64 + b) * 64 + c) * 64 + d)%N in
      [(bits / 65536) mod 256; (bits / 256) mod 256; bits mod 256]%N
      ++ decode_loop input'
  | [a; b; c] =>
      let bits := ((a * 64 + b) * 64 + c)%N in
      [(bits / 1024) mod 256; (bits / 4) mod 256]%N
  | [a; b] => [((a * 64 + b) / 16) mod 256]%N
  | _ => []
  end.

(** [Base64.decode]: white space is dropped, the padding of a text whose
    length is a multiple of four is dropped, and a text of length 1 modulo
    4 or with a character outside the alphabet is an error. *)
Definition decode (input : jsstring) : option jsstring :=
  let input := remove_chars [9; 10; 12; 13; 32]%N input in
  let input :=
    if bool_decide (length input mod 4 = 0) then
      if endsWith (str "==") input then take (length input - 2) input
      else if endsWith (str "=") input then take (length input - 1) input
      else input
    else input in
  if bool_decide (length input mod 4 = 1)
     || negb (forallb (λ c, bool_decide (table_index c ≠ None)) input)
  then None
  else Some (decode_loop (omap table_index input)).

(** *** Package [quoted-printable] *)

Definition hex_value (c : N) : option N :=
  if is_digit c then Some (c - 48)%N
  else if ((65 <=? c) && (c <=? 70))%N then Some (c - 55)%N
  else if ((97 <=? c) && (c <=? 102))%N then Some (c - 87)%N
  else None.

(** A space or a tab that stands before a line terminator or at the end
    is deleted. *)
Fixpoint qp_trailing (s : jsstring) : jsstring :=
  match s with
  | [] => []
  | c :: s' =>
      if bool_decide (c ∈ [9; 32]%N)
         && match s' with
            | [] => true
            | c' :: _ => is_line_terminator c'
            end
      then qp_trailing s'
      else c :: qp_trailing s'
  end.

(** A [=] followed by a line break, or at the end, is deleted with the
    line break. *)
Fixpoint qp_soft (s : jsstring) : jsstring :=
  match s with
  | [] => []
  | 61%N :: s' =>
      match s' with
      | [] => []
      | 13%N :: 10%N :: s'' => qp_soft s''
      | 13%N :: s'' => qp_soft s''
      | 10%N :: s'' => qp_soft s''
      | _ => 61%N :: qp_soft s'
      end
  | c :: s' => c :: qp_soft s'
  end.

(** [=XX] is the code unit of value [XX]. *)
Fixpoint qp_hex (s : jsstring) : jsstring :=
  match s with
  | [] => []
  | 61%N :: s' =>
      match s' with
      | h :: l :: s'' =>
          match hex_value h, hex_value l with
          | Some a, Some b => (16 * a + b)%N :: qp_hex s''
          | _, _ => 61%N :: qp_hex s'
          end
      | _ => 61%N :: qp_hex s'
      end
  | c :: s' => c :: qp_hex s'
  end.

(** [QuotedPrintable.decode]: it never throws. *)
Definition qp_decode (input : jsstring) : option jsstring :=
  Some (qp_hex (qp_soft (qp_trailing input))).

(** *** [decodeURIComponent] and [encodeURIComponent] *)

(** The text as code units ([inl]) and escaped octets ([inr]). *)
Fixpoint octets (s : jsstring) : option (list (N + N)) :=
  match s with
  | [] => Some []
  | 37%N :: s' =>
      match s' with
      | h :: l :: s'' =>
          a ← hex_value h; b ← hex_value l; r ← octets s'';
          Some (inr (16 * a + b)%N :: r)
      | _ => None
      end
  | c :: s' => r ← octets s'; Some (inl c :: r)
  end.

Definition continuation (t : N + N) : option N :=
  match t with
  | inr b => if ((128 <=? b) && (b <? 192))%N then Some (b - 128)%N else None
  | inl _ => None
  end.

Definition code_units (cp : N) : jsstring :=
  if (cp <? 65536)%N then [cp]
  else [55296 + (cp - 65536) / 1024; 56320 + (cp - 65536) mod 1024]%N.

(** The octets decoded as UTF-8: shortest forms only, no surrogates,
    nothing above [0x10FFFF]. *)
Fixpoint utf8_decode (fuel : nat) (ts : list (N + N)) : option jsstring :=
  match fuel with
  | O => match ts with [] => Some [] | _ => None end
  | S fuel =>
      match ts with
      | [] => Some []
      | inl c :: ts' => (c ::.) <$> utf8_decode fuel ts'
      | inr b :: ts' =>
          if (b <? 128)%N then (b ::.) <$> utf8_decode fuel ts'
          else
            let n := if (b <? 192)%N then 0
                     else if (b <? 224)%N then 1
                     else if (b <? 240)%N then 2
                     else if (b <? 248)%N then 3 else 0 in
            if bool_decide (n = 0) then None
            else
              cs ← mapM continuation (take n ts');
              if bool_decide (length cs = n) then
                let lead := (b mod 2 ^ (6 - N.of_nat n))%N in
                let cp := foldl (λ a c, a * 64 + c)%N lead cs in
                let least := match n with
                             | 1%nat => 128%N
                             | 2%nat => 2048%N
                             | _ => 65536%N
                             end in
                if ((least <=? cp) && (cp <=? 1114111)
                    && negb ((55296 <=? cp) && (cp <=? 57343)))%N
                then (code_units cp ++.) <$> utf8_decode fuel (drop n ts')
                else None
              else None
      end
  end.

Definition uri_decode (s : jsstring) : option jsstring :=
  ts ← octets s; utf8_decode (length ts) ts.

(** The code points of a text; a lone surrogate is an error. *)
Fixpoint code_points (s : jsstring) : option (list N) :=
  match s with
  | [] => Some []
  | c :: s' =>
      if ((55296 <=? c) && (c <? 56320))%N then
        match s' with
        | d :: s'' =>
            if ((56320 <=? d) && (d <? 57344))%N then
              r ← code_points s'';
              Some ((65536 + (c - 55296) * 1024 + (d - 56320))%N :: r)
            else None
        | [] => None
        end
      else if ((56320 <=? c) && (c <? 57344))%N then None
      else r ← code_points s'; Some (c :: r)
  end.

Definition utf8_encode (cp : N) : list N :=
  if (cp <? 128)%N then [cp]
  else if (cp <? 2048)%N then [192 + cp / 64; 128 + cp mod 64]%N
  else if (cp <? 65536)%N
       then [224 + cp / 4096; 128 + (cp / 64) mod 64; 128 + cp mod 64]%N
       else [240 + cp / 262144; 128 + (cp / 4096) mod 64;
             128 + (cp / 64) mod 64; 128 + cp mod 64]%N.

Definition uri_unreserved (c : N) : bool :=
  (((65 <=? c) && (c <=? 90)) || ((97 <=? c) && (c <=? 122))
   || ((48 <=? c) && (c <=? 57)))%N
  || bool_decide (c ∈ [45; 95; 46; 33; 126; 42; 39; 40; 41]%N).

Definition uri_encode (s : jsstring) : option jsstring :=
  cps ← code_points s;
  Some (cps ≫= λ cp,
        if uri_unreserved cp then [cp]
        else utf8_encode cp ≫= λ b,
             [37%N; hex_digit (b / 16); hex_digit (b mod 16)]).

(** *** [URL] *)

(** The origin of a URL of the form [http://host/...] or
    [https://host/...], the host in lower case, without user name or
    port: the only URLs the examples use. Any other text is refused. *)
Definition origin (url : jsstring) : option jsstring :=
  let scheme :=
    if startsWith (str "http://") url then Some (str "http://")
    else if startsWith (str "https://") url then Some (str "https://")
    else None in
  scheme ← scheme;
  let host :=
    (span (λ c, bool_decide (c ∉ [47; 63; 35; 64; 58; 92]%N)
                && negb (is_space c) && negb ((65 <=? c) && (c <=? 90))%N)
       (drop (length scheme) url)) in
  match host with
  | ([], _) => None
  | (h, []) => Some (scheme ++ h)
  | (h, c :: _) => if bool_decide (c = 47%N) then Some (scheme ++ h) else None
  end.

(** *** The regular expressions of [processDeclarativeShadowDOM] *)

(** The length of the match of the [slot] expression at the head of [s],
    if there is one: a tag that starts with [<slot], up to its [>], then
    the code units up to the first [</slot>], none of them a line
    terminator. *)
Definition slot_match (s : jsstring) : option nat :=
  if startsWith_ci (str "<slot") s then
    let '(a, r) := span (λ c, negb (c =? 62)%N) (drop 5 s) in
    match r with
    | [] => None
    | _ :: r' =>
        (fix close (r : jsstring) (k : nat) : option nat :=
           if startsWith_ci (str "</slot>") r
           then Some (5 + length a + 1 + k + 7)
           else match r with
                | [] => None
                | c :: r' =>
                    if is_line_terminator c then None else close r' (S k)
                end) r' 0
    end
  else None.

(** The length of the comment at the head of [s], if there is one. *)
Definition comment_match (s : jsstring) : option nat :=
  if startsWith (str "<!--") s then
    (λ k, k + 3) <$> search (str "-->") (drop 4 s) 4
  else None.

(** [s.replace(re, '')] with the flag [g], [matcher] giving the length of
    the match of [re] at the head of a text. *)
Fixpoint delete_matches (matcher : jsstring → option nat) (skip : nat)
    (s : jsstring) : jsstring :=
  match s with
  | [] => []
  | c :: s' =>
      match skip with
      | S k => delete_matches matcher k s'
      | O =>
          match matcher s with
          | Some (S k) => delete_matches matcher k s'
          | _ => c :: delete_matches matcher 0 s'
          end
      end
  end.

Definition delete_slots_and_comments (s : jsstring) : jsstring :=
  delete_matches comment_match 0 (delete_matches slot_match 0 s).

(** *** The text of a built-in function *)

(** [String(Object.prototype[name])] as V8 prints it: the prototype
    itself for [__proto__], the function [Object] for [constructor]. *)
Definition builtin_text (name : jsstring) : jsstring :=
  if bool_decide (name = str "__proto__") then str "[object Object]"
  else str "function "
       ++ (if bool_decide (name = str "constructor") then str "Object"
           else name)
       ++ str "() { [native code] }".

Definition runtime : Runtime :=
  {| Base64_encode := encode;
     Base64_decode := decode;
     QuotedPrintable_decode := qp_decode;
     decodeURIComponent := uri_decode;
     encodeURIComponent := uri_encode;
     URL_origin := origin;
     inherited_text := builtin_text;
     remove_slots_and_comments := delete_slots_and_comments |}.

(** *** A DOM provider *)

(** The text of the text nodes among the children of [n]: the
    [innerHTML] of a [style] element. *)
Definition text_content (s : store) (n : nat) : jsstring :=
  kids s n ≫= λ c,
    match s !! c with
    | Some nd => if bool_decide (tagName nd = None) then nodeValue nd else []
    | None => []
    end.

(** A serialisation of the subtree of [n]: tags in lower case, attributes
    in double quotes, text as it is. *)
Fixpoint serialize (fuel : nat) (s : store) (n : nat) : jsstring :=
  match fuel with
  | O => []
  | S fuel =>
      match s !! n with
      | None => []
      | Some nd =>
          let inner := childNodes nd ≫= serialize fuel s in
          match tagName nd with
          | Some t =>
              let name := (λ c, if ((65 <=? c) && (c <=? 90))%N
                                then (c + 32)%N else c) <$> t in
              str "<" ++ name
              ++ (attributes nd ≫= λ kv,
                  str " " ++ kv.1 ++ str "=" ++ [34%N] ++ kv.2 ++ [34%N])
              ++ str ">" ++ inner ++ str "</" ++ name ++ str ">"
          | None =>
              if (nodeType nd =? 3)%N then nodeValue nd else inner
          end
      end
  end.

(** The provider that has parsed the texts of [table] and no other. *)
Definition provider (table : list (jsstring * dom)) : DOMProvider :=
  {| parseDOM := get table;
     innerHTML := text_content;
     outerHTML := λ d, serialize (length (d_store d)) (d_store d)
                         (d_document d) |}.

End Sample.

(* ================================================================== *)
(** ** The data of the examples *)
(* ================================================================== *)

Module Ex.

(** The lines of a text, each ended by [nl]. *)
Definition lines (nl : jsstring) (ls : list string) : jsstring :=
  ls ≫= λ l, str l ++ nl.

Definition base : jsstring := str "http://e.com/".

(** An image whose payload is the base64 form of ["ABC"]. *)
Definition png : asset :=
  {| encoding := str "base64"; type := str "image/png";
     data := str "QUJD"; id := None |}.

Definition media_png : jsobj asset := [(str "http://e.com/a.png", png)].

End Ex.

(* ================================================================== *)
(** ** The URL resolver, as a list of candidates *)
(* ================================================================== *)


(** The join of a reference against a base that is a string: the value
    [absoluteURL] returns. *)
Definition joined (base relative : jsstring) : jsstring :=
  if bool_decide (indexOf (str "http://") relative 0 = 0%Z)
     || bool_decide (indexOf (str "https://") relative 0 = 0%Z)
  then relative
  else join (str "/")
         (foldl absoluteURL_step (pop (split (str "/") base))
            (split (str "/") relative)).

(** The candidates of the four strategies for a cleaned reference, in
    order, the keys of the archive being scanned in the order [ks]. *)
Definition candidates `{Runtime} (ks : list jsstring)
    (base ref : jsstring) : list jsstring :=
  let filename := default [] (last (split (str "/") ref)) in
  [ref; joined base ref]
  ++ (if startsWith (str "/") ref
      then match URL_origin base with
           | Some origin => [origin ++ ref]
           | None => []
           end
      else [])
  ++ (if (3 <? len filename)%Z
      then filter (λ key, endsWith (str "/" ++ filename) key = true
                          ∨ endsWith filename key = true) ks
      else []).

(** The reference without one quote at its start and one at its end. *)
Definition strip_surrounding_quotes (s : jsstring) : jsstring :=
  let s := match s with
           | c :: s' => if bool_decide (c ∈ [34; 39]%N) then s' else s
           | [] => []
           end in
  match reverse s with
  | c :: r => if bool_decide (c ∈ [34; 39]%N) then reverse r else s
  | [] => []
  end.

(** The resolver in the words of the specification: surrounding quotes
    stripped, the keys scanned in the order of insertion. *)
Definition resolve_as_specified `{Runtime} (media : jsobj asset)
    (base reference : jsstring) : option (jsstring * asset) :=
  head (omap (λ k, (λ e, (k, e)) <$> get media k)
          (candidates media.*1 base (strip_surrounding_quotes reference))).


(** More data of the examples: tables of resources. *)
Module Ex2.





End Ex2.

(** The data of the examples of the scan cursor. *)
Module Ex3.

(** An empty resource with a short type, under a long key. *)
Definition tiny : asset :=
  {| encoding := str "base64"; type := str "a/b"; data := []; id := None |}.

Definition media_long : jsobj asset :=
  [(str "http://e.com/some/long/path/tiny.x", tiny);
   (str "http://e.com/a.png", Ex.png)].

(** A resource whose content type holds a [url(] token. *)
Definition odd : asset :=
  {| encoding := str "base64"; type := str "x/url(a.png)";
     data := str "QUJD"; id := None |}.

Definition media_odd : jsobj asset :=
  [(str "u", odd); (str "http://e.com/a.png", Ex.png)].

End Ex3.

(* ================================================================== *)
(** ** The invariant of the loop of [parse] *)
(* ================================================================== *)

(** Two heaps that differ at most in the data of the asset [r]. *)
Definition same_but_data (r : nat) (heap heap' : list asset) : Prop :=
  length heap' = length heap
  ∧ ∀ k, (k ≠ r → heap' !! k = heap !! k)
         ∧ id <$> heap' !! k = id <$> heap !! k.

(** What holds of the tables of [parse] whenever the loop condition is
    tested. *)
Record tables_ok (s : pstate) : Prop := {
  ok_locations : length (s_locations s) = length (s_heap s);
  ok_media_refs : Forall (λ kr, kr.2 < length (s_heap s)) (s_media s);
  ok_frames_refs : Forall (λ kr, kr.2 < length (s_heap s)) (s_frames s);
  (* the entry of a location is the first part that carries it *)
  ok_media_first : ∀ u r, get (s_media s) u = Some r →
    s_locations s !! r = Some (Some u)
    ∧ ∀ j, j < r → s_locations s !! j ≠ Some (Some u);
  ok_media_all : ∀ u k, s_locations s !! k = Some (Some u) →
    u ∉ Object_prototype → is_Some (get (s_media s) u);
  (* no part is registered under the name of an inherited member *)
  ok_media_own : ∀ u r, get (s_media s) u = Some r → u ∉ Object_prototype;
  (* the entry of an identifier is the last part that carries it *)
  ok_frames_last : ∀ i r, get (s_frames s) i = Some r →
    id <$> s_heap s !! r = Some (Some i)
    ∧ ∀ j, r < j → id <$> s_heap s !! j ≠ Some (Some i);
  ok_frames_all : ∀ i k, id <$> s_heap s !! k = Some (Some i) →
    is_Some (get (s_frames s) i);
  (* a body, once recorded, is the data of its asset *)
  ok_bodies : ∀ k b, s_bodies s !! k = Some b →
    data <$> s_heap s !! k = Some b;
  ok_bodies_length :
    if decide (s_state s = MHTML_DATA)
    then S (length (s_bodies s)) = length (s_heap s)
         ∧ s_asset s = Some (length (s_bodies s))
    else length (s_bodies s) = length (s_heap s);
}.

(** The archives of the examples of [parse]. *)
Module Ex4.

(** An archive whose second and third parts carry the same
    [Content-Location] and the same [Content-ID]. *)
Definition twice (nl : jsstring) : jsstring :=
  Ex.lines nl
    ["MIME-Version: 1.0";
     "Content-Type: multipart/related; boundary=XX";
     "";
     "--XX";
     "Content-Type: text/html";
     "Content-Transfer-Encoding: 7bit";
     "Content-Location: http://e.com/";
     "";
     "<p>page</p>";
     "--XX";
     "Content-Type: text/plain";
     "Content-Transfer-Encoding: 7bit";
     "Content-Location: http://e.com/t";
     "Content-ID: <x>";
     "";
     "one";
     "--XX";
     "Content-Type: text/plain";
     "Content-Transfer-Encoding: 7bit";
     "Content-Location: http://e.com/t";
     "Content-ID: <x>";
     "";
     "two";
     "--XX--"].

(** The state in which [parse] leaves its loop on [mhtml]. *)
Definition final (mhtml : jsstring) : pstate :=
  match parse_run (H := Sample.runtime) mhtml false with
  | Ret (inl s) => s
  | _ => initial
  end.

End Ex4.

(* ================================================================== *)
(** ** Line endings *)
(* ================================================================== *)




(* ================================================================== *)
(** ** A part with a malformed payload *)
(* ================================================================== *)



Module Ex5.

(** The page of the archive below. *)
Definition page : jsstring :=
  str "<div style='background: url(http://e.com/a.png)'></div>".

(** An archive whose image has a payload outside the base64 alphabet. *)
Definition broken : jsstring :=
  Ex.lines LF
    ["MIME-Version: 1.0";
     "Content-Type: multipart/related; boundary=XX";
     "";
     "--XX";
     "Content-Type: text/html";
     "Content-Transfer-Encoding: 7bit";
     "Content-Location: http://e.com/";
     "";
     "<div style='background: url(http://e.com/a.png)'></div>";
     "--XX";
     "Content-Type: image/png";
     "Content-Transfer-Encoding: base64";
     "Content-Location: http://e.com/a.png";
     "";
     "!!!!";
     "--XX--"].

Definition element (t : string) (a : list (string * string))
    (c : list nat) : node :=
  {| nodeType := 1; tagName := Some (str t);
     attributes := (λ kv, (str kv.1, str kv.2)) <$> a;
     childNodes := c; nodeValue := []; content := None |}.

Definition text (t : string) : node :=
  {| nodeType := 3; tagName := None; attributes := [];
     childNodes := []; nodeValue := str t; content := None |}.

Definition document (c : list nat) : node :=
  {| nodeType := 9; tagName := None; attributes := [];
     childNodes := c; nodeValue := []; content := None |}.

(** The tree of [page]. *)
Definition page_dom : dom :=
  {| d_document := 0;
     d_store :=
       [document [1]; element "HTML" [] [2; 3]; element "HEAD" [] [];
        element "BODY" [] [4];
        element "DIV" [("style", "background: url(http://e.com/a.png)")]
          []] |}.

Definition provider : DOMProvider :=
  Sample.provider [(page ++ LF, page_dom)].

End Ex5.

(* ================================================================== *)
(** ** Documents: well-formed stores, reachability, inlinable links *)
(* ================================================================== *)

(** A store is closed when the children of its nodes are nodes of it. *)
Definition closed (s : store) : Prop :=
  ∀ n c, c ∈ kids s n → c < length s.

(** What is asked of the DOM a provider returns: its document is a node
    of its store and no element, and the store is closed. *)
Definition wf_dom (d : dom) : Prop :=
  d_document d < length (d_store d)
  ∧ tag (d_store d) (d_document d) = None
  ∧ closed (d_store d).

(** A provider that returns such DOMs only. *)
Definition wf_provider `{DOMProvider} : Prop :=
  ∀ html d, parseDOM html = Some d → wf_dom d.

(** The nodes of the tree below [root], [root] included. *)
Inductive reach (s : store) (root : nat) : nat → Prop :=
  | reach_root : reach s root root
  | reach_child n c : reach s root n → c ∈ kids s n → reach s root c.

(** The test of the [LINK] case of [convert] on the node [n]: a [link]
    element whose [rel] is [stylesheet] and whose [href], as it stands,
    is a key of [media] for a resource of type [text/css]. A missing
    [href] is [null] and names the key ["null"]. *)
Definition inlinable (media : jsobj asset) (s : store) (n : nat) : Prop :=
  tag s n = Some (str "LINK")
  ∧ getAttribute s n (str "rel") = Some (str "stylesheet")
  ∧ type <$> get media (default (str "null") (getAttribute s n (str "href")))
    = Some (str "text/css").

(** A [style] element [st] of type [text/css] whose only child is the
    text node [tx] of text [css]. *)
Definition style_with_text (s : store) (st tx : nat) (css : jsstring)
  : Prop :=
  tag s st = Some (str "STYLE")
  ∧ getAttribute s st (str "type") = Some (str "text/css")
  ∧ kids s st = [tx]
  ∧ tag s tx = None
  ∧ kids s tx = []
  ∧ nodeValue <$> s !! tx = Some css.

(** What one call of the callback of [convert] on the child [c] of [p]
    does to the store: the store grows; the old nodes keep their tag
    names and their [rel] and [href]; the old nodes other than [c] and
    [p] keep their children; among the children of [p] the first
    occurrence of [c] may have been replaced by a new [style] element,
    and has been when [c] was an inlinable link. *)
Record visit_effect (media : jsobj asset) (p c : nat) (s s' : store)
  : Prop := {
  ve_length : length s ≤ length s';
  ve_closed : closed s';
  ve_tag : ∀ n, n < length s → tag s' n = tag s n;
  ve_rel : ∀ n, n < length s →
    getAttribute s' n (str "rel") = getAttribute s n (str "rel");
  ve_href : ∀ n, n < length s →
    getAttribute s' n (str "href") = getAttribute s n (str "href");
  ve_kids : ∀ n, n < length s → n ≠ c → n ≠ p → kids s' n = kids s n;
  ve_parent : p ≠ c →
    (¬ inlinable media s c ∧ kids s' p = kids s p)
    ∨ ∃ st tx css, length s ≤ st ∧ style_with_text s' st tx css
                   ∧ kids s' p = replace_first st c (kids s p);
}.

(** An edge from [y] to its child [x] that the walk has still to
    follow: [y] waits in the queue, or the running [forEach] over the
    children of [y] has not come to [x] yet. *)
Definition pending (w : wstate) (y x : nat) : Prop :=
  y ∈ w_nodes w
  ∨ ∃ i, w_cur w = Some (y, i) ∧ x ∈ drop i (kids (w_store w) y).

(** The nodes reached from [root] along edges that are not pending. *)
Inductive settled (w : wstate) (root : nat) : nat → Prop :=
  | settled_root : settled w root root
  | settled_child y x :
      settled w root y → x ∈ kids (w_store w) y → ¬ pending w y x →
      settled w root x.

(** The invariant of the walk. *)
Record walk_inv (media : jsobj asset) (root : nat) (w : wstate) : Prop := {
  wi_closed : closed (w_store w);
  wi_root : root < length (w_store w) ∧ tag (w_store w) root = None;
  wi_nodes : ∀ n, n ∈ w_nodes w → n < length (w_store w);
  wi_cur : ∀ p i, w_cur w = Some (p, i) → p < length (w_store w);
  wi_settled : ∀ n, settled w root n → ¬ inlinable media (w_store w) n;
  wi_prefix : ∀ p i, w_cur w = Some (p, i) →
    p ∈ w_nodes w
    ∨ ∀ x, x ∈ take i (kids (w_store w) p) →
           ¬ inlinable media (w_store w) x;
}.

(* ================================================================== *)
(** ** The invariant I1 of archives and the errors of [assert] *)
(* ================================================================== *)

(** I1: [index] is a key of [media], for a resource of content type
    [text/html]. *)
Definition I1 (a : archive) : Prop :=
  ∃ idx entry,
    index a = Some idx ∧ get (media a) idx = Some entry
    ∧ type entry = str "text/html".

(** The run [r] ended in an error of [assert]. *)
Definition asserted {A} (r : res A) : Prop := ∃ m, r = Throw (Error m).

(** [s'] is the store [s] with new nodes, where the old nodes have their
    tag names and their [rel] and [href], and the old nodes other than
    [c] their children. *)
Record grows (c : nat) (s s' : store) : Prop := {
  g_length : length s ≤ length s';
  g_tag : ∀ n, n < length s → tag s' n = tag s n;
  g_attr : ∀ n name, n < length s →
    name = str "rel" ∨ name = str "href" →
    getAttribute s' n name = getAttribute s n name;
  g_kids : ∀ n, n < length s → n ≠ c → kids s' n = kids s n;
  g_closed : closed s → closed s';
}.

(** The store after the statements by which the [LINK] and the [STYLE]
    case build their [style] element for the text [css]:
    [createElement], the assignment of [type], [createTextNode] and
    [appendChild]. The element is the node [length s], its text the
    node [S (length s)]. *)
Definition new_style (s : store) (css : jsstring) : store :=
  let '(s, style) := createElement s (str "style") in
  let s := setAttribute s style (str "type") (str "text/css") in
  let '(s, text) := createTextNode s css in
  appendChild s style text.

(** What is known of a node the walk has settled after a call of the
    callback on the child [c], in the store [s'] the call returns: the
    node was settled before, or it belongs to a new [style] element, or
    it is [c]. *)
Definition settled_after (root : nat) (w : wstate) (s' : store)
    (c x : nat) : Prop :=
  (x < length (w_store w) ∧ settled w root x)
  ∨ (∃ st tx css, style_with_text s' st tx css ∧ (x = st ∨ x = tx))
  ∨ x = c.

(** The test of [closed]. *)
Definition closedb (s : store) : bool :=
  forallb (λ nd, forallb (λ c, bool_decide (c < length s)) (childNodes nd)) s.

(** A page with two links to one stylesheet: the first names it by its
    URL, the second relative to the page. *)
Module Ex6.

Definition location : jsstring := str "http://e.com/".

Definition sheet : asset :=
  {| encoding := str "7bit"; type := str "text/css";
     data := str "a { color: red }"; id := None |}.

Definition page : archive :=
  {| frames := [];
     media :=
       [(str "http://e.com/",
         {| encoding := str "7bit"; type := str "text/html";
            data := str "<html></html>"; id := None |});
        (str "http://e.com/s.css", sheet)];
     index := Some location |}.

Definition page_dom : dom :=
  {| d_document := 0;
     d_store :=
       [Ex5.document [1]; Ex5.element "HTML" [] [2; 3];
        Ex5.element "HEAD" [] [4; 5]; Ex5.element "BODY" [] [];
        Ex5.element "LINK"
          [("rel", "stylesheet"); ("href", "http://e.com/s.css")] [];
        Ex5.element "LINK" [("rel", "stylesheet"); ("href", "s.css")] []] |}.

Definition provider : DOMProvider :=
  Sample.provider [(str "<html></html>", page_dom)].

(** The document [convert] makes of the page: the [head] has a [base]
    and, for the first link, a [style]; the second link is still
    there. The first link, node 4, is no longer in the tree. *)
Definition converted : dom :=
  {| d_document := 0;
     d_store :=
       [Ex5.document [1]; Ex5.element "HTML" [] [2; 3];
        Ex5.element "HEAD" [] [6; 7; 5]; Ex5.element "BODY" [] [];
        Ex5.element "LINK"
          [("rel", "stylesheet"); ("href", "http://e.com/s.css")] [];
        Ex5.element "LINK" [("rel", "stylesheet"); ("href", "s.css")] [];
        Ex5.element "BASE" [("target", "_parent")] [];
        Ex5.element "STYLE" [("type", "text/css")] [8];
        Ex5.text "a { color: red }"] |}.

End Ex6.

(** A stylesheet that imports itself. *)
Module Ex7.

Definition sheet : asset :=
  {| encoding := str "7bit"; type := str "text/css";
     data := str "@import url('http://e.com/s.css');"; id := None |}.

Definition media : jsobj asset := [(str "http://e.com/s.css", sheet)].

End Ex7.

(** What holds of the variable [index] of [parse] whenever the loop
    condition is tested: as long as it is undefined no part has been
    registered; once it is set it is the location of the first part,
    whose type is [text/html] and which is registered unless its
    location names a member of [Object.prototype]; and it is set when
    the data state is entered. *)
Record index_ok (s : pstate) : Prop := {
  io_none : s_index s = None → s_media s = [] ∧ s_heap s = [];
  io_some : ∀ u, s_index s = Some u →
    (u ∉ Object_prototype → get (s_media s) u = Some 0)
    ∧ ∃ a, s_heap s !! 0 = Some a ∧ type a = str "text/html";
  io_state : s_state s = MHTML_DATA ∨ s_state s = MHTML_END →
    s_index s ≠ None;
}.

(** [s'] is the store [s] with new nodes, where the old nodes have the
    attributes they had, but for those named in [touched]. *)
Definition attrs_kept (touched : list jsstring) (s s' : store) : Prop :=
  length s ≤ length s'
  ∧ ∀ n name, n < length s → name ∉ touched →
      getAttribute s' n name = getAttribute s n name.

(** The trees of the examples of the callback of [convert]. *)
Module Ex8.


(** A page with an image of the archive [Ex.media_png]. *)
Definition page : store :=
  [Ex5.document [1]; Ex5.element "HTML" [] [2; 3];
   Ex5.element "HEAD" [] []; Ex5.element "BODY" [] [4];
   Ex5.element "IMG"
     [("src", "http://e.com/a.png"); ("integrity", "sha256-x")] []].


(** [page] after the callback on its [head]. *)
Definition with_base : store :=
  [Ex5.document [1]; Ex5.element "HTML" [] [2; 3];
   Ex5.element "HEAD" [] [5]; Ex5.element "BODY" [] [4];
   Ex5.element "IMG"
     [("src", "http://e.com/a.png"); ("integrity", "sha256-x")] [];
   Ex5.element "BASE" [("target", "_parent")] []].

(** [page] after the callback on its image. *)
Definition inlined : store :=
  [Ex5.document [1]; Ex5.element "HTML" [] [2; 3];
   Ex5.element "HEAD" [] []; Ex5.element "BODY" [] [4];
   Ex5.element "IMG" [("src", "data:image/png;base64,QUJD")] []].

(** The archive of [page] and a provider that knows it. *)
Definition site : archive :=
  {| frames := [];
     media :=
       [(str "http://e.com/",
         {| encoding := str "7bit"; type := str "text/html";
            data := str "<img>"; id := None |});
        (str "http://e.com/a.png", Ex.png)];
     index := Some (str "http://e.com/") |}.

Definition provider : DOMProvider :=
  Sample.provider [(str "<img>", {| d_store := page; d_document := 0 |})].

(** The document [convert] makes of [site]. *)
Definition converted : dom :=
  {| d_document := 0;
     d_store :=
       [Ex5.document [1]; Ex5.element "HTML" [] [2; 3];
        Ex5.element "HEAD" [] [5]; Ex5.element "BODY" [] [4];
        Ex5.element "IMG" [("src", "data:image/png;base64,QUJD")] [];
        Ex5.element "BASE" [("target", "_parent")] []] |}.

End Ex8.

(* ================================================================== *)
(** ** Documents without [integrity] attributes *)
(* ================================================================== *)

(** The node [n] carries no [integrity] attribute if it is an element. *)
Definition clean (s : store) (n : nat) : Prop :=
  tag s n ≠ None → getAttribute s n (str "integrity") = None.

(** What one call of the callback of [convert] on the child [c] of [p]
    does to the store, as far as [integrity] attributes go: the old
    nodes that were clean are clean, and so is [c]; the old nodes other
    than [c] and [p] keep their children; among the children of [p] the
    first occurrence of [c] may have been replaced by a new element
    without that attribute, whose only child has no child. *)
Record scrub_effect (p c : nat) (s s' : store) : Prop := {
  se_length : length s ≤ length s';
  se_closed : closed s';
  se_stable : ∀ n, n < length s → clean s n → clean s' n;
  se_child : clean s' c;
  se_kids : ∀ n, n < length s → n ≠ c → n ≠ p → kids s' n = kids s n;
  se_parent : p ≠ c →
    kids s' p = kids s p
    ∨ ∃ st tx, length s ≤ st ∧ kids s' st = [tx] ∧ kids s' tx = []
               ∧ clean s' st ∧ clean s' tx
               ∧ kids s' p = replace_first st c (kids s p);
}.

(** The invariant of the walk for the [integrity] attributes. *)
Record walk_clean (root : nat) (w : wstate) : Prop := {
  wc_closed : closed (w_store w);
  wc_root : root < length (w_store w) ∧ clean (w_store w) root;
  wc_nodes : ∀ n, n ∈ w_nodes w → n < length (w_store w);
  wc_cur : ∀ p i, w_cur w = Some (p, i) → p < length (w_store w);
  wc_settled : ∀ n, settled w root n → clean (w_store w) n;
}.

(** A document with a frame of the archive. *)
Module Ex9.

Definition frame : asset :=
  {| encoding := str "7bit"; type := str "text/html";
     data := str "<img>"; id := Some (str "<f1>") |}.

Definition outer : store :=
  [Ex5.document [1]; Ex5.element "IFRAME" [("src", "cid:f1")] []].

(** [outer] after the callback on its [iframe], under [convertIframes]
    and with the page [Ex8.page] for the text of the frame. *)
Definition framed : store :=
  [Ex5.document [1];
   Ex5.element "IFRAME"
     [("src",
       "data:text/html;charset=utf-8,%3Chtml%3E%3Chead%3E%3Cbase%20target%3D%22_parent%22%3E%3C%2Fbase%3E%3C%2Fhead%3E%3Cbody%3E%3Cimg%20src%3D%22http%3A%2F%2Fe.com%2Fa.png%22%3E%3C%2Fimg%3E%3C%2Fbody%3E%3C%2Fhtml%3E")]
     []].

End Ex9.

(** An archive whose page has the location [constructor], the name of a
    member of [Object.prototype], and whose image has a location of its
    own. *)
Module Ex10.



End Ex10.

(* ================================================================== *)
(** ** Archives as texts *)
(* ================================================================== *)

(** The text of an archive in the form [parse] expects: a block of header
    lines, a blank line, a delimiter line, and for every part a block of
    header lines, a blank line, the lines of the body and a delimiter
    line. Every line ends with the same line ending [eol]. A header line
    is given by what stands before and behind its first colon, a body
    line by its text without the line ending. *)
Record part := Part {
  p_headers : list (jsstring * jsstring);
  p_body : list jsstring;
}.

Record document := Document {
  d_headers : list (jsstring * jsstring);
  d_parts : list part;
}.

(** The lines [name:value] of a header block. *)
Definition header_lines (eol : jsstring) (hs : list (jsstring * jsstring))
  : jsstring :=
  hs ≫= λ h, h.1 ++ str ":" ++ h.2 ++ eol.

(** The fields a header block defines: names and values are trimmed, a
    later line with the same name replaces an earlier one, and nothing
    is stored under the name [__proto__]. *)
Definition header_fields (hs : list (jsstring * jsstring))
  : jsobj jsstring :=
  foldl (λ o h, put o (str_trim h.1) (str_trim h.2)) [] hs.

(** The boundary that the header block of the archive declares. *)
Definition boundary_of (hs : list (jsstring * jsstring)) : option jsstring :=
  content_type ← get (header_fields hs) (str "Content-Type");
  matches ← match_boundary content_type;
  Some (remove_chars [34]%N matches).

(** A delimiter line: two hyphens and the boundary, and two more hyphens
    after the last part. *)
Definition delimiter (eol boundary : jsstring) (last : bool) : jsstring :=
  str "--" ++ boundary ++ (if last then str "--" else []) ++ eol.

Definition body_lines (eol : jsstring) (body : list jsstring) : jsstring :=
  body ≫= λ t, t ++ eol.

Definition render_part (eol boundary : jsstring) (last : bool) (p : part)
  : jsstring :=
  header_lines eol (p_headers p) ++ eol
  ++ body_lines eol (p_body p) ++ delimiter eol boundary last.

Fixpoint render_parts (eol boundary : jsstring) (ps : list part)
  : jsstring :=
  match ps with
  | [] => []
  | [p] => render_part eol boundary true p
  | p :: ps => render_part eol boundary false p
               ++ render_parts eol boundary ps
  end.

Definition render (eol : jsstring) (d : document) : jsstring :=
  let boundary := default [] (boundary_of (d_headers d)) in
  header_lines eol (d_headers d) ++ eol
  ++ delimiter eol boundary false
  ++ render_parts eol boundary (d_parts d).

(** What [getLine(encoding)] makes of a line it has cut out of the text;
    [None] when the decoder throws. *)
Definition decode_line `{Runtime} (encoding : option jsstring)
    (line : jsstring) : option jsstring :=
  if bool_decide (encoding = Some (str "quoted-printable"))
  then QuotedPrintable_decode line
  else if bool_decide (encoding = Some (str "base64"))
       then Some (str_trim line)
       else Some line.

(** The headers of a part that [parse] reads. *)
Definition part_field (p : part) (name : string) : option jsstring :=
  get (header_fields (p_headers p)) (str name).

Definition part_location (p : part) : option jsstring :=
  part_field p "Content-Location".

(** The data of a part: its body lines, each with its line ending,
    decoded one by one as its transfer encoding asks, and joined. *)
Definition part_text `{Runtime} (eol : jsstring) (p : part)
  : option jsstring :=
  ds ← mapM (λ t, decode_line (part_field p "Content-Transfer-Encoding")
                    (t ++ eol)) (p_body p);
  Some (concat ds).

(** The resource of a part: what its headers say, and its data after
    the attempt to read it as UTF-8. *)
Definition part_asset `{Runtime} (eol : jsstring) (p : part) : option asset :=
  encoding ← part_field p "Content-Transfer-Encoding";
  type ← part_field p "Content-Type";
  text ← part_text eol p;
  Some (decode_unicode {| encoding := encoding; type := type; data := text;
                          id := part_field p "Content-ID" |}).

(** A header line: no colon and no line feed in the name, no line feed in
    the value. *)
Definition wf_header (h : jsstring * jsstring) : bool :=
  bool_decide (58%N ∉ h.1) && bool_decide (10%N ∉ h.1 ++ h.2).

(** A part that [parse] accepts: it has a transfer encoding and a type,
    and a location or an identifier; every body line is one line, can be
    decoded and does not include the boundary once decoded, while the
    delimiter line still does; and the body does not begin with white
    space, which [trim()] would discard. *)
Definition wf_part `{Runtime} (eol boundary : jsstring) (last : bool)
    (p : part) : bool :=
  let encoding := part_field p "Content-Transfer-Encoding" in
  forallb wf_header (p_headers p)
  && bool_decide (is_Some encoding)
  && bool_decide (is_Some (part_field p "Content-Type"))
  && bool_decide (is_Some (part_field p "Content-ID")
                  ∨ is_Some (part_location p))
  && forallb (λ t, bool_decide (10%N ∉ t)
                   && match decode_line encoding (t ++ eol) with
                      | Some d => negb (includes boundary d)
                      | None => false
                      end) (p_body p)
  && match decode_line encoding (delimiter eol boundary last) with
     | Some d => includes boundary d
     | None => false
     end
  && match p_body p with
     | [] => true
     | [] :: _ => false
     | (c :: _) :: _ => negb (is_space c)
     end.

Fixpoint wf_parts `{Runtime} (eol boundary : jsstring) (ps : list part)
  : bool :=
  match ps with
  | [] => true
  | [p] => wf_part eol boundary true p
  | p :: ps => wf_part eol boundary false p && wf_parts eol boundary ps
  end.

(** An archive that [parse] accepts: its header block declares a
    boundary without line feed, it has a part, its first part is a page
    with a location, and its parts are well formed. *)
Definition well_formed `{Runtime} (eol : jsstring) (d : document) : bool :=
  match boundary_of (d_headers d) with
  | Some boundary =>
      forallb wf_header (d_headers d)
      && bool_decide (10%N ∉ boundary)
      && match d_parts d with
         | [] => false
         | p :: _ =>
             bool_decide (is_Some (part_location p))
             && bool_decide (part_field p "Content-Type"
                             = Some (str "text/html"))
         end
      && wf_parts eol boundary (d_parts d)
  | None => false
  end.

(** The machine goes from one state to another in some rounds of its
    loop. *)
Inductive steps `{Runtime} (mhtml : jsstring) : pstate → pstate → Prop :=
  | steps_refl s : steps mhtml s s
  | steps_step s s1 s2 :
      s_state s ≠ MHTML_END →
      step mhtml false s = Ret (inl s1) →
      steps mhtml s1 s2 → steps mhtml s s2.

(** The characters a decimal literal is made of. *)
Definition numeric (c : N) : bool :=
  is_digit c || bool_decide (c ∈ [43; 45; 46; 101; 69]%N).

(** The machine has read the text [mhtml] up to its rest [rest]. *)
Definition reads (mhtml rest : jsstring) (s : pstate) : Prop :=
  ∃ pre, mhtml = pre ++ rest ∧ s_i s = length pre.

(** The machine stands in the header block of the archive: it has read
    the header lines [hs], and nothing else has happened. *)
Record in_headers (mhtml : jsstring) (hs : list (jsstring * jsstring))
    (rest : jsstring) (s : pstate) : Prop := {
  ih_state : s_state s = MHTML_HEADERS;
  ih_reads : reads mhtml rest s;
  ih_headers : s_headers s = header_fields hs;
  ih_index : s_index s = None;
  ih_heap : s_heap s = [];
  ih_locations : s_locations s = [];
}.

(** The machine has read the parts [done]: their assets are the assets
    of the heap, in order, and the index is the location of the first. *)
Record after_parts `{Runtime} (eol : jsstring) (done : list part)
    (s : pstate) : Prop := {
  ap_heap : Forall2 (λ p a, part_asset eol p = Some a) done (s_heap s);
  ap_locations : s_locations s = part_location <$> done;
  ap_index : match done with
             | [] => s_index s = None
             | p :: _ => s_index s = part_location p
                         ∧ is_Some (part_location p)
             end;
}.

(** The machine stands in the header block of a part, behind the parts
    [done]: it has read the header lines [hs] of the part. *)
Record in_content `{Runtime} (mhtml eol boundary : jsstring)
    (done : list part) (hs : list (jsstring * jsstring)) (rest : jsstring)
    (s : pstate) : Prop := {
  ic_state : s_state s = MTHML_CONTENT;
  ic_reads : reads mhtml rest s;
  ic_content : s_content s = header_fields hs;
  ic_boundary : s_boundary s = Some boundary;
  ic_parts : after_parts eol done s;
}.

(* ================================================================== *)
(** * Properties *)
(* ================================================================== *)

(** ** Strings *)

Section Strings.
Implicit Types (s pat : jsstring) (k : nat).

Lemma startsWith_spec pat s :
  startsWith pat s = true ↔ ∃ r, s = pat ++ r.
Proof.
  revert s. induction pat as [|a pat IH]; intros s; simpl.
  - split; [eauto|done].
  - destruct s as [|b s].
    + split; [done|]. by intros [r ?].
    + rewrite andb_true_iff, N.eqb_eq, IH. split.
      * intros [-> [r ->]]. eauto.
      * intros [r [= -> ->]]. eauto.
Qed.

Lemma startsWith_app pat r : startsWith pat (pat ++ r) = true.
Proof. apply startsWith_spec. eauto. Qed.

Lemma search_unfold pat s k :
  search pat s k =
    if startsWith pat s then Some k
    else match s with [] => None | _ :: s' => search pat s' (S k) end.
Proof. by destruct s. Qed.

Lemma search_hit pat s k : startsWith pat s = true → search pat s k = Some k.
Proof. intros E. by rewrite search_unfold, E. Qed.

(** What [search] finds is the first occurrence from where it starts. *)
Lemma search_Some pat s k j :
  search pat s k = Some j →
  k ≤ j ∧ j - k ≤ length s ∧ startsWith pat (drop (j - k) s) = true
  ∧ ∀ m, m < j - k → startsWith pat (drop m s) = false.
Proof.
  revert k. induction s as [|c s IH]; intros k; rewrite search_unfold.
  - destruct (startsWith pat []) eqn:E; [|done].
    intros [= <-]. rewrite Nat.sub_diag. split_and!; [lia|simpl; lia|done|lia].
  - destruct (startsWith pat (c :: s)) eqn:E.
    + intros [= <-]. rewrite Nat.sub_diag.
      split_and!; [lia|simpl; lia|done|lia].
    + intros (? & ? & ? & Hm)%IH. split_and!; [lia|simpl; lia|..].
      * by replace (j - k) with (S (j - S k)) by lia.
      * intros [|m] ?; [done|]. simpl. apply Hm. lia.
Qed.

Lemma search_None pat s k m :
  search pat s k = None → startsWith pat (drop m s) = false.
Proof.
  revert k m. induction s as [|c s IH]; intros k m; rewrite search_unfold.
  - destruct (startsWith pat []) eqn:E; [done|]. by rewrite drop_nil.
  - destruct (startsWith pat (c :: s)) eqn:E; [done|].
    intros Hs. destruct m as [|m]; [done|]. simpl. eauto.
Qed.

(** Nothing is found before the position [search] reports, so a search
    that starts later, on or before that position, reports the same. *)
Lemma search_skip pat s k n :
  (∀ m, m < n → startsWith pat (drop m s) = false) →
  search pat s k = search pat (drop n s) (k + n).
Proof.
  revert s k. induction n as [|n IH]; intros s k Hm.
  - by rewrite drop_0, Nat.add_0_r.
  - assert (startsWith pat s = false) as E by (apply (Hm 0); lia).
    rewrite search_unfold, E.
    destruct s as [|c s].
    + rewrite drop_nil. by rewrite search_unfold, E.
    + rewrite (IH s (S k)); [simpl; f_equal; lia|].
      intros m ?. apply (Hm (S m)). lia.
Qed.

Lemma clamp_of_nat s n : clamp s (Z.of_nat n) = n `min` length s.
Proof. unfold clamp, len. lia. Qed.

Lemma clamp_0 s : clamp s 0 = 0.
Proof. unfold clamp, len. lia. Qed.

Lemma clamp_len s : clamp s (len s) = length s.
Proof. unfold clamp, len. lia. Qed.

Lemma indexOf_of_nat pat s n :
  n ≤ length s →
  indexOf pat s (Z.of_nat n) =
    match search pat (drop n s) n with
    | Some p => Z.of_nat p
    | None => (-1)%Z
    end.
Proof. intros. unfold indexOf. rewrite clamp_of_nat. by rewrite Nat.min_l. Qed.

Lemma substring_of_nat s a b :
  a ≤ b → b ≤ length s →
  substring s (Z.of_nat a) (Z.of_nat b) = take (b - a) (drop a s).
Proof.
  intros. unfold substring. rewrite !clamp_of_nat.
  by rewrite (Nat.min_l a), (Nat.min_l b), Nat.max_r, Nat.min_l by lia.
Qed.

Lemma substring_0 s b :
  b ≤ length s → substring s 0 (Z.of_nat b) = take b s.
Proof.
  intros. change 0%Z with (Z.of_nat 0).
  rewrite substring_of_nat by lia. by rewrite Nat.sub_0_r.
Qed.


End Strings.

(** ** The exception monad and objects *)

Lemma bind_Ret {A B} (m : res A) (f : A → res B) (b : B) :
  m ≫= f = Ret b ↔ ∃ a, m = Ret a ∧ f a = Ret b.
Proof.
  destruct m as [a|e]; simpl.
  - split; [eauto|]. by intros (? & [= <-] & ?).
  - split; [done|]. by intros (? & ? & ?).
Qed.

Lemma fmap_Ret {A B} (m : res A) (f : A → B) (b : B) :
  f <$> m = Ret b ↔ ∃ a, m = Ret a ∧ f a = b.
Proof.
  destruct m as [a|e]; simpl.
  - split; [intros [= <-]; eauto|]. by intros (? & [= <-] & <-).
  - split; [done|]. by intros (? & ? & ?).
Qed.

Lemma lift_Ret {A} (e : exn) (o : option A) (a : A) :
  lift e o = Ret a ↔ o = Some a.
Proof. destruct o; simpl; split; congruence. Qed.

Lemma assert_Ret (c : bool) (m : message) (u : unit) :
  assert c m = Ret u ↔ c = true.
Proof. destruct c, u; simpl; split; congruence. Qed.

(** Takes a hypothesis [m ≫= f = Ret b] apart. *)
Ltac bind_inv H :=
  let a := fresh "a" in
  let Ha := fresh "Ha" in
  apply bind_Ret in H as (a & Ha & H).

Section Objects.
Context {V : Type}.
Implicit Types (o : jsobj V) (k : jsstring) (v : V).

Lemma get_set_eq o k v : get (set o k v) k = Some v.
Proof.
  induction o as [|[k' v'] o IH]; simpl.
  - by rewrite bool_decide_eq_true_2.
  - destruct (decide (k' = k)) as [->|].
    + rewrite bool_decide_eq_true_2 by done. simpl.
      by rewrite bool_decide_eq_true_2.
    + rewrite bool_decide_eq_false_2 by done. simpl.
      by rewrite bool_decide_eq_false_2.
Qed.

Lemma get_set_ne o k k' v : k ≠ k' → get (set o k v) k' = get o k'.
Proof.
  intros Hne. induction o as [|[k'' v''] o IH]; simpl.
  - by rewrite bool_decide_eq_false_2.
  - destruct (decide (k'' = k)) as [->|].
    + rewrite bool_decide_eq_true_2 by done. simpl.
      by rewrite !bool_decide_eq_false_2.
    + rewrite bool_decide_eq_false_2 by done. simpl. by rewrite IH.
Qed.

Lemma Forall_set (P : V → Prop) o k v :
  Forall (λ kv, P kv.2) o → P v → Forall (λ kv, P kv.2) (set o k v).
Proof.
  intros Ho Hv. induction Ho as [|[k' v'] o ? ? IH]; simpl.
  - by constructor.
  - case_bool_decide; constructor; auto.
Qed.

Lemma get_Forall (P : V → Prop) o k v :
  Forall (λ kv, P kv.2) o → get o k = Some v → P v.
Proof.
  intros Ho. induction Ho as [|[k' v'] o ? ? IH]; simpl; [done|].
  case_bool_decide; [by intros [= <-]|auto].
Qed.

Lemma read_Own o k v : read o k = Own v ↔ get o k = Some v.
Proof.
  unfold read. destruct (get o k); [|by case_bool_decide].
  split; by intros [= ->].
Qed.

Lemma read_Undefined o k :
  read o k = Undefined ↔ get o k = None ∧ k ∉ Object_prototype.
Proof.
  unfold read. destruct (get o k); [by split; [|intros []]|].
  case_bool_decide; split; try done; by intros [].
Qed.

Lemma read_Inherited o k :
  read o k = Inherited ↔ get o k = None ∧ k ∈ Object_prototype.
Proof.
  unfold read. destruct (get o k); [by split; [|intros []]|].
  case_bool_decide; split; try done; by intros [].
Qed.


End Objects.

Lemma type_of_read (media : jsobj asset) k :
  type_of (read media k) = type <$> get media k.
Proof. unfold read. destruct (get media k); [done|]. by case_bool_decide. Qed.

(** A table of valid references and the object it stands for agree. *)
Lemma get_deref heap (o : jsobj nat) k :
  Forall (λ kr, kr.2 < length heap) o →
  get (deref heap o) k = get o k ≫= (heap !!.).
Proof.
  intros Ho. induction Ho as [|[k' r] o Hr ? IH]; [done|].
  unfold deref in *. simpl in *.
  destruct (lookup_lt_is_Some_2 heap r Hr) as [a Ha]. rewrite Ha. simpl.
  case_bool_decide; [by simpl|done].
Qed.

(** ** The text rewriter: a text that begins with [url(] *)

Section LeadingUrl.
Context `{Runtime}.

Lemma indexOf_leading pat s : startsWith pat s = true → indexOf pat s 0 = 0%Z.
Proof.
  intros E. unfold indexOf. rewrite clamp_0, drop_0.
  by rewrite search_hit.
Qed.

(** C10 (amended). When the text begins with [url(], the first search of
    the loop returns 0, the loop condition [> 0] fails at once and
    [replaceReferences] returns the text as it is: neither the leading
    reference nor any later one is rewritten. *)
Theorem replaceReferences_leading_url fuel media base css :
  startsWith CSS_URL_RULE css = true →
  replaceReferences (S fuel) media base css = Ret css.
Proof.
  intros E. unfold replaceReferences. simpl.
  by rewrite (indexOf_leading _ _ E).
Qed.

End LeadingUrl.

(** C10, witness: a text with two references to a known image. *)
Lemma replaceReferences_leading_url_witness :
  startsWith CSS_URL_RULE (str "url(a.png) b url(a.png)") = true
  ∧ replaceReferences (H := Sample.runtime) 1 Ex.media_png (Some Ex.base)
      (str "url(a.png) b url(a.png)")
    = Ret (str "url(a.png) b url(a.png)").
Proof.
  split; [reflexivity|].
  apply (replaceReferences_leading_url (H := Sample.runtime) 0
           Ex.media_png (Some Ex.base) (str "url(a.png) b url(a.png)")).
  reflexivity.
Defined.

(** C10, counterexample to the claim as stated: the second reference
    stands at offset 13 and resolves, yet it is not rewritten when the
    text begins with [url(]; the same reference is rewritten when the text
    begins otherwise. *)
Lemma replaceReferences_later_url_unprocessed :
  replaceReferences (H := Sample.runtime) 9 Ex.media_png (Some Ex.base)
    (str "url(a.png) b url(a.png)")
  = Ret (str "url(a.png) b url(a.png)")
  ∧ replaceReferences (H := Sample.runtime) 9 Ex.media_png (Some Ex.base)
      (str " b url(a.png)")
    = Ret (str " b url('data:image/png;base64,QUJD')").
Proof. split; vm_compute; reflexivity. Qed.

(** ** [convertAssetToDataURI] *)

Section DataURI.
Context `{Runtime}.

(** C6. The data URI of an asset, by its transfer encoding: the escaped
    decoded data after [;utf8,] for quoted-printable, the stored data as
    it is after [;base64,] for base64, the base64 form of the stored data
    after [;base64,] for any other. A decoder or encoder that throws
    makes the conversion throw. *)
Theorem convertAssetToDataURI_cases (a : asset) :
  (encoding a = str "quoted-printable" →
   convertAssetToDataURI a =
     (λ decoded, str "data:" ++ type a ++ str ";utf8," ++ escape decoded)
     <$> lift QuotedPrintableError (QuotedPrintable_decode (data a)))
  ∧ (encoding a = str "base64" →
     convertAssetToDataURI a =
       Ret (str "data:" ++ type a ++ str ";base64," ++ data a))
  ∧ (encoding a ≠ str "quoted-printable" → encoding a ≠ str "base64" →
     convertAssetToDataURI a =
       (λ b64, str "data:" ++ type a ++ str ";base64," ++ b64)
       <$> lift Base64Error (Base64_encode (data a))).
Proof.
  unfold convertAssetToDataURI. split_and!.
  - intros ->. rewrite bool_decide_eq_true_2 by done.
    by destruct (QuotedPrintable_decode (data a)).
  - intros ->. rewrite bool_decide_eq_false_2 by (by vm_compute).
    by rewrite bool_decide_eq_true_2.
  - intros ??. rewrite !bool_decide_eq_false_2 by done.
    by destruct (Base64_encode (data a)).
Qed.

End DataURI.

(** C6, witness: one asset of each kind. *)
Lemma convertAssetToDataURI_cases_witness :
  convertAssetToDataURI (H := Sample.runtime)
    {| encoding := str "quoted-printable"; type := str "text/plain";
       data := str "a=3Db c"; id := None |}
  = Ret (str "data:text/plain;utf8,a%3Db%20c")
  ∧ convertAssetToDataURI (H := Sample.runtime) Ex.png
    = Ret (str "data:image/png;base64,QUJD")
  ∧ convertAssetToDataURI (H := Sample.runtime)
      {| encoding := str "7bit"; type := str "text/plain";
         data := str "ABC"; id := None |}
    = Ret (str "data:text/plain;base64,QUJD").
Proof.
  split_and!.
  - rewrite (proj1 (convertAssetToDataURI_cases (H := Sample.runtime) _));
      reflexivity.
  - rewrite (proj1 (proj2 (convertAssetToDataURI_cases
                             (H := Sample.runtime) _))); reflexivity.
  - rewrite (proj2 (proj2 (convertAssetToDataURI_cases
                             (H := Sample.runtime) _)));
      [reflexivity | by vm_compute | by vm_compute].
Defined.

(** ** [findAsset] *)

Section Keys.
Context {V : Type}.
Implicit Types (o : jsobj V) (k : jsstring).






End Keys.

Section FindAsset.
Context `{Runtime}.
Implicit Types (media : jsobj asset) (base ref : jsstring).







End FindAsset.


(** ** The text rewriter: where the scan resumes *)

Section Cursor.
Context `{Runtime}.

Lemma indexOf_found pat s from :
  (0 ≤ indexOf pat s from)%Z →
  ∃ j, indexOf pat s from = Z.of_nat j
       ∧ j + length pat ≤ length s
       ∧ startsWith pat (drop j s) = true.
Proof.
  unfold indexOf.
  assert (clamp s from ≤ length s) as Hc by (unfold clamp, len; lia).
  set (k := clamp s from) in *.
  destruct (search pat (drop k s) k) as [j|] eqn:E; [|lia].
  intros _. exists j. apply search_Some in E as (Hk & Hb & Hp & _).
  rewrite drop_drop in Hp. replace (k + (j - k)) with j in Hp by lia.
  split_and!; [done| |done].
  apply startsWith_spec in Hp as [r Hr].
  apply (f_equal length) in Hr. rewrite length_drop, length_app in Hr.
  rewrite length_drop in Hb. lia.
Qed.

(** A search that starts at [a] and finds nothing before [b] finds what a
    search that starts at [b] finds. *)
Lemma indexOf_skip pat s (a b : nat) :
  a ≤ b → b ≤ length s →
  (∀ k, a ≤ k < b → startsWith pat (drop k s) = false) →
  indexOf pat s (Z.of_nat a) = indexOf pat s (Z.of_nat b).
Proof.
  intros ?? Hno. rewrite !indexOf_of_nat by lia.
  rewrite (search_skip pat (drop a s) a (b - a)).
  - rewrite drop_drop. by replace (a + (b - a)) with b by lia.
  - intros m ?. rewrite drop_drop. apply Hno. lia.
Qed.

(** C7 (amended). After a substitution the loop goes on in the rewritten
    text with its cursor moved by the length of the original reference,
    counted from the start of the inserted data URI. So the scan resumes
    inside the inserted URI when the URI is longer than the reference,
    and past its end when it is shorter. In the first case the next
    [url(] found is the one a scan from the byte after the URI would
    find, provided no [url(] begins in the part of the URI that is
    scanned again. *)
Theorem replaceReferences_resumes fuel media base css i0 path entry
    assetData b64 :
  let i := (indexOf CSS_URL_RULE css i0 + len CSS_URL_RULE)%Z in
  let reference := substring css i (indexOf (str ")") css i) in
  let embeddedAsset :=
    str "'data:" ++ type entry ++ str ";base64," ++ b64 ++ str "'" in
  let css' := substring css 0 i ++ embeddedAsset
              ++ substring css (i + len reference) (len css) in
  (0 < indexOf CSS_URL_RULE css i0)%Z →
  findAsset media base reference = Ret (Some (path, Own entry)) →
  (if bool_decide (type entry = str "text/css")
   then processCSS fuel media (Some path)
   else Some <$> decoded_data entry) = Ret assetData →
  Base64_encode (default (str "null") assetData) = Some b64 →
  replaceReferences_from (S fuel) media base css i0
  = replaceReferences_from fuel media base css' (i + len reference)
  ∧ substring css' i (i + len embeddedAsset) = embeddedAsset
  ∧ ((len reference ≤ len embeddedAsset)%Z →
     (∀ k, (i + len reference ≤ k < i + len embeddedAsset)%Z →
           startsWith CSS_URL_RULE (drop (Z.to_nat k) css') = false) →
     indexOf CSS_URL_RULE css' (i + len reference)
     = indexOf CSS_URL_RULE css' (i + len embeddedAsset)).
Proof.
  intros i reference embeddedAsset css' Hpos Hfound Hdata Hb64.
  destruct (indexOf_found CSS_URL_RULE css i0) as (j & Hj & Hlen & _);
    [lia|].
  assert (i = Z.of_nat (j + 4)) as Hi.
  { unfold i. rewrite Hj. change (len CSS_URL_RULE) with 4%Z. lia. }
  change (length CSS_URL_RULE) with 4 in Hlen.
  assert (length css' = (j + 4) + length embeddedAsset
                        + length (substring css (i + len reference) (len css)))
    as Hlen'.
  { unfold css'. rewrite Hi, substring_0 by lia.
    rewrite !length_app, length_take. lia. }
  split_and!.
  - cbn [replaceReferences_from].
    destruct (0 <? indexOf CSS_URL_RULE css i0)%Z eqn:E; [|lia].
    fold i. fold reference. rewrite Hfound. cbn [mbind res_bind].
    unfold processCSS, replaceReferences in Hdata. rewrite Hdata.
    cbn [mbind res_bind]. by rewrite Hb64.
  - replace (i + len embeddedAsset)%Z
      with (Z.of_nat (j + 4 + length embeddedAsset))
      by (unfold len; lia).
    rewrite Hi, substring_of_nat by lia.
    unfold css'. rewrite Hi, substring_0 by lia.
    rewrite drop_app_length'
      by (rewrite length_take; lia).
    replace (j + 4 + length embeddedAsset - (j + 4))
      with (length embeddedAsset) by lia.
    by rewrite take_app_length.
  - intros Hle Hno.
    replace (i + len reference)%Z
      with (Z.of_nat (j + 4 + length reference)) by (unfold len; lia).
    replace (i + len embeddedAsset)%Z
      with (Z.of_nat (j + 4 + length embeddedAsset)) by (unfold len; lia).
    apply indexOf_skip; [unfold len in Hle; lia | lia |].
    intros k Hk. specialize (Hno (Z.of_nat k)).
    rewrite Nat2Z.id in Hno. apply Hno. unfold len. lia.
Qed.

End Cursor.

(** C7, witness: a reference of five characters replaced by a data URI of
    thirty; the scan resumes five characters into the URI. *)
Lemma replaceReferences_resumes_witness :
  replaceReferences_from (H := Sample.runtime) 3 Ex.media_png (Some Ex.base)
    (str "a url(a.png) b") 0
  = replaceReferences_from (H := Sample.runtime) 2 Ex.media_png
      (Some Ex.base) (str "a url('data:image/png;base64,QUJD') b") 11
  ∧ indexOf CSS_URL_RULE (str "a url('data:image/png;base64,QUJD') b") 11
    = indexOf CSS_URL_RULE (str "a url('data:image/png;base64,QUJD') b") 36.
Proof.
  pose proof (replaceReferences_resumes (H := Sample.runtime) 2
                Ex.media_png (Some Ex.base) (str "a url(a.png) b") 0
                (str "http://e.com/a.png") Ex.png (Some (str "ABC"))
                (str "QUJD")) as Hw.
  cbv zeta in Hw.
  destruct Hw as (Hloop & _ & Hnext); try reflexivity.
  split; [exact Hloop|].
  apply Hnext; [by vm_compute|].
  intros k Hk.
  match type of Hk with
  | (?a ≤ _ < ?b)%Z =>
      let a' := eval vm_compute in a in
      let b' := eval vm_compute in b in
      change a with a' in Hk; change b with b' in Hk
  end.
  assert (∃ n, k = Z.of_nat n ∧ 11 ≤ n < 36) as (n & -> & Hn)
    by (exists (Z.to_nat k); lia).
  rewrite Nat2Z.id.
  do 11 (destruct n as [|n]; [lia|]).
  do 25 (destruct n as [|n]; [reflexivity|]). lia.
Defined.

(** C7, counterexample to the claim as stated. First text: the data URI
    is shorter than the reference it replaces, the cursor lands beyond
    the second reference, which stands after the inserted URI and
    resolves, and the second reference is never rewritten. Second text:
    the data URI is longer than the reference, the scan resumes inside it
    and rewrites the [url(] token of its content type. *)
Lemma replaceReferences_not_after_insertion :
  replaceReferences (H := Sample.runtime) 9 Ex3.media_long (Some Ex.base)
    (str "p{a:url(http://e.com/some/long/path/tiny.x);b:url(a.png)}")
  = Ret (str "p{a:url('data:a/b;base64,');b:url(a.png)}")
  ∧ replaceReferences (H := Sample.runtime) 9 Ex3.media_long (Some Ex.base)
      (str "p{b:url(a.png)}")
    = Ret (str "p{b:url('data:image/png;base64,QUJD')}")
  ∧ replaceReferences (H := Sample.runtime) 9 Ex3.media_odd (Some Ex.base)
      (str "p{a:url(u)}")
    = Ret (str "p{a:url('data:x/url('data:image/png;base64,QUJD');base64,QUJD')}").
Proof. split_and!; vm_compute; reflexivity. Qed.

(** ** [parse]: what the tables hold *)

Section ParseTables.
Context `{Runtime}.

Lemma same_but_data_refl r heap : same_but_data r heap heap.
Proof. by split. Qed.

Lemma same_but_data_trans r h1 h2 h3 :
  same_but_data r h1 h2 → same_but_data r h2 h3 → same_but_data r h1 h3.
Proof.
  intros [L1 H1] [L2 H2]. split; [congruence|]. intros k.
  destruct (H1 k) as [A1 B1], (H2 k) as [A2 B2]. split.
  - intros ?. by rewrite A2, A1.
  - by rewrite B2, B1.
Qed.

Lemma same_but_data_alter (f : asset → asset) r heap :
  (∀ a, id (f a) = id a) → same_but_data r heap (alter f r heap).
Proof.
  intros Hf. split; [by rewrite length_alter|]. intros k. split.
  - intros ?. by rewrite list_lookup_alter_ne.
  - destruct (decide (k = r)) as [->|].
    + rewrite list_lookup_alter_eq. destruct (heap !! r); simpl; [|done].
      by rewrite Hf.
    + by rewrite list_lookup_alter_ne.
Qed.

Lemma data_loop_same_but_data fuel mhtml enc boundary r heap next i l
    heap' i' l' :
  data_loop fuel mhtml enc boundary r heap next i l = Ret (heap', i', l') →
  same_but_data r heap heap'.
Proof.
  revert heap next i l. induction fuel as [|fuel IH]; intros heap next i l;
    simpl; case_match; try done.
  - intros [= <- _ _]. apply same_but_data_refl.
  - intros [= <- _ _]. apply same_but_data_refl.
  - intros Hl. bind_inv Hl. destruct a as [[next' i1] l1].
    eapply same_but_data_trans; [|by eapply IH].
    by apply same_but_data_alter.
Qed.

Lemma decode_unicode_id (a : asset) : id (decode_unicode a) = id a.
Proof. unfold decode_unicode. by case_match. Qed.

(** What the table of [media] holds after the registration of the part
    [r] under the location [u]. *)
Lemma get_register (m : jsobj nat) u r k x :
  get (match read m u with Undefined => set m u r | _ => m end) k = Some x
  ↔ get m k = Some x
    ∨ (k = u ∧ get m u = None ∧ (u ∉ Object_prototype) ∧ x = r).
Proof.
  destruct (read m u) eqn:E.
  - apply read_Undefined in E as [Hu Hp].
    destruct (decide (u = k)) as [->|].
    + rewrite get_set_eq, Hu. split; [intros [= <-]; by right|].
      by intros [?|(_ & _ & _ & ->)].
    + rewrite get_set_ne by done. split; [by left|].
      by intros [?|(-> & _)].
  - apply read_Own in E. split; [by left|].
    intros [?|(-> & Hn & _)]; [done|congruence].
  - apply read_Inherited in E as [_ Hp]. split; [by left|].
    by intros [?|(-> & _ & ? & _)].
Qed.

Lemma tables_ok_initial : tables_ok initial.
Proof. by split. Qed.

(** A round that leaves the tables alone and neither enters nor leaves
    the data state keeps the invariant. *)
Lemma tables_ok_same s s' :
  tables_ok s →
  s_media s' = s_media s → s_frames s' = s_frames s →
  s_heap s' = s_heap s → s_locations s' = s_locations s →
  s_bodies s' = s_bodies s →
  s_state s ≠ MHTML_DATA → s_state s' ≠ MHTML_DATA →
  tables_ok s'.
Proof.
  intros [] Hm Hf Hh Hl Hb Hs Hs'.
  split; rewrite ?Hm, ?Hf, ?Hh, ?Hl, ?Hb; try done.
  by destruct (decide (s_state s = _)), (decide (s_state s' = _)).
Qed.

Lemma step_tables_ok mhtml htmlOnly s s' :
  tables_ok s → step mhtml htmlOnly s = Ret (inl s') → tables_ok s'.
Proof.
  intros Hok. unfold step. destruct (s_state s) eqn:Hst.
  - (* headers *)
    intros Hs. bind_inv Hs. destruct a as [[next i] l].
    destruct (is_header_line next).
    + bind_inv Hs. destruct a as [key headers]. injection Hs as <-.
      apply (tables_ok_same s); simpl; by rewrite ?Hst.
    + do 3 (bind_inv Hs). destruct a1 as [i1 l1].
      bind_inv Hs. destruct a1 as [[next2 i2] l2]. bind_inv Hs.
      injection Hs as <-.
      apply (tables_ok_same s); simpl; by rewrite ?Hst.
  - (* part headers *)
    intros Hs. bind_inv Hs. destruct a as [[next i] l].
    destruct (is_header_line next).
    { bind_inv Hs. destruct a as [key content]. injection Hs as <-.
      apply (tables_ok_same s); simpl; by rewrite ?Hst. }
    set (location := get (s_content s) (str "Content-Location")) in *.
    set (pid := get (s_content s) (str "Content-ID")) in *.
    do 4 (bind_inv Hs). rename a into index, a1 into enc, a2 into ty.
    bind_inv Hs. destruct a as [i1 l1]. injection Hs as <-.
    destruct Hok as [Hloc Hmr Hfr Hmf Hma Hmo Hfl Hfa Hb Hbl].
    rewrite Hst in Hbl. simpl in Hbl.
    split; simpl.
    + rewrite !length_app. simpl. lia.
    + rewrite length_app. simpl.
      assert (Forall (λ kr, kr.2 < length (s_heap s) + 1) (s_media s)).
      { eapply Forall_impl; [done|]. simpl. lia. }
      destruct location as [u|]; [|done].
      destruct (read (s_media s) u); [|done..].
      apply (Forall_set (λ r, r < length (s_heap s) + 1)); [done|lia].
    + rewrite length_app. simpl.
      assert (Forall (λ kr, kr.2 < length (s_heap s) + 1) (s_frames s)).
      { eapply Forall_impl; [done|]. simpl. lia. }
      destruct pid; [|done].
      apply (Forall_set (λ r, r < length (s_heap s) + 1)); [done|lia].
    + intros u r Hget.
      assert (get (s_media s) u = Some r
              ∨ (location = Some u ∧ get (s_media s) u = None
                 ∧ (u ∉ Object_prototype)
                 ∧ r = length (s_heap s))) as [Hold|(Hu & Hnone & Hown & ->)].
      { destruct location as [u'|]; [|by left].
        apply get_register in Hget as [?|(-> & ? & ? & ->)]; [by left|].
        by right. }
      * destruct (Hmf _ _ Hold) as [H1 H2].
        assert (r < length (s_locations s))
          by (by eapply lookup_lt_Some).
        split.
        -- by rewrite lookup_app_l.
        -- intros j ?. rewrite lookup_app_l by lia. by apply H2.
      * split.
        -- rewrite lookup_app_r by lia. rewrite Hloc, Nat.sub_diag.
           simpl. by rewrite Hu.
        -- intros j ?. rewrite lookup_app_l by lia. intros Hj.
           apply Hma in Hj as [? Hj]; [|done]. by rewrite Hnone in Hj.
    + intros u k Hk Hown.
      assert (is_Some (get (s_media s) u) ∨ location = Some u) as [Hold|Hu].
      { destruct (decide (k < length (s_locations s))).
        - rewrite lookup_app_l in Hk by done. left. by eapply Hma.
        - right. rewrite lookup_app_r in Hk by lia.
          destruct (k - length (s_locations s)); by simplify_eq/=. }
      * destruct Hold as [x Hx]. destruct location as [u'|]; [|by eexists].
        exists x. apply get_register. by left.
      * rewrite Hu. destruct (get (s_media s) u) as [x|] eqn:E.
        -- exists x. apply get_register. by left.
        -- eexists. apply get_register. by right.
    + intros u r Hget. destruct location as [u'|]; [|by eapply Hmo].
      apply get_register in Hget as [?|(-> & _ & ? & _)]; [by eapply Hmo|done].
    + intros j r Hget.
      assert ((get (s_frames s) j = Some r ∧ pid ≠ Some j)
              ∨ (pid = Some j ∧ r = length (s_heap s)))
        as [[Hold Hne]|[Hj ->]].
      { destruct pid as [j'|]; [|by left].
        destruct (decide (j' = j)) as [->|].
        - rewrite get_set_eq in Hget. injection Hget as <-. by right.
        - rewrite get_set_ne in Hget by done. left. split; [done|].
          by intros [= ->]. }
      * destruct (Hfl _ _ Hold) as [H1 H2].
        assert (r < length (s_heap s)).
        { apply lookup_lt_is_Some. by destruct (s_heap s !! r). }
        split; [by rewrite lookup_app_l|].
        intros k ?. destruct (decide (k < length (s_heap s))).
        -- rewrite lookup_app_l by done. by apply H2.
        -- rewrite lookup_app_r by lia.
           destruct (k - length (s_heap s)); simpl; congruence.
      * split.
        -- rewrite lookup_app_r by lia. rewrite Nat.sub_diag. simpl.
           by rewrite Hj.
        -- intros k ?. rewrite lookup_app_r by lia.
           by destruct (k - length (s_heap s)) eqn:?; [lia|].
    + intros j k Hk.
      assert (is_Some (get (s_frames s) j) ∨ pid = Some j) as [Hold|Hj].
      { destruct (decide (k < length (s_heap s))).
        - rewrite lookup_app_l in Hk by done. left. by eapply Hfa.
        - right. rewrite lookup_app_r in Hk by lia.
          destruct (k - length (s_heap s)); by simplify_eq/=. }
      * destruct pid as [j'|]; [|done].
        destruct (decide (j' = j)) as [->|];
          [by rewrite get_set_eq|by rewrite get_set_ne].
      * rewrite Hj. by rewrite get_set_eq.
    + intros k b Hk. specialize (Hb _ _ Hk).
      rewrite lookup_app_l; [done|].
      rewrite <-Hbl. by eapply lookup_lt_Some.
    + rewrite length_app. simpl. split; [lia|]. by rewrite Hbl.
  - (* data *)
    intros Hs. bind_inv Hs. rename a into r. apply lift_Ret in Ha.
    bind_inv Hs. destruct a as [[next i] l].
    bind_inv Hs. destruct a as [[heap1 i1] l1].
    apply data_loop_same_but_data in Ha1.
    destruct (htmlOnly && _); [by simplify_eq|]. injection Hs as <-.
    destruct Hok as [Hloc Hmr Hfr Hmf Hma Hmo Hfl Hfa Hb Hbl].
    rewrite Hst in Hbl. simpl in Hbl. destruct Hbl as [Hbl Hr].
    assert (r = length (s_bodies s)) as -> by congruence.
    set (r := length (s_bodies s)) in *.
    assert (same_but_data r (s_heap s) (alter decode_unicode r heap1))
      as [Hlen Hsame].
    { eapply same_but_data_trans; [done|].
      apply same_but_data_alter, decode_unicode_id. }
    set (heap' := alter decode_unicode r heap1) in *.
    split; simpl; rewrite ?Hlen; try done.
    + intros j k Hg. destruct (Hfl _ _ Hg) as [H1 H2]. split.
      * by rewrite (proj2 (Hsame _)).
      * intros k' ?. rewrite (proj2 (Hsame _)). by apply H2.
    + intros j k. rewrite (proj2 (Hsame _)). apply Hfa.
    + intros k b Hk. destruct (decide (k < r)).
      * rewrite lookup_app_l in Hk by done.
        rewrite (proj1 (Hsame k)) by lia. by apply Hb.
      * rewrite lookup_app_r in Hk by (unfold r in *; lia).
        destruct (k - length (s_bodies s)) as [|?] eqn:E; [|done].
        assert (k = r) as -> by (unfold r in *; lia).
        simpl in Hk. injection Hk as <-.
        destruct (lookup_lt_is_Some_2 heap' r) as [a Ha']; [lia|].
        by rewrite Ha'.
    + rewrite length_app. simpl.
      destruct (len mhtml - 1 <=? Z.of_nat i1)%Z;
        (case_decide; [done|]); unfold r in *; lia.
  - intros [= <-]. done.
Qed.

End ParseTables.

Section ParseResult.
Context `{Runtime}.

Lemma parse_loop_tables_ok fuel mhtml htmlOnly s s' :
  tables_ok s → parse_loop fuel mhtml htmlOnly s = Ret (inl s') →
  tables_ok s' ∧ s_state s' = MHTML_END.
Proof.
  revert s. induction fuel as [|fuel IH]; intros s Hok; simpl;
    case_bool_decide; try done.
  - by intros [= <-].
  - by intros [= <-].
  - intros Hl. bind_inv Hl. destruct a as [s1|html]; [|done].
    eapply IH; [|done]. by eapply step_tables_ok.
Qed.

Lemma parse_run_tables_ok mhtml htmlOnly s :
  parse_run mhtml htmlOnly = Ret (inl s) →
  tables_ok s ∧ s_state s = MHTML_END.
Proof. apply parse_loop_tables_ok, tables_ok_initial. Qed.


(** C9. In the archive [parse] returns, [frames] maps an identifier to
    the asset of the last part that carries it as its [Content-ID]: each
    later occurrence takes the place of the earlier one. *)
Theorem parse_frames_last_wins mhtml htmlOnly s i k a :
  parse_run mhtml htmlOnly = Ret (inl s) →
  s_heap s !! k = Some a → id a = Some i →
  (∀ j a', k < j → s_heap s !! j = Some a' → id a' ≠ Some i) →
  get (s_frames s) i = Some k
  ∧ get (frames (archive_of s)) i = Some a.
Proof.
  intros [Hok Hend]%parse_run_tables_ok Hk Hid Hlast.
  destruct Hok as [Hloc Hmr Hfr Hmf Hma Hmo Hfl Hfa Hb Hbl].
  destruct (Hfa i k) as [r Hr]; [by rewrite Hk; simpl; rewrite Hid|].
  destruct (Hfl _ _ Hr) as [Hr1 Hr2].
  assert (r = k) as ->.
  { destruct (Nat.lt_trichotomy r k) as [?|[?|?]]; [|done|].
    - destruct (Hr2 k); [done|]. by rewrite Hk; simpl; rewrite Hid.
    - destruct (s_heap s !! r) as [a'|] eqn:E; [|done].
      destruct (Hlast r a'); [done..|]. by injection Hr1. }
  split; [done|].
  simpl. rewrite get_deref by done. by rewrite Hr.
Qed.

End ParseResult.


(** C9, witness: the second and the third part of [Ex4.twice] carry the
    identifier [<x>]; [frames] holds the third, whose body is the line
    [two]. *)
Lemma parse_frames_last_wins_witness :
  get (s_frames (Ex4.final (Ex4.twice LF))) (str "<x>") = Some 2
  ∧ get (frames (archive_of (Ex4.final (Ex4.twice LF)))) (str "<x>")
    = Some {| encoding := str "7bit"; type := str "text/plain";
              data := str "two" ++ LF; id := Some (str "<x>") |}.
Proof.
  apply (parse_frames_last_wins (H := Sample.runtime) (Ex4.twice LF)
           false).
  - vm_compute. reflexivity.
  - vm_compute. reflexivity.
  - reflexivity.
  - intros j a' Hj Ha'. apply lookup_lt_Some in Ha'.
    vm_compute in Ha'. lia.
Defined.

(** ** [parse]: line endings *)

Section Trim.
Implicit Types (s w : jsstring).







End Trim.

Section Lines.
Context `{Runtime}.
Implicit Types (line pre post w : jsstring).










End Lines.



(** ** [parse] and the base64 codec *)

Section Codec.







End Codec.



(* ================================================================== *)
(** ** Which runs end in an error of [assert] *)
(* ================================================================== *)

Section Asserted.
Context `{Runtime}.

Lemma quiet_Ret {A} (a : A) : ¬ asserted (Ret a).
Proof. by intros [m Hm]. Qed.

Lemma quiet_mret {A} (a : A) : ¬ asserted (mret a : res A).
Proof. by intros [m Hm]. Qed.

Lemma quiet_Throw {A} (e : exn) :
  (∀ m, e ≠ Error m) → ¬ asserted (Throw e : res A).
Proof. intros He [m Hm]. simplify_eq. by eapply He. Qed.

Lemma quiet_lift {A} (e : exn) (o : option A) :
  (∀ m, e ≠ Error m) → ¬ asserted (lift e o).
Proof.
  intros He. destruct o; [apply quiet_Ret | by apply quiet_Throw].
Qed.

Lemma quiet_bind {A B} (m : res A) (f : A → res B) :
  ¬ asserted m → (∀ a, m = Ret a → ¬ asserted (f a)) →
  ¬ asserted (m ≫= f).
Proof.
  intros Hm Hf. destruct m as [a|e]; [by apply Hf|].
  intros [msg Hmsg]. apply Hm. exists msg. cbn in Hmsg. by simplify_eq.
Qed.

Lemma quiet_fmap {A B} (g : A → B) (m : res A) :
  ¬ asserted m → ¬ asserted (g <$> m).
Proof.
  intros Hm [msg Hmsg]. apply Hm. exists msg.
  by destruct m; simplify_eq/=.
Qed.

Lemma quiet_absoluteURL base relative :
  ¬ asserted (absoluteURL base relative).
Proof.
  unfold absoluteURL. case_match; [apply quiet_Ret|].
  apply quiet_bind; [by apply quiet_lift|]. intros; apply quiet_mret.
Qed.

Lemma quiet_findAsset media base reference :
  ¬ asserted (findAsset media base reference).
Proof.
  unfold findAsset. case_match; [apply quiet_Ret|].
  apply quiet_bind; [apply quiet_absoluteURL|]. intros a _.
  repeat case_match; apply quiet_Ret.
Qed.

Lemma quiet_decoded_data entry : ¬ asserted (decoded_data entry).
Proof.
  unfold decoded_data. case_match; [by apply quiet_lift|apply quiet_Ret].
Qed.

Lemma quiet_processCSS_with replace media path :
  (∀ m b c, ¬ asserted (replace m b c)) →
  ¬ asserted (processCSS_with replace media path).
Proof.
  intros Hr. unfold processCSS_with.
  repeat case_match; try apply quiet_Ret.
  apply quiet_bind; [apply quiet_decoded_data|]. intros.
  by apply quiet_fmap.
Qed.

Lemma quiet_replaceReferences_from fuel media base css i :
  ¬ asserted (replaceReferences_from fuel media base css i).
Proof.
  revert media base css i.
  induction fuel as [|fuel IH]; intros media base css i.
  { by apply quiet_Throw. }
  cbn [replaceReferences_from]. case_match; [|apply quiet_Ret].
  apply quiet_bind; [apply quiet_findAsset|]. intros found _.
  apply quiet_bind; [|intros; apply IH].
  destruct found as [[path [|entry|]]|];
    try (destruct (Base64_encode _); apply quiet_Ret); [|apply quiet_Ret].
  apply quiet_bind.
  - case_match.
    + apply quiet_processCSS_with. intros; apply IH.
    + apply quiet_fmap, quiet_decoded_data.
  - intros. destruct (Base64_encode _); apply quiet_Ret.
Qed.

Lemma quiet_replaceReferences fuel media base css :
  ¬ asserted (replaceReferences fuel media base css).
Proof. apply quiet_replaceReferences_from. Qed.

Lemma quiet_processCSS fuel media path :
  ¬ asserted (processCSS fuel media path).
Proof.
  apply quiet_processCSS_with. intros. apply quiet_replaceReferences.
Qed.

Lemma quiet_updateInlineStyle fuel s element media base :
  ¬ asserted (updateInlineStyle fuel s element media base).
Proof.
  unfold updateInlineStyle.
  destruct (if is_element _ _ then _ else _); [|apply quiet_Ret].
  case_bool_decide; [|apply quiet_Ret].
  apply quiet_bind; [apply quiet_replaceReferences|].
  intros; apply quiet_mret.
Qed.

Lemma quiet_cloneNode fuel s n : ¬ asserted (cloneNode fuel s n).
Proof.
  revert s n.
  induction fuel as [|fuel IH]; intros s n; [by apply quiet_Throw|].
  cbn [cloneNode]. apply quiet_bind; [by apply quiet_lift|]. intros nd _.
  apply quiet_bind.
  - generalize (childNodes nd). intros ks. revert s.
    induction ks as [|k ks IHks]; intros s; [apply quiet_Ret|].
    apply quiet_bind; [apply IH|]. intros [s1 k'] _.
    apply quiet_bind; [apply IHks|]. intros [s2 ks'] _. apply quiet_mret.
  - intros [s1 c] _. apply quiet_bind.
    + destruct (content nd); [|apply quiet_Ret].
      apply quiet_bind; [apply IH|]. intros [] _; apply quiet_mret.
    + intros [] _. apply quiet_mret.
Qed.

Lemma quiet_clone_content fuel s ns : ¬ asserted (clone_content fuel s ns).
Proof.
  revert s. induction ns as [|n ns IH]; intros s; [apply quiet_Ret|].
  cbn [clone_content]. case_bool_decide; [apply IH|].
  apply quiet_bind; [apply quiet_cloneNode|]. intros [s1 n'] _.
  apply quiet_bind; [apply IH|]. intros [s2 ns'] _. apply quiet_mret.
Qed.

Context `{DOMProvider}.

Lemma quiet_processDeclarativeShadowDOM fuel s element :
  ¬ asserted (processDeclarativeShadowDOM fuel s element).
Proof.
  unfold processDeclarativeShadowDOM.
  destruct (filter _ _); [apply quiet_Ret|].
  apply quiet_bind; [|intros; apply quiet_mret].
  destruct (_ || _); [apply quiet_Ret|].
  apply quiet_bind; [apply quiet_clone_content|].
  intros [] _. apply quiet_mret.
Qed.

(** The callback throws no error of [assert] when the recursive call
    for a frame whose type is [text/html] throws none. *)
Lemma quiet_visit fuel recur convertIframes frames media index
    childNode child s href src :
  (∀ f m i, valid_index m i = true →
            ¬ asserted (recur (Some f) (Some m) (Some i))) →
  ¬ asserted (visit fuel recur convertIframes frames media index
                childNode child s href src).
Proof.
  intros Hrecur. unfold visit.
  destruct (if is_element s child then _ else _) as [href' src'].
  apply quiet_bind.
  { destruct (_ && _);
      [apply quiet_processDeclarativeShadowDOM | apply quiet_Ret]. }
  intros s1 _. apply quiet_bind; [|intros; apply quiet_mret].
  destruct (tag s1 child) as [tagName|];
    [|apply quiet_updateInlineStyle].
  case_bool_decide; [apply quiet_Ret|].
  case_bool_decide.
  { destruct (_ && _); [|apply quiet_Ret].
    apply quiet_bind; [apply quiet_processCSS|]. intros; apply quiet_Ret. }
  case_bool_decide.
  { apply quiet_bind; [apply quiet_replaceReferences|].
    intros; apply quiet_Ret. }
  case_bool_decide.
  { apply quiet_bind; [|intros; apply quiet_updateInlineStyle].
    destruct (read media _); repeat case_match;
      try apply quiet_Ret; by apply quiet_Throw. }
  case_bool_decide; [|apply quiet_updateInlineStyle].
  destruct src' as [src'|]; [|apply quiet_Ret].
  destruct (_ && _); [|apply quiet_Ret].
  destruct (read frames _) as [|frame|] eqn:Hframe;
    [apply quiet_Ret| |apply quiet_Ret].
  case_bool_decide as Htype; [|apply quiet_Ret].
  apply quiet_bind.
  { apply Hrecur. unfold valid_index, assign.
    apply bool_decide_eq_true_2.
    rewrite type_of_read, get_set_eq. simpl. by rewrite Htype. }
  intros iframe _. apply quiet_bind; [by apply quiet_lift|].
  intros; apply quiet_mret.
Qed.

Lemma quiet_walk fuel callback w :
  (∀ p c s h sr, ¬ asserted (callback p c s h sr)) →
  ¬ asserted (walk fuel callback w).
Proof.
  intros Hcb. revert w. induction fuel as [|fuel IH]; intros w.
  { cbn [walk]. destruct (w_cur w) as [[]|], (w_nodes w);
      (apply quiet_Ret || by apply quiet_Throw). }
  cbn [walk]. destruct (w_cur w) as [[p k]|] eqn:Hcur.
  - assert (¬ asserted
      (match kids (w_store w) p !! k with
       | Some child =>
           '(s, href, src) ←
             callback p child (w_store w) (w_href w) (w_src w);
           walk fuel callback
             {| w_store := s; w_nodes := w_nodes w ++ [child];
                w_cur := Some (p, S k); w_href := href; w_src := src |}
       | None =>
           walk fuel callback
             {| w_store := w_store w; w_nodes := w_nodes w;
                w_cur := None; w_href := w_href w; w_src := w_src w |}
       end)) as Hstep.
    { destruct (_ !! k); [|apply IH].
      apply quiet_bind; [apply Hcb|]. intros [[s h] sr] _. apply IH. }
    by destruct (w_nodes w).
  - destruct (w_nodes w); [apply quiet_Ret | apply IH].
Qed.

Lemma convert_object_unfold fuel convertIframes frames media index :
  convert_object fuel convertIframes
    (Some frames) (Some media) (Some index)
  = (_ ← assert (valid_index media index) InvalidIndex;
     dom ← lift DOMProviderError
             (parseDOM
                (replace_ci (str "shadowmode=") (str "data-shadowmode=")
                   (replace_ci (str "shadowrootmode=")
                      (str "data-shadowrootmode=")
                      (default [] (data <$> get media index)))));
     s ← walk fuel
           (visit fuel
              match fuel with
              | O => λ _ _ _, Throw OutOfFuel
              | S fuel => convert_object fuel convertIframes
              end convertIframes frames media index)
           {| w_store := d_store dom; w_nodes := [d_document dom];
              w_cur := None; w_href := None; w_src := None |};
     Ret {| d_store := s; d_document := d_document dom |}).
Proof. by destruct fuel. Qed.

Lemma quiet_convert_object fuel convertIframes frames media index :
  valid_index media index = true →
  ¬ asserted (convert_object fuel convertIframes
                (Some frames) (Some media) (Some index)).
Proof.
  revert frames media index.
  induction fuel as [|fuel IH]; intros frames media index Hvalid;
    rewrite convert_object_unfold, Hvalid;
    (apply quiet_bind; [apply quiet_Ret|]; intros _ _);
    (apply quiet_bind; [by apply quiet_lift|]; intros dom _);
    (apply quiet_bind; [|intros; apply quiet_mret]);
    apply quiet_walk; intros; apply quiet_visit; intros.
  - simpl. by apply quiet_Throw.
  - by apply IH.
Qed.
End Asserted.

Section InvalidArchive.
Context `{Runtime} `{DOMProvider}.

Lemma I1_valid_index (A : archive) :
  I1 A ↔ ∃ idx, index A = Some idx ∧ valid_index (media A) idx = true.
Proof.
  unfold I1, valid_index. split.
  - intros (idx & entry & Hidx & Hget & Htype). exists idx.
    split; [done|]. apply bool_decide_eq_true_2.
    rewrite type_of_read, Hget. simpl. by rewrite Htype.
  - intros (idx & Hidx & Hvalid).
    apply bool_decide_eq_true_1 in Hvalid. rewrite type_of_read in Hvalid.
    destruct (get (media A) idx) as [entry|] eqn:Hget; [|done].
    exists idx, entry. by simplify_eq/=.
Qed.

(** C1: for a parsed archive [A] and any options, [convert] ends in an
    error of [assert] exactly when [A] violates I1; it then throws
    [MHTML error: invalid index], so that no DOM is returned. *)
Theorem convert_invalid_archive fuel convertIframes (A : archive) :
  (asserted (convert fuel convertIframes (of_archive A)) ↔ ¬ I1 A)
  ∧ (¬ I1 A →
     convert fuel convertIframes (of_archive A)
     = Throw (Error InvalidIndex)).
Proof.
  assert (¬ I1 A →
          convert fuel convertIframes (of_archive A)
          = Throw (Error InvalidIndex)) as Hfail.
  { intros Hno. unfold convert, of_archive.
    destruct (index A) as [idx|] eqn:Hidx; [|by destruct fuel].
    rewrite convert_object_unfold.
    destruct (valid_index (media A) idx) eqn:Hvalid; [|done].
    destruct Hno. apply I1_valid_index. by exists idx. }
  split; [|done]. split.
  - intros Hthrown HI1. apply I1_valid_index in HI1 as (idx & Hidx & Hv).
    revert Hthrown. unfold convert, of_archive. rewrite Hidx.
    by apply quiet_convert_object.
  - intros Hno. exists InvalidIndex. by apply Hfail.
Qed.
End InvalidArchive.

(** Both sides of C1 on the archive [Ex6.page]: as it is, it satisfies
    I1 and is converted; with the stylesheet as its index it violates
    I1 and [convert] throws. *)
Lemma convert_invalid_archive_examples :
  I1 Ex6.page
  ∧ convert (H := Sample.runtime) (H0 := Ex6.provider) 100 false
      (of_archive Ex6.page)
    = Ret Ex6.converted
  ∧ ¬ I1 {| frames := []; media := media Ex6.page;
            index := Some (str "http://e.com/s.css") |}
  ∧ convert (H := Sample.runtime) (H0 := Ex6.provider) 100 false
      (of_archive {| frames := []; media := media Ex6.page;
                     index := Some (str "http://e.com/s.css") |})
    = Throw (Error InvalidIndex).
Proof.
  split_and!.
  - eexists _, _. split_and!; [reflexivity|vm_compute; reflexivity|done].
  - vm_compute. reflexivity.
  - intros (idx & entry & [= <-] & Hget & Htype).
    vm_compute in Hget. simplify_eq.
  - vm_compute. reflexivity.
Qed.

(* ================================================================== *)
(** ** The store under the operations of the DOM *)
(* ================================================================== *)

Section Store.
Implicit Types (s : store) (n c : nat) (nd : node).

Lemma tag_alter f n s m :
  (∀ nd, tagName (f nd) = tagName nd) → tag (alter f n s) m = tag s m.
Proof.
  intros Hf. unfold tag, store in *. destruct (decide (m = n)) as [->|Hne].
  - rewrite list_lookup_alter_eq. destruct (s !! n); simpl; [apply Hf|done].
  - by rewrite list_lookup_alter_ne.
Qed.

Lemma kids_alter f n s m :
  (m ≠ n ∨ ∀ nd, childNodes (f nd) = childNodes nd) →
  kids (alter f n s) m = kids s m.
Proof.
  intros Hf. unfold kids, store in *. destruct (decide (m = n)) as [->|Hne].
  - destruct Hf as [|Hf]; [done|]. rewrite list_lookup_alter_eq.
    destruct (s !! n); simpl; [apply Hf|done].
  - by rewrite list_lookup_alter_ne.
Qed.

Lemma getAttribute_alter f n s m name :
  (∀ nd, get (attributes (f nd)) name = get (attributes nd) name) →
  getAttribute (alter f n s) m name = getAttribute s m name.
Proof.
  intros Hf. unfold getAttribute, store in *. destruct (decide (m = n)) as [->|Hne].
  - rewrite list_lookup_alter_eq. destruct (s !! n); simpl; [apply Hf|done].
  - by rewrite list_lookup_alter_ne.
Qed.

Lemma kids_set_kids s n l :
  n < length s → kids (set_kids s n l) n = l.
Proof.
  intros Hn. unfold kids, set_kids, store in *. rewrite list_lookup_alter_eq.
  destruct (lookup_lt_is_Some_2 s n Hn) as [nd ->]. done.
Qed.

Lemma kids_valid s n x : x ∈ kids s n → n < length s.
Proof.
  unfold kids. destruct (s !! n) eqn:Hn.
  - intros _. by eapply lookup_lt_Some.
  - simpl. by intros ?%elem_of_nil.
Qed.

Lemma tag_valid s n t : tag s n = Some t → n < length s.
Proof.
  unfold tag. destruct (s !! n) eqn:Hn; [|done].
  intros _. by eapply lookup_lt_Some.
Qed.

Lemma get_filter_ne {V} (o : jsobj V) (name k : jsstring) :
  k ≠ name → get (filter (λ kv, kv.1 ≠ name) o) k = get o k.
Proof.
  intros Hk. induction o as [|[k' v] o IH]; [done|].
  unfold jsobj in *. rewrite filter_cons. simpl. case_decide as Hd; simpl.
  - case_bool_decide; [done|apply IH].
  - rewrite IH. case_bool_decide; [|done]. by simplify_eq/=.
Qed.
End Store.

Section Grows.
Implicit Types (s : store) (n c : nat) (nd : node).

Lemma tag_app_l s t n : n < length s → tag (s ++ t) n = tag s n.
Proof. intros Hn. unfold tag, store in *. by rewrite lookup_app_l. Qed.

Lemma kids_app_l s t n : n < length s → kids (s ++ t) n = kids s n.
Proof. intros Hn. unfold kids, store in *. by rewrite lookup_app_l. Qed.

Lemma getAttribute_app_l s t n name :
  n < length s → getAttribute (s ++ t) n name = getAttribute s n name.
Proof.
  intros Hn. unfold getAttribute, store in *. by rewrite lookup_app_l.
Qed.

Lemma lookup_new s nd : (s ++ [nd]) !! length s = Some nd.
Proof.
  unfold store in *. rewrite lookup_app_r by lia.
  by rewrite Nat.sub_diag.
Qed.

Lemma kids_new s nd : kids (s ++ [nd]) (length s) = childNodes nd.
Proof. unfold kids. by rewrite lookup_new. Qed.

Lemma grows_refl c s : grows c s s.
Proof. by split. Qed.

Lemma grows_trans c m s s1 s2 :
  grows c s s1 → grows m s1 s2 → m = c ∨ length s ≤ m → grows c s s2.
Proof.
  intros [Hl1 Ht1 Ha1 Hk1 Hc1] [Hl2 Ht2 Ha2 Hk2 Hc2] Hm. split.
  - lia.
  - intros n Hn. rewrite Ht2 by lia. by apply Ht1.
  - intros n name Hn Hname. rewrite Ha2 by (done || lia). by apply Ha1.
  - intros n Hn Hne. rewrite Hk2 by lia. by apply Hk1.
  - auto.
Qed.

Lemma closed_alter s n f :
  closed s → (∀ nd, childNodes (f nd) = childNodes nd) →
  closed (alter f n s).
Proof.
  intros Hs Hf m x. rewrite kids_alter by auto.
  unfold store in *. rewrite length_alter. apply Hs.
Qed.

Lemma grows_setAttribute c s n name v :
  name ≠ str "rel" → name ≠ str "href" →
  grows c s (setAttribute s n name v).
Proof.
  intros Hrel Hhref. unfold setAttribute. split.
  - unfold store in *. by rewrite length_alter.
  - intros. by apply tag_alter.
  - intros m k _ Hk. apply getAttribute_alter. intros nd. simpl.
    apply get_set_ne. by destruct Hk as [->| ->].
  - intros. apply kids_alter. by right.
  - intros. by apply closed_alter.
Qed.

Lemma grows_removeAttribute c s n name :
  name ≠ str "rel" → name ≠ str "href" →
  grows c s (removeAttribute s n name).
Proof.
  intros Hrel Hhref. unfold removeAttribute. split.
  - unfold store in *. by rewrite length_alter.
  - intros. by apply tag_alter.
  - intros m k _ Hk. apply getAttribute_alter. intros nd. simpl.
    apply get_filter_ne. by destruct Hk as [->| ->].
  - intros. apply kids_alter. by right.
  - intros. by apply closed_alter.
Qed.

Lemma grows_set_kids s c l :
  (closed s → ∀ x, x ∈ l → x < length s) → grows c s (set_kids s c l).
Proof.
  intros Hl. unfold set_kids. split.
  - unfold store in *. by rewrite length_alter.
  - intros. by apply tag_alter.
  - intros. by apply getAttribute_alter.
  - intros. apply kids_alter. by left.
  - intros Hs m x Hx. fold (set_kids s c l) in *.
    assert (length (set_kids s c l) = length s) as Hlen.
    { unfold set_kids, store in *. by rewrite length_alter. }
    rewrite Hlen. apply kids_valid in Hx as Hm. rewrite Hlen in Hm.
    destruct (decide (m = c)) as [->|Hne].
    + rewrite kids_set_kids in Hx by done. by apply Hl.
    + unfold set_kids in Hx. rewrite kids_alter in Hx by auto.
      by eapply Hs.
Qed.

Lemma grows_alloc c s nd :
  (closed s → ∀ x, x ∈ childNodes nd → x < length s) →
  grows c s (s ++ [nd]).
Proof.
  intros Hnd. split.
  - rewrite length_app. lia.
  - intros. by apply tag_app_l.
  - intros. by apply getAttribute_app_l.
  - intros. by apply kids_app_l.
  - intros Hs m x Hx. rewrite length_app. simpl.
    destruct (decide (m < length s)) as [Hm|Hm].
    + rewrite kids_app_l in Hx by done. apply Hs in Hx. lia.
    + apply kids_valid in Hx as Hm'. rewrite length_app in Hm'.
      simpl in Hm'. assert (m = length s) as -> by lia.
      rewrite kids_new in Hx. apply Hnd in Hx; [lia|done].
Qed.
End Grows.

Section Clone.
Implicit Types (s : store) (n c : nat) (nd : node).

Lemma cloneNode_grows fuel c s n s' n' :
  cloneNode fuel s n = Ret (s', n') → grows c s s' ∧ n' < length s'.
Proof.
  revert s n s' n'.
  induction fuel as [|fuel IH]; intros s n s' n' Hclone; [done|].
  cbn [cloneNode] in Hclone.
  apply bind_Ret in Hclone as (nd & _ & Hclone).
  apply bind_Ret in Hclone as ([s1 ks'] & Hkids & Hclone).
  assert (grows c s s1 ∧ ∀ x, x ∈ ks' → x < length s1) as [Hg1 Hks'].
  { clear Hclone. revert Hkids. generalize (childNodes nd). intros ks.
    revert s s1 ks'. induction ks as [|k ks IHks]; intros s s1 ks' Hks.
    - simplify_eq. split; [apply grows_refl|]. by intros x ?%elem_of_nil.
    - apply bind_Ret in Hks as ([s2 k'] & Hk & Hks).
      apply bind_Ret in Hks as ([s3 ks''] & Hrest & Hks).
      simpl in Hks. simplify_eq.
      apply IH in Hk as [Hg2 Hk']. apply IHks in Hrest as [Hg3 Hks''].
      split.
      + eapply grows_trans; [exact Hg2|exact Hg3|by left].
      + intros x [->|Hx]%elem_of_cons; [|by apply Hks''].
        pose proof (g_length _ _ _ Hg3). lia. }
  apply bind_Ret in Hclone as ([s2 t] & Hcontent & Hclone).
  simpl in Hclone. simplify_eq.
  assert (grows c s1 s2) as Hg2.
  { destruct (content nd) as [f|]; simplify_eq/=; [|apply grows_refl].
    apply bind_Ret in Hcontent as ([s3 f'] & Hf & Hcontent).
    simpl in Hcontent. simplify_eq. by apply IH in Hf as [? _]. }
  split; [|rewrite length_app; simpl; lia].
  eapply grows_trans; [|apply grows_alloc|by left].
  - eapply grows_trans; [exact Hg1|exact Hg2|by left].
  - simpl. intros _ x Hx. apply Hks' in Hx.
    pose proof (g_length _ _ _ Hg2). lia.
Qed.

Lemma clone_content_grows fuel c s ns s' ns' :
  clone_content fuel s ns = Ret (s', ns') →
  grows c s s' ∧ ∀ x, x ∈ ns' → x < length s'.
Proof.
  revert s s' ns'. induction ns as [|n ns IH]; intros s s' ns' Hclone.
  - simpl in Hclone. simplify_eq.
    split; [apply grows_refl|]. by intros x ?%elem_of_nil.
  - cbn [clone_content] in Hclone. case_bool_decide; [by apply IH|].
    apply bind_Ret in Hclone as ([s1 n'] & Hn & Hclone).
    apply bind_Ret in Hclone as ([s2 ns''] & Hns & Hclone).
    simpl in Hclone. simplify_eq.
    apply (cloneNode_grows _ c) in Hn as [Hg1 Hn'].
    apply IH in Hns as [Hg2 Hns'']. split.
    + eapply grows_trans; [exact Hg1|exact Hg2|by left].
    + intros x [->|Hx]%elem_of_cons; [|by apply Hns''].
      pose proof (g_length _ _ _ Hg2). lia.
Qed.

Lemma elem_of_remove_first old l x : x ∈ remove_first old l → x ∈ l.
Proof.
  induction l as [|y l IH]; simpl; [done|]. case_bool_decide.
  - intros Hx. apply elem_of_cons. by right.
  - intros [->|Hx]%elem_of_cons; apply elem_of_cons; [by left|].
    right. by apply IH.
Qed.

Lemma elem_of_replace_first new old l x :
  x ∈ replace_first new old l → x = new ∨ x ∈ l.
Proof.
  induction l as [|y l IH]; simpl; [by right|]. case_bool_decide.
  - intros [->|Hx]%elem_of_cons; [by left|].
    right. apply elem_of_cons. by right.
  - intros [->|Hx]%elem_of_cons.
    + right. apply elem_of_cons. by left.
    + destruct (IH Hx) as [->|Hl]; [by left|].
      right. apply elem_of_cons. by right.
Qed.

Lemma grows_removeChild s c old : grows c s (removeChild s c old).
Proof.
  apply grows_set_kids. intros Hs x Hx%elem_of_remove_first.
  by eapply Hs.
Qed.
End Clone.

Section NewStyle.
Implicit Types (s : store) (n c : nat) (nd : node).

Lemma alter_new {A} (f : A → A) (l t : list A) :
  alter f (length l) (l ++ t) = l ++ alter f 0 t.
Proof.
  rewrite <- (Nat.add_0_r (length l)) at 1. apply alter_app_r.
Qed.

Lemma new_style_eq s css :
  new_style s css
  = s ++ [ {| nodeType := 1; tagName := Some (str "STYLE");
              attributes := [(str "type", str "text/css")];
              childNodes := [S (length s)]; nodeValue := [];
              content := None |};
           {| nodeType := 3; tagName := None; attributes := [];
              childNodes := []; nodeValue := css; content := None |} ].
Proof.
  unfold new_style, createElement, createTextNode, appendChild,
    setAttribute, set_kids, kids, store.
  rewrite alter_new. simpl.
  rewrite length_app. simpl. rewrite <- (assoc_L (++)). simpl.
  rewrite alter_new. simpl.
  rewrite lookup_app_r by lia. rewrite Nat.sub_diag. simpl.
  by rewrite Nat.add_1_r.
Qed.

Lemma new_style_grows c s css : grows c s (new_style s css).
Proof.
  rewrite new_style_eq. split.
  - rewrite length_app. lia.
  - intros. by apply tag_app_l.
  - intros. by apply getAttribute_app_l.
  - intros. by apply kids_app_l.
  - intros Hs m x Hx. rewrite length_app. simpl.
    destruct (decide (m < length s)) as [Hm|Hm].
    { rewrite kids_app_l in Hx by done. apply Hs in Hx. lia. }
    apply kids_valid in Hx as Hm'. rewrite length_app in Hm'.
    simpl in Hm'. revert Hx. unfold kids, store.
    rewrite lookup_app_r by lia.
    destruct (m - length s) as [|[|k]] eqn:Hk; simpl.
    + intros [->|?%elem_of_nil]%elem_of_cons; [lia|done].
    + by intros ?%elem_of_nil.
    + lia.
Qed.

Lemma new_style_with_text s css :
  style_with_text (new_style s css) (length s) (S (length s)) css.
Proof.
  rewrite new_style_eq.
  assert (∀ a b : node, (s ++ [a; b]) !! length s = Some a) as H0.
  { intros. unfold store. rewrite lookup_app_r by lia.
    by rewrite Nat.sub_diag. }
  assert (∀ a b : node, (s ++ [a; b]) !! S (length s) = Some b) as H1.
  { intros. unfold store. rewrite lookup_app_r by lia.
    by replace (S (length s) - length s) with 1 by lia. }
  unfold style_with_text, tag, getAttribute, kids.
  rewrite !H0, !H1. done.
Qed.
End NewStyle.

Section Callback.
Context `{Runtime} `{DOMProvider}.
Implicit Types (s : store) (n c p : nat) (nd : node).

Lemma processDeclarativeShadowDOM_grows fuel s element s' :
  processDeclarativeShadowDOM fuel s element = Ret s' →
  grows element s s'.
Proof.
  unfold processDeclarativeShadowDOM.
  destruct (filter _ _) as [|shadowTemplate _].
  { intros; simplify_eq. apply grows_refl. }
  intros Hrun. apply bind_Ret in Hrun as (s1 & Hs1 & Hrun).
  assert (grows element s s1) as Hg1.
  { destruct (_ || _).
    - simplify_eq. apply grows_removeChild.
    - apply bind_Ret in Hs1 as ([s2 fragment] & Hclone & Hs1).
      simpl in Hs1. simplify_eq.
      apply (clone_content_grows _ element) in Hclone as [Hg2 Hfragment].
      eapply grows_trans; [exact Hg2| |by left].
      eapply grows_trans; [apply grows_removeChild| |by left].
      apply grows_set_kids. intros Hclosed x [Hx|Hx]%elem_of_app.
      + by eapply Hclosed.
      + apply Hfragment in Hx.
        pose proof (g_length _ _ _ (grows_removeChild s2 element
                                      shadowTemplate)). lia. }
  simpl in Hrun. simplify_eq. destruct (hasAttribute _ _ _); [|done].
  eapply grows_trans; [exact Hg1| |by left].
  by apply grows_removeAttribute.
Qed.

Lemma updateInlineStyle_grows fuel c s element media base s' :
  updateInlineStyle fuel s element media base = Ret s' → grows c s s'.
Proof.
  unfold updateInlineStyle.
  destruct (if is_element _ _ then _ else _);
    [|intros; simplify_eq; apply grows_refl].
  case_bool_decide; [|intros; simplify_eq; apply grows_refl].
  intros Hrun. apply bind_Ret in Hrun as (css & _ & Hrun).
  simpl in Hrun. simplify_eq. by apply grows_setAttribute.
Qed.

Lemma inlinable_grows media c s s' n :
  grows c s s' → n < length s →
  inlinable media s' n ↔ inlinable media s n.
Proof.
  intros Hg Hn. unfold inlinable.
  rewrite (g_tag _ _ _ Hg) by done.
  rewrite !(g_attr _ _ _ Hg) by auto. done.
Qed.
End Callback.

(** Two string literals differ. *)
Ltac str_ne := let Heq := fresh in intros Heq; vm_compute in Heq; discriminate.

Section CallbackCases.
Context `{Runtime} `{DOMProvider}.
Implicit Types (s : store) (n c p : nat) (nd : node).

Lemma visit_cases fuel recur convertIframes frames media index
    p c s h sr s' h' sr' :
  visit fuel recur convertIframes frames media index p c s h sr
  = Ret (s', h', sr') →
  (¬ inlinable media s c ∧ grows c s s')
  ∨ ∃ s1 css,
      grows c s s1
      ∧ s' = replaceChild (new_style s1 css) p (length s1) c
      ∧ (inlinable media s c →
         ∃ out, processCSS fuel media (getAttribute s c (str "href"))
                = Ret out
                ∧ css = default (str "null") out).
Proof.
  unfold visit. intros Hrun.
  destruct (is_element s c) eqn:Hel; cbv beta iota zeta in Hrun; last first.
  { rewrite Hel in Hrun. apply bool_decide_eq_false_1 in Hel.
    destruct (tag s c) as [t|] eqn:Ht; [by destruct Hel|].
    left. split; [intros [Htag _]; congruence|].
    apply bind_Ret in Hrun as (s1 & Hs1 & Hrun). simpl in Hs1.
    simplify_eq. rewrite Ht in Hrun.
    apply bind_Ret in Hrun as (s2 & Hs2 & Hrun). simpl in Hrun.
    simplify_eq. by eapply updateInlineStyle_grows. }
  apply bool_decide_eq_true_1 in Hel.
  assert (c < length s) as Hc.
  { destruct (tag s c) eqn:Ht; [by eapply tag_valid|done]. }
  apply bind_Ret in Hrun as (s1 & Hs1 & Hrun).
  assert (grows c s s1) as Hg.
  { eapply grows_trans; [| |by left]; last first.
    { destruct (_ && _); [|simplify_eq; apply grows_refl].
      by eapply processDeclarativeShadowDOM_grows. }
    apply grows_removeAttribute; str_ne. }
  clear Hs1.
  apply bind_Ret in Hrun as (s2 & Hs2 & Hrun). simpl in Hrun.
  symmetry in Hrun. simplify_eq.
  rewrite (g_tag _ _ _ Hg) in Hs2 by done.
  rewrite (g_attr _ _ _ Hg) in Hs2 by auto.
  destruct (tag s c) as [t|] eqn:Ht; [|done]. clear Hel.
  case_bool_decide as Hhead.
  { left. split.
    { intros [Htag _]. rewrite Ht, Hhead in Htag.
      vm_compute in Htag. discriminate. }
    unfold createElement, insertFirst in Hs2. simplify_eq.
    eapply grows_trans; [|apply grows_set_kids|by left].
    { eapply grows_trans; [|apply grows_setAttribute; str_ne|by left].
      eapply grows_trans; [exact Hg|apply grows_alloc|by left].
      simpl. by intros _ x ?%elem_of_nil. }
    intros Hclosed x [->|Hx]%elem_of_cons; [|by eapply Hclosed].
    unfold setAttribute, store. rewrite length_alter, length_app.
    simpl. lia. }
  assert (∀ css,
            inlinable media s c →
            processCSS fuel media (getAttribute s c (str "href")) = Ret css →
            ∃ out, processCSS fuel media (getAttribute s c (str "href"))
                   = Ret out
                   ∧ default (str "null") css = default (str "null") out)
    as Hout by (intros css _ Hcss; by exists css).
  case_bool_decide as Hlink.
  { destruct (_ && _) eqn:Hcond.
    - right. unfold createElement in Hs2.
      apply bind_Ret in Hs2 as (css & Hcss & Hs2).
      exists s1, (default (str "null") css). split; [done|].
      split; [|by eauto]. unfold createTextNode in Hs2.
      by simplify_eq.
    - left. simplify_eq. split; [|done].
      intros (_ & Hrel & Hhref). rewrite type_of_read in Hcond.
      apply andb_false_iff in Hcond
        as [Hcond|Hcond]; by apply bool_decide_eq_false_1 in Hcond. }
  assert (¬ inlinable media s c) as Hno.
  { intros [Htag _]. congruence. }
  case_bool_decide as Hstyle.
  { right. unfold createElement in Hs2.
    apply bind_Ret in Hs2 as (css & Hcss & Hs2).
    exists s1, css. split; [done|]. split; [|done].
    unfold createTextNode in Hs2.
    by simplify_eq. }
  left. split; [done|].
  case_bool_decide as Himg.
  { apply bind_Ret in Hs2 as (s3 & Hs3 & Hs2).
    eapply grows_trans; [|by eapply updateInlineStyle_grows|by left].
    eapply grows_trans; [exact Hg| |by left].
    repeat case_match; simplify_eq; try apply grows_refl.
    apply grows_setAttribute; str_ne. }
  case_bool_decide as Hiframe;
    [|eapply grows_trans;
        [exact Hg|by eapply updateInlineStyle_grows|by left]].
  eapply grows_trans; [exact Hg| |by left].
  repeat case_match; simplify_eq; try apply grows_refl.
  apply bind_Ret in Hs2 as (iframe & _ & Hs2).
  apply bind_Ret in Hs2 as (html & _ & Hs2). simpl in Hs2. simplify_eq.
  apply grows_setAttribute; str_ne.
Qed.
End CallbackCases.

Section CallbackEffect.
Context `{Runtime} `{DOMProvider}.
Implicit Types (s : store) (n c p : nat) (nd : node).

Lemma style_with_text_set_kids s n l st tx css :
  n ≠ st → n ≠ tx →
  style_with_text s st tx css →
  style_with_text (set_kids s n l) st tx css.
Proof.
  intros Hst Htx (Htag & Htype & Hkids & Htag' & Hkids' & Hvalue).
  unfold style_with_text, set_kids.
  rewrite !tag_alter, getAttribute_alter, !kids_alter by auto.
  unfold store in *. by rewrite list_lookup_alter_ne.
Qed.

Lemma replaceChild_new_style_effect media p c s s1 css :
  closed s → p < length s → grows c s s1 →
  visit_effect media p c s
    (replaceChild (new_style s1 css) p (length s1) c)
  ∧ (p ≠ c →
     style_with_text (replaceChild (new_style s1 css) p (length s1) c)
       (length s1) (S (length s1)) css
     ∧ kids (replaceChild (new_style s1 css) p (length s1) c) p
       = replace_first (length s1) c (kids s p)).
Proof.
  intros Hclosed Hp Hg1.
  assert (grows c s (new_style s1 css)) as Hgn.
  { eapply grows_trans; [exact Hg1|apply new_style_grows|by left]. }
  assert (length (new_style s1 css) = S (S (length s1))) as Hlen.
  { rewrite new_style_eq, length_app. simpl. lia. }
  pose proof (g_length _ _ _ Hg1) as Hl1.
  assert (grows p (new_style s1 css)
            (replaceChild (new_style s1 css) p (length s1) c)) as Hgr.
  { apply grows_set_kids.
    intros Hc x [->|Hx]%elem_of_replace_first; [lia|by eapply Hc]. }
  assert (p ≠ c →
          style_with_text (replaceChild (new_style s1 css) p (length s1) c)
            (length s1) (S (length s1)) css
          ∧ kids (replaceChild (new_style s1 css) p (length s1) c) p
            = replace_first (length s1) c (kids s p)) as Hparent.
  { intros Hne. split.
    - apply style_with_text_set_kids; [lia|lia|].
      apply new_style_with_text.
    - unfold replaceChild. rewrite kids_set_kids by lia.
      by rewrite (g_kids _ _ _ Hgn). }
  split; [|done]. split.
  - pose proof (g_length _ _ _ Hgr). lia.
  - by apply (g_closed _ _ _ Hgr), (g_closed _ _ _ Hgn).
  - intros n Hn. rewrite (g_tag _ _ _ Hgr) by lia.
    by apply (g_tag _ _ _ Hgn).
  - intros n Hn. rewrite (g_attr _ _ _ Hgr) by (auto || lia).
    apply (g_attr _ _ _ Hgn); auto.
  - intros n Hn. rewrite (g_attr _ _ _ Hgr) by (auto || lia).
    apply (g_attr _ _ _ Hgn); auto.
  - intros n Hn Hc Hnp. rewrite (g_kids _ _ _ Hgr) by (done || lia).
    by apply (g_kids _ _ _ Hgn).
  - intros Hne. right. exists (length s1), (S (length s1)), css.
    destruct (Hparent Hne) as [Hstyle Hkids]. done.
Qed.

Lemma visit_effect_of_grows media p c s s' :
  closed s → p < length s → ¬ inlinable media s c → grows c s s' →
  visit_effect media p c s s'.
Proof.
  intros Hclosed Hp Hno Hg. split.
  - apply (g_length _ _ _ Hg).
  - by apply (g_closed _ _ _ Hg).
  - apply (g_tag _ _ _ Hg).
  - intros. apply (g_attr _ _ _ Hg); auto.
  - intros. apply (g_attr _ _ _ Hg); auto.
  - intros. by apply (g_kids _ _ _ Hg).
  - intros Hne. left. split; [done|]. by apply (g_kids _ _ _ Hg).
Qed.

Lemma visit_visit_effect fuel recur convertIframes frames media index
    p c s h sr s' h' sr' :
  closed s → p < length s →
  visit fuel recur convertIframes frames media index p c s h sr
  = Ret (s', h', sr') →
  visit_effect media p c s s'.
Proof.
  intros Hclosed Hp Hrun.
  apply visit_cases in Hrun as [[Hno Hg]|(s1 & css & Hg & -> & _)].
  - by apply visit_effect_of_grows.
  - by apply replaceChild_new_style_effect.
Qed.
End CallbackEffect.

Section ReplaceFirst.
Implicit Types (l : list nat) (i k x c st : nat).

Lemma replace_first_at st c l i :
  c ∉ take i l → l !! i = Some c →
  replace_first st c l = take i l ++ st :: drop (S i) l.
Proof.
  revert i. induction l as [|y l IH]; intros i Hnot Hi; [done|].
  destruct i as [|i]; simpl in *.
  - simplify_eq. by rewrite bool_decide_eq_true_2, drop_0.
  - apply not_elem_of_cons in Hnot as [Hne Hnot].
    rewrite bool_decide_eq_false_2 by done. f_equal. by apply IH.
Qed.

Lemma drop_replace_first st c l i :
  l !! i = Some c → drop (S i) (replace_first st c l) = drop (S i) l.
Proof.
  revert i. induction l as [|y l IH]; intros i Hi; [done|].
  simpl. case_bool_decide as Hy; [done|].
  destruct i as [|i]; simpl in *; [by simplify_eq|]. by apply IH.
Qed.

Lemma elem_of_take_replace_first st c l k x :
  x ∈ take k (replace_first st c l) → x = st ∨ x ∈ take k l.
Proof.
  revert k. induction l as [|y l IH]; intros k; [by right|].
  destruct k as [|k]; [by right|]. simpl. case_bool_decide as Hy; simpl.
  - intros [->|Hx]%elem_of_cons; [by left|].
    right. apply elem_of_cons. by right.
  - intros [->|Hx]%elem_of_cons.
    + right. apply elem_of_cons. by left.
    + destruct (IH _ Hx) as [->|Hl]; [by left|].
      right. apply elem_of_cons. by right.
Qed.

Lemma elem_of_drop_lookup l i c x :
  l !! i = Some c → x ∈ drop i l → x = c ∨ x ∈ drop (S i) l.
Proof.
  intros Hi. rewrite (drop_S _ _ _ Hi). by intros ?%elem_of_cons.
Qed.

Lemma elem_of_take_S l i c x :
  l !! i = Some c → x ∈ take (S i) l → x ∈ take i l ∨ x = c.
Proof.
  intros Hi. rewrite (take_S_r _ _ _ Hi).
  intros [?|Hx]%elem_of_app; [by left|].
  apply elem_of_cons in Hx as [->|?%elem_of_nil]; [by right|done].
Qed.
End ReplaceFirst.

Section Settled.
Implicit Types (w : wstate) (s : store) (n c p root : nat).

Lemma settled_mono w w' root n :
  w_store w' = w_store w →
  (∀ y x, x ∈ kids (w_store w) y → pending w y x → pending w' y x) →
  settled w' root n → settled w root n.
Proof.
  intros Hstore Hpending. induction 1 as [|y x Hy IH Hx Hno].
  - constructor.
  - rewrite Hstore in Hx. eapply settled_child; [done..|].
    intros Hp. apply Hno. by apply Hpending.
Qed.

Lemma reach_settled w root n :
  w_cur w = None → w_nodes w = [] →
  reach (w_store w) root n → settled w root n.
Proof.
  intros Hcur Hnodes. induction 1 as [|y x Hy IH Hx]; [constructor|].
  eapply settled_child; [done..|].
  intros [Hq|(i & Hi & _)].
  - rewrite Hnodes in Hq. by apply elem_of_nil in Hq.
  - congruence.
Qed.

Lemma walk_inv_shift media root w p rest :
  walk_inv media root w → w_cur w = None → w_nodes w = p :: rest →
  walk_inv media root
    {| w_store := w_store w; w_nodes := rest; w_cur := Some (p, 0);
       w_href := w_href w; w_src := w_src w |}.
Proof.
  intros [Hclosed Hroot Hnodes Hcur Hsettled Hprefix] Hc Hn.
  split; simpl; try done.
  - intros n Hin. apply Hnodes. rewrite Hn. apply elem_of_cons. by right.
  - intros p' i [= <- <-]. apply Hnodes. rewrite Hn.
    apply elem_of_cons. by left.
  - intros n Hs. apply Hsettled. eapply settled_mono; [| |exact Hs]; [done|].
    intros y x Hx [Hq|(i & Hi & _)]; [|congruence].
    rewrite Hn in Hq. apply elem_of_cons in Hq as [->|Hq].
    + right. simpl. by exists 0.
    + by left.
  - intros p' i [= <- <-]. right. simpl. by intros x ?%elem_of_nil.
Qed.

Lemma walk_inv_end media root w p i :
  walk_inv media root w → w_cur w = Some (p, i) →
  kids (w_store w) p !! i = None →
  walk_inv media root
    {| w_store := w_store w; w_nodes := w_nodes w; w_cur := None;
       w_href := w_href w; w_src := w_src w |}.
Proof.
  intros [Hclosed Hroot Hnodes Hcur Hsettled Hprefix] Hc Hi.
  split; simpl; try done.
  intros n Hs. apply Hsettled. eapply settled_mono; [| |exact Hs]; [done|].
  intros y x Hx [Hq|(j & Hj & Hd)]; [by left|].
  rewrite Hc in Hj. simplify_eq.
  apply lookup_ge_None in Hi. rewrite drop_ge in Hd by done.
  by apply elem_of_nil in Hd.
Qed.
End Settled.

Section Step.
Context (media : jsobj asset) (root : nat).
Implicit Types (w : wstate) (s : store) (n c p : nat).

Lemma inlinable_effect p c s s' n :
  visit_effect media p c s s' → n < length s →
  inlinable media s' n ↔ inlinable media s n.
Proof.
  intros E Hn. unfold inlinable.
  by rewrite (ve_tag _ _ _ _ _ E), (ve_rel _ _ _ _ _ E),
    (ve_href _ _ _ _ _ E).
Qed.

Lemma style_not_inlinable s st tx css :
  style_with_text s st tx css →
  ¬ inlinable media s st ∧ ¬ inlinable media s tx.
Proof.
  intros (Htag & _ & _ & Htag' & _). split; intros [Hlink _].
  - rewrite Htag in Hlink. vm_compute in Hlink. discriminate.
  - congruence.
Qed.

Lemma elem_of_take_elem {A} (l : list A) k x : x ∈ take k l → x ∈ l.
Proof.
  intros Hx. rewrite <- (take_drop k l). apply elem_of_app. by left.
Qed.

Lemma elem_of_drop_elem {A} (l : list A) k x : x ∈ drop k l → x ∈ l.
Proof.
  intros Hx. rewrite <- (take_drop k l). apply elem_of_app. by right.
Qed.

(** When the first occurrence of an inlinable [c] among the children
    of [p] is the one the walk stands on, the replacement leaves no
    [c] before the cursor. *)
Lemma replaced_before_cursor st c l i x :
  l !! i = Some c → c ∉ take i l →
  x ∈ take (S i) (replace_first st c l) → x ∈ take i l ∨ x = st.
Proof.
  intros Hi Hnot. rewrite (replace_first_at _ _ _ i) by done.
  assert (length (take i l) = i) as Hlen.
  { apply lookup_lt_Some in Hi. rewrite length_take. lia. }
  rewrite take_app, Hlen, take_take.
  replace (S i - i) with 1 by lia. replace (S i `min` i) with i by lia.
  simpl. rewrite take_0.
  intros [?|Hx]%elem_of_app; [by left|].
  apply elem_of_cons in Hx as [->|?%elem_of_nil]; [by right|done].
Qed.

End Step.

Section StepCallback.
Context (media : jsobj asset) (root : nat).
Context (w : wstate) (p i c : nat) (s' : store) (h sr : option jsstring).
Context (I : walk_inv media root w).
Context (Hcur : w_cur w = Some (p, i)).
Context (Hi : kids (w_store w) p !! i = Some c).
Context (E : visit_effect media p c (w_store w) s').

Local Lemma child_valid : c ∈ kids (w_store w) p ∧ c < length (w_store w).
Proof using All.
  assert (c ∈ kids (w_store w) p) by (by eapply list_elem_of_lookup_2).
  split; [done|]. by eapply (wi_closed _ _ _ I).
Qed.

Local Lemma stable n :
  n < length (w_store w) → ¬ inlinable media (w_store w) n →
  ¬ inlinable media s' n.
Proof using All.
  intros Hn Hno Hin. apply Hno.
  by apply (inlinable_effect media p c (w_store w) s' n E Hn).
Qed.

Local Lemma prefix_clean :
  p ∉ w_nodes w → inlinable media (w_store w) c →
  c ∉ take i (kids (w_store w) p).
Proof using All.
  intros Hq Hin Hc.
  destruct (wi_prefix _ _ _ I _ _ Hcur) as [|Hpre]; [done|].
  by apply (Hpre c).
Qed.

Local Lemma not_pending x :
  p ∉ w_nodes w → x ≠ c → x ∉ drop (S i) (kids (w_store w) p) →
  ¬ pending w p x.
Proof using All.
  intros Hq Hx Hd [?|(j & Hj & Hdrop)]; [done|].
  rewrite Hcur in Hj. simplify_eq.
  by apply (elem_of_drop_lookup _ _ _ _ Hi) in Hdrop as [?|?].
Qed.

(** The children of [p] the cursor has passed, after the call. *)
Local Lemma parent_children x :
  p ≠ c → p ∉ w_nodes w → settled w root p →
  x ∈ kids s' p → x ∉ drop (S i) (kids s' p) →
  ¬ inlinable media s' x ∧ settled_after root w s' c x.
Proof using All.
  intros Hpc Hq Hp Hx Hd.
  destruct child_valid as [Hcin Hcl].
  assert (∀ y, y ∈ kids (w_store w) p → y ≠ c →
               y ∉ drop (S i) (kids (w_store w) p) →
               ¬ inlinable media s' y ∧ settled_after root w s' c y)
    as Hold.
  { intros y Hy Hyc Hyd.
    assert (settled w root y) as Hs.
    { eapply settled_child; [exact Hp|done|by apply not_pending]. }
    assert (y < length (w_store w)) by (by eapply (wi_closed _ _ _ I)).
    split; [apply stable; [done|by apply (wi_settled _ _ _ I)]|].
    by left. }
  destruct (ve_parent _ _ _ _ _ E Hpc)
    as [[Hno Hk]|(st & tx & css & Hst & Hsty & Hk)]; rewrite Hk in Hx, Hd.
  2: destruct (style_not_inlinable media _ _ _ _ Hsty) as [Hnst Hntx].
  - destruct (decide (x = c)) as [->|Hxc]; [|by apply Hold].
    split; [by apply stable|]. right. by right.
  - rewrite drop_replace_first in Hd by done.
    pose proof Hx as Hx0.
    apply elem_of_replace_first in Hx as [->|Hx].
    { split; [done|]. right. left. exists st, tx, css. auto. }
    destruct (decide (x = c)) as [->|Hxc]; [|by apply Hold].
    split; [|right; by right].
    intros Hin.
    apply (inlinable_effect media p c (w_store w) s' c E Hcl) in Hin.
    rewrite (replace_first_at _ _ _ i) in Hx0
      by (done || by apply prefix_clean).
    apply elem_of_app in Hx0 as [Hx0|Hx0]; [by apply prefix_clean in Hx0|].
    apply elem_of_cons in Hx0 as [->|Hx0]; [lia|done].
Qed.

Local Lemma settled_step n :
  settled {| w_store := s'; w_nodes := w_nodes w ++ [c];
             w_cur := Some (p, S i); w_href := h; w_src := sr |} root n →
  ¬ inlinable media s' n ∧ settled_after root w s' c n.
Proof using All.
  destruct (wi_root _ _ _ I) as [Hroot Hdoc].
  induction 1 as [|y x Hy [Hgy HRy] Hx Hnp]; simpl in *.
  { split; [|left; split; [done|constructor]].
    intros [Ht _]. rewrite (ve_tag _ _ _ _ _ E) in Ht by done. congruence. }
  assert ((y ∉ w_nodes w) ∧ y ≠ c) as [Hyq Hyc].
  { split; intros Hq; apply Hnp; left; simpl; apply elem_of_app;
      [by left|right; apply elem_of_cons; by left]. }
  destruct HRy as [[Hyl Hys]|[(st & tx & css & Hsty & [->| ->])| ->]];
    [| | |done].
  - destruct (decide (y = p)) as [->|Hyp].
    + apply parent_children; try done.
      intros Hd. apply Hnp. right. by exists (S i).
    + rewrite (ve_kids _ _ _ _ _ E) in Hx by done.
      assert (settled w root x) as Hs.
      { eapply settled_child; [exact Hys|done|].
        intros [?|(j & Hj & _)]; [done|]. rewrite Hcur in Hj.
        by simplify_eq. }
      assert (x < length (w_store w)) by (by eapply (wi_closed _ _ _ I)).
      split; [apply stable; [done|by apply (wi_settled _ _ _ I)]|by left].
  - pose proof Hsty as (_ & _ & Hk & _). rewrite Hk in Hx.
    apply elem_of_cons in Hx as [->|?%elem_of_nil]; [|done].
    destruct (style_not_inlinable media _ _ _ _ Hsty) as [Hnst Hntx].
    split; [done|]. right; left. exists st, tx, css. auto.
  - pose proof Hsty as (_ & _ & _ & _ & Hk & _). rewrite Hk in Hx.
    by apply elem_of_nil in Hx.
Qed.

Lemma walk_inv_step :
  walk_inv media root
    {| w_store := s'; w_nodes := w_nodes w ++ [c];
       w_cur := Some (p, S i); w_href := h; w_src := sr |}.
Proof using All.
  destruct child_valid as [Hcin Hcl].
  pose proof (ve_length _ _ _ _ _ E) as Hlen.
  split; simpl.
  - apply (ve_closed _ _ _ _ _ E).
  - destruct (wi_root _ _ _ I) as [Hr Ht]. split; [lia|].
    by rewrite (ve_tag _ _ _ _ _ E).
  - intros n [Hn|Hn]%elem_of_app.
    + apply (wi_nodes _ _ _ I) in Hn. lia.
    + apply elem_of_cons in Hn as [->|?%elem_of_nil]; [lia|done].
  - intros p' i' [= <- <-]. pose proof (wi_cur _ _ _ I _ _ Hcur). lia.
  - intros n Hn. by apply settled_step in Hn as [? _].
  - intros p' i' [= <- <-].
    destruct (decide (p ∈ w_nodes w ++ [c])) as [|Hnin]; [by left|].
    right.
    assert ((p ∉ w_nodes w) ∧ p ≠ c) as [Hq Hpc].
    { split; intros Hq; apply Hnin; apply elem_of_app;
        [by left|right; apply elem_of_cons; by left]. }
    destruct (wi_prefix _ _ _ I _ _ Hcur) as [|Hpre]; [done|].
    assert (∀ x, x ∈ take i (kids (w_store w) p) →
                 ¬ inlinable media s' x) as Hpre'.
    { intros x Hx. apply stable; [|by apply Hpre].
      eapply (wi_closed _ _ _ I), elem_of_take_elem, Hx. }
    intros x Hx.
    destruct (ve_parent _ _ _ _ _ E Hpc)
      as [[Hno Hk]|(st & tx & css & Hst & Hsty & Hk)]; rewrite Hk in Hx.
    + apply (elem_of_take_S _ _ _ _ Hi) in Hx as [Hx| ->];
        [by apply Hpre'|by apply stable].
    + destruct (style_not_inlinable media _ _ _ _ Hsty) as [Hnst Hntx].
      intros Hin. pose proof Hx as Hx0.
      apply elem_of_take_replace_first in Hx as [->|Hx]; [done|].
      apply (elem_of_take_S _ _ _ _ Hi) in Hx as [Hx| ->];
        [by apply (Hpre' x)|].
      apply (inlinable_effect media p c (w_store w) s' c E Hcl) in Hin.
      apply replaced_before_cursor in Hx0 as [Hx0| ->];
        [by apply prefix_clean in Hx0|lia|done|by apply prefix_clean].
Qed.
End StepCallback.

Section Walk.
Context (media : jsobj asset) (root : nat).

Lemma walk_no_inlinable fuel callback w s' :
  (∀ p c s h sr s1 h1 sr1,
     closed s → p < length s →
     callback p c s h sr = Ret (s1, h1, sr1) →
     visit_effect media p c s s1) →
  walk_inv media root w →
  walk fuel callback w = Ret s' →
  ∀ n, reach s' root n → ¬ inlinable media s' n.
Proof.
  intros Hcb. revert w.
  assert (∀ w, walk_inv media root w → w_cur w = None → w_nodes w = [] →
               ∀ n, reach (w_store w) root n →
                    ¬ inlinable media (w_store w) n) as Hend.
  { intros w I Hcur Hnodes n Hn. apply (wi_settled _ _ _ I).
    by apply reach_settled. }
  induction fuel as [|fuel IH]; intros w I Hwalk.
  { cbn [walk] in Hwalk.
    destruct (w_cur w) as [[]|] eqn:Hcur, (w_nodes w) eqn:Hnodes;
      try done.
    simplify_eq. by apply Hend. }
  cbn [walk] in Hwalk. destruct (w_cur w) as [[p i]|] eqn:Hcur.
  - assert (match kids (w_store w) p !! i with
            | Some child =>
                '(s, href, src) ←
                  callback p child (w_store w) (w_href w) (w_src w);
                walk fuel callback
                  {| w_store := s; w_nodes := w_nodes w ++ [child];
                     w_cur := Some (p, S i);
                     w_href := href; w_src := src |}
            | None =>
                walk fuel callback
                  {| w_store := w_store w; w_nodes := w_nodes w;
                     w_cur := None;
                     w_href := w_href w; w_src := w_src w |}
            end = Ret s') as Hstep by (by destruct (w_nodes w)).
    clear Hwalk. destruct (kids (w_store w) p !! i) as [c|] eqn:Hi.
    + apply bind_Ret in Hstep as ([[s1 h1] sr1] & Hcall & Hstep).
      eapply IH; [|exact Hstep]. apply walk_inv_step; try done.
      eapply Hcb; [| |exact Hcall].
      * apply (wi_closed _ _ _ I).
      * by apply (wi_cur _ _ _ I _ i).
    + eapply IH; [|exact Hstep]. by eapply walk_inv_end.
  - destruct (w_nodes w) as [|p rest] eqn:Hnodes.
    + simplify_eq. by apply Hend.
    + eapply IH; [|exact Hwalk]. by apply walk_inv_shift.
Qed.

Lemma walk_inv_initial s :
  closed s → root < length s → tag s root = None →
  walk_inv media root
    {| w_store := s; w_nodes := [root]; w_cur := None;
       w_href := None; w_src := None |}.
Proof.
  intros Hclosed Hroot Htag.
  assert (¬ inlinable media s root) as Hgood.
  { intros [Hlink _]. congruence. }
  split; simpl; try done.
  - intros n [->|?%elem_of_nil]%elem_of_cons; done.
  - intros n Hn.
    assert (n = root) as ->; [|done].
    induction Hn as [|y x Hy -> Hx Hnp]; [done|].
    destruct Hnp. left. simpl. apply elem_of_cons. by left.
Qed.
End Walk.



(* ================================================================== *)
(** ** [convert] and the links to stylesheets *)
(* ================================================================== *)

Lemma closedb_closed (s : store) : closedb s = true → closed s.
Proof.
  unfold closedb. rewrite forallb_forall. intros Hs n c Hc.
  unfold kids in Hc. destruct (s !! n) as [nd|] eqn:Hn; simpl in Hc.
  - apply list_elem_of_lookup_2, list_elem_of_In, Hs in Hn.
    rewrite forallb_forall in Hn.
    apply list_elem_of_In, Hn in Hc. by apply bool_decide_eq_true_1 in Hc.
  - by apply elem_of_nil in Hc.
Qed.

(** A string is parsed first, and converted as the archive it gives. *)
Lemma convert_string `{Runtime} `{DOMProvider} fuel convertIframes mhtml D :
  convert fuel convertIframes (MhtmlString mhtml) = Ret D →
  ∃ st, parse_run mhtml false = Ret (inl st)
        ∧ convert fuel convertIframes (of_archive (archive_of st)) = Ret D.
Proof.
  unfold convert at 1. intros Hrun.
  apply bind_Ret in Hrun as ([st|html] & Hparse & Hrun); [|done].
  by exists st.
Qed.

Section Stylesheets.
Context `{Runtime} `{DOMProvider}.

Lemma processCSS_inlinable fuel media s c out :
  inlinable media s c →
  processCSS fuel media (getAttribute s c (str "href")) = Ret out →
  ∃ css, out = Some css.
Proof.
  intros (_ & _ & Htype). unfold processCSS, processCSS_with.
  destruct (get media _) as [entry|] eqn:Hget; [|done]. simpl in Htype.
  rewrite (proj2 (read_Own _ _ _) Hget).
  rewrite bool_decide_eq_false_2 by (intros Hne; apply Hne; congruence).
  intros Hrun. apply bind_Ret in Hrun as (decoded & _ & Hrun).
  destruct (replaceReferences _ _ _ _) as [css|]; [|done].
  simpl in Hrun. simplify_eq. by exists css.
Qed.

Lemma convert_no_inlinable fuel convertIframes (A : archive) D n :
  wf_provider →
  convert fuel convertIframes (of_archive A) = Ret D →
  reach (d_store D) (d_document D) n →
  ¬ inlinable (media A) (d_store D) n.
Proof.
  intros Hwf. unfold convert, of_archive.
  destruct (index A) as [idx|]; [|by destruct fuel].
  rewrite convert_object_unfold. intros Hrun.
  apply bind_Ret in Hrun as (_ & _ & Hrun).
  apply bind_Ret in Hrun as (d & Hd & Hrun).
  apply bind_Ret in Hrun as (s & Hwalk & Hrun).
  simpl in Hrun. simplify_eq. simpl.
  apply lift_Ret, Hwf in Hd as (Hdoc & Htag & Hclosed).
  eapply walk_no_inlinable; [|by apply walk_inv_initial|exact Hwalk].
  intros p c s0 h sr s1 h1 sr1 Hc Hp Hcall.
  by eapply visit_visit_effect.
Qed.

(** C2, as the source has it: [convert] looks the [href] of a [link] up
    in [media] as it stands. A [link] whose [rel] is [stylesheet] and
    whose [href] is, as it stands, a key of [media] for a resource of
    type [text/css], is replaced among the children of its parent by a
    new [style] element of type [text/css] whose only child is a text
    node with what [processCSS] returns for that key; and no node of a
    document [convert] returns is such a [link], whenever the DOM
    provider returns well-formed documents. *)
Theorem link_stylesheet_inlined fuel convertIframes (A : archive) D :
  wf_provider →
  convert fuel convertIframes (of_archive A) = Ret D →
  (∀ n, reach (d_store D) (d_document D) n →
        ¬ inlinable (media A) (d_store D) n)
  ∧ (∀ recur index p c s h sr s' h' sr',
       closed s → p < length s → p ≠ c → inlinable (media A) s c →
       visit fuel recur convertIframes (frames A) (media A) index
         p c s h sr = Ret (s', h', sr') →
       ∃ css st tx,
         processCSS fuel (media A) (getAttribute s c (str "href"))
         = Ret (Some css)
         ∧ length s ≤ st
         ∧ style_with_text s' st tx css
         ∧ kids s' p = replace_first st c (kids s p)).
Proof.
  intros Hwf Hrun. split.
  { intros n. by eapply convert_no_inlinable. }
  intros recur index p c s h sr s' h' sr' Hclosed Hp Hpc Hin Hcall.
  apply visit_cases in Hcall as [[Hno _]|(s1 & css & Hg & -> & Hcss)];
    [done|].
  destruct (Hcss Hin) as (out & Hout & ->).
  destruct (processCSS_inlinable _ _ _ _ _ Hin Hout) as [css ->].
  exists css, (length s1), (S (length s1)). split; [done|].
  split; [apply (g_length _ _ _ Hg)|].
  by apply (replaceChild_new_style_effect (media A)).
Qed.
End Stylesheets.

Lemma Ex6_converted :
  convert (H := Sample.runtime) (H0 := Ex6.provider) 100 false
    (of_archive Ex6.page)
  = Ret Ex6.converted.
Proof. vm_compute. reflexivity. Qed.

Lemma Ex6_reach : reach (d_store Ex6.converted) 0 5.
Proof.
  apply (reach_child _ _ 2); [apply (reach_child _ _ 1)|];
    [apply (reach_child _ _ 0); [apply reach_root|]| |];
    vm_compute; repeat constructor.
Qed.

Lemma Ex6_wf_provider : wf_provider (H := Ex6.provider).
Proof.
  intros html d. simpl. case_bool_decide; [|done]. intros [= <-].
  split_and!; [vm_compute; lia|done|].
  apply closedb_closed. vm_compute. reflexivity.
Qed.

(** C2, witness: in the document made of the page [Ex6.page], the
    second link, whose [href] is no key of [media], is no link that
    [convert] inlines. *)
Lemma link_stylesheet_inlined_witness :
  wf_provider (H := Ex6.provider)
  ∧ convert (H := Sample.runtime) (H0 := Ex6.provider) 100 false
      (of_archive Ex6.page)
    = Ret Ex6.converted
  ∧ reach (d_store Ex6.converted) 0 5
  ∧ ¬ inlinable (media Ex6.page) (d_store Ex6.converted) 5.
Proof.
  split_and!;
    [exact Ex6_wf_provider | exact Ex6_converted | exact Ex6_reach |].
  exact (proj1 (link_stylesheet_inlined (H := Sample.runtime)
                  (H0 := Ex6.provider) 100 false Ex6.page Ex6.converted
                  Ex6_wf_provider Ex6_converted) 5 Ex6_reach).
Defined.

(** C2, counterexample to the claim as stated. The second link of
    [Ex6.page] has the [href] [s.css], which the resolver, with the
    index of the archive as its base, resolves to the stylesheet of the
    archive, of type [text/css]: by the join against the base and, were
    that to fail, by the name of the file. The document [convert]
    returns still has that link in its [head]. *)
Lemma link_relative_href_kept :
  convert (H := Sample.runtime) (H0 := Ex6.provider) 100 false
    (of_archive Ex6.page)
  = Ret Ex6.converted
  ∧ reach (d_store Ex6.converted) 0 5
  ∧ tag (d_store Ex6.converted) 5 = Some (str "LINK")
  ∧ getAttribute (d_store Ex6.converted) 5 (str "rel")
    = Some (str "stylesheet")
  ∧ getAttribute (d_store Ex6.converted) 5 (str "href") = Some (str "s.css")
  ∧ findAsset (H := Sample.runtime) (media Ex6.page)
      (Some Ex6.location) (str "s.css")
    = Ret (Some (str "http://e.com/s.css", Own Ex6.sheet))
  ∧ resolve_as_specified (H := Sample.runtime) (media Ex6.page)
      Ex6.location (str "s.css")
    = Some (str "http://e.com/s.css", Ex6.sheet)
  ∧ type Ex6.sheet = str "text/css".
Proof.
  split_and!; [exact Ex6_converted | exact Ex6_reach | | | | | |];
    vm_compute; reflexivity.
Qed.


(* ================================================================== *)
(** ** [parse] ends within its fuel *)
(* ================================================================== *)

Lemma bind_Throw {A B} (m : res A) (f : A → res B) (e : exn) :
  m ≫= f = Throw e ↔ m = Throw e ∨ ∃ a, m = Ret a ∧ f a = Throw e.
Proof.
  destruct m as [a|e']; simpl; split.
  - intros Hf. right. by exists a.
  - by intros [?|(a' & [= <-] & Hf)].
  - intros [= <-]. by left.
  - by intros [[= <-]|(a' & ? & _)].
Qed.

Section Fuel.
Context `{Runtime}.
Implicit Types (mhtml rest : jsstring) (i l : nat).

Lemma trim_loop_bounds rest i l i' l' :
  trim_loop rest i l = Ret (i', l') → i ≤ i' ≤ i + length rest.
Proof.
  revert i l. induction rest as [|c rest IH]; intros i l; [done|].
  simpl. destruct rest as [|c' rest]; [done|].
  destruct (is_space c); [|intros; simplify_eq; lia].
  intros Hrun%IH. simpl in *. lia.
Qed.

Lemma trim_loop_fuel rest i l : trim_loop rest i l ≠ Throw OutOfFuel.
Proof.
  revert i l. induction rest as [|c rest IH]; intros i l; [done|].
  simpl. destruct rest as [|c' rest]; [done|].
  destruct (is_space c); [apply IH|done].
Qed.

Lemma getLine_loop_bounds rest i k :
  getLine_loop rest i = Ret k → i ≤ k < i + length rest.
Proof.
  revert i. induction rest as [|c rest IH]; intros i; [done|].
  simpl. destruct (c =? 10)%N; [intros; simplify_eq; lia|].
  destruct rest as [|c' rest]; [done|].
  intros Hrun%IH. simpl in *. lia.
Qed.

Lemma getLine_loop_fuel rest i : getLine_loop rest i ≠ Throw OutOfFuel.
Proof.
  revert i. induction rest as [|c rest IH]; intros i; [done|].
  simpl. destruct (c =? 10)%N; [done|].
  destruct rest as [|c' rest]; [done|apply IH].
Qed.

Lemma trim_bounds mhtml i l i' l' :
  i ≤ length mhtml → trim mhtml i l = Ret (i', l') →
  i ≤ i' ≤ length mhtml.
Proof.
  intros Hi Hrun%trim_loop_bounds. rewrite length_drop in Hrun. lia.
Qed.

Lemma getLine_bounds mhtml i l encoding line i' l' :
  i ≤ length mhtml → getLine mhtml i l encoding = Ret (line, i', l') →
  i < i' ≤ length mhtml.
Proof.
  intros Hi Hrun. unfold getLine in Hrun.
  apply bind_Ret in Hrun as (k & Hk%getLine_loop_bounds & Hrun).
  rewrite length_drop in Hk.
  assert (i' = S k) as ->; [|lia].
  repeat case_bool_decide; [|by simplify_eq..].
  apply bind_Ret in Hrun as (? & _ & Hrun). simpl in Hrun. by simplify_eq.
Qed.

Lemma getLine_fuel mhtml i l encoding :
  getLine mhtml i l encoding ≠ Throw OutOfFuel.
Proof.
  unfold getLine. intros [Hk|(k & _ & Hrun)]%bind_Throw.
  - by apply getLine_loop_fuel in Hk.
  - repeat case_bool_decide; [|done..].
    apply bind_Throw in Hrun as [Hd|(? & _ & ?)]; [|done].
    by destruct (QuotedPrintable_decode _).
Qed.

Lemma data_loop_bounds fuel mhtml encoding boundary r heap next i l
    heap' i' l' :
  i ≤ length mhtml →
  data_loop fuel mhtml encoding boundary r heap next i l
  = Ret (heap', i', l') →
  i ≤ i' ≤ length mhtml.
Proof.
  revert heap next i l. induction fuel as [|fuel IH]; intros heap next i l Hi;
    simpl; destruct (includes _ _); try (intros; simplify_eq; lia); try done.
  intros Hrun. apply bind_Ret in Hrun as ([[next' i1] l1] & Hline & Hrun).
  apply getLine_bounds in Hline; [|done]. apply IH in Hrun; lia.
Qed.

Lemma data_loop_fuel fuel mhtml encoding boundary r heap next i l :
  i ≤ length mhtml → length mhtml - i < fuel →
  data_loop fuel mhtml encoding boundary r heap next i l ≠ Throw OutOfFuel.
Proof.
  revert heap next i l.
  induction fuel as [|fuel IH]; intros heap next i l Hi Hfuel; [lia|].
  simpl. destruct (includes _ _); [done|].
  intros [Hline|([[next' i1] l1] & Hline & Hrun)]%bind_Throw.
  - by apply getLine_fuel in Hline.
  - apply getLine_bounds in Hline; [|done]. apply IH in Hrun; [done|lia..].
Qed.
End Fuel.

Section ParseFuel.
Context `{Runtime}.
Implicit Types (mhtml : jsstring) (s : pstate).

(** Applies the bounds of [getLine], [trim] and [data_loop] to the
    calls in the context. *)
Ltac bounds :=
  repeat match goal with
    | Hl : getLine _ _ _ _ = Ret _ |- _ =>
        apply getLine_bounds in Hl; [|lia]
    | Hl : trim _ _ _ = Ret _ |- _ => apply trim_bounds in Hl; [|lia]
    | Hl : data_loop _ _ _ _ _ _ _ _ _ = Ret _ |- _ =>
        apply data_loop_bounds in Hl; [|lia]
    end.

(** Takes the binds of a hypothesis apart, as far as they go. *)
Ltac binds H :=
  repeat first
    [ apply bind_Ret in H as ([[? ?] ?] & ? & H)
    | apply bind_Ret in H as ([? ?] & ? & H)
    | apply bind_Ret in H as (? & ? & H) ].

Lemma step_progress mhtml htmlOnly s s' :
  s_state s ≠ MHTML_END → s_i s ≤ length mhtml →
  step mhtml htmlOnly s = Ret (inl s') →
  s_i s < s_i s' ≤ length mhtml.
Proof.
  intros Hstate Hi Hstep. unfold step in Hstep.
  destruct (s_state s); [| | |done].
  - apply bind_Ret in Hstep as ([[next i] l] & Hline & Hstep).
    destruct (is_header_line next); binds Hstep;
      simpl in Hstep; simplify_eq; simpl; bounds; lia.
  - apply bind_Ret in Hstep as ([[next i] l] & Hline & Hstep).
    destruct (is_header_line next); binds Hstep;
      simpl in Hstep; simplify_eq; simpl; bounds; lia.
  - binds Hstep. destruct (_ && _); simpl in Hstep; simplify_eq.
    simpl; bounds; lia.
Qed.

Lemma splitHeaders_fuel l key line obj :
  splitHeaders l key line obj ≠ Throw OutOfFuel.
Proof. unfold splitHeaders. by repeat case_match. Qed.

Lemma trim_fuel mhtml i l : trim mhtml i l ≠ Throw OutOfFuel.
Proof. apply trim_loop_fuel. Qed.

(** Closes a goal with a hypothesis [H] by which a run that is made of
    binds used up its fuel, when none of its calls can have. *)
Ltac fuel_left H :=
  repeat match type of H with
    | _ ≫= _ = Throw OutOfFuel =>
        apply bind_Throw in H as [H|(? & ? & H)]
    | (let '(_, _) := ?a in _) = Throw OutOfFuel => destruct a
    end;
  try (by apply getLine_fuel in H);
  try (by apply trim_fuel in H);
  try (by apply splitHeaders_fuel in H);
  try (by unfold lift, assert in H; repeat case_match).

Lemma step_fuel mhtml htmlOnly s :
  s_i s ≤ length mhtml → step mhtml htmlOnly s ≠ Throw OutOfFuel.
Proof.
  intros Hi Hstep. unfold step in Hstep.
  destruct (s_state s); [| | |done].
  - apply bind_Throw in Hstep as [Hstep|([[next i] l] & Hline & Hstep)];
      [by apply getLine_fuel in Hstep|].
    destruct (is_header_line next).
    + fuel_left Hstep.
    + fuel_left Hstep.
  - apply bind_Throw in Hstep as [Hstep|([[next i] l] & Hline & Hstep)];
      [by apply getLine_fuel in Hstep|].
    destruct (is_header_line next).
    + fuel_left Hstep.
    + fuel_left Hstep.
  - apply bind_Throw in Hstep as [Hstep|(r & _ & Hstep)];
      [by destruct (s_asset s)|].
    apply bind_Throw in Hstep as [Hstep|([[next i] l] & Hline & Hstep)];
      [by apply getLine_fuel in Hstep|].
    apply getLine_bounds in Hline; [|done].
    apply bind_Throw in Hstep as [Hstep|([[heap i'] l'] & _ & Hstep)].
    + apply data_loop_fuel in Hstep; [done|lia..].
    + by destruct (_ && _).
Qed.

Lemma parse_loop_fuel fuel mhtml htmlOnly s :
  s_i s ≤ length mhtml → length mhtml - s_i s < fuel →
  parse_loop fuel mhtml htmlOnly s ≠ Throw OutOfFuel.
Proof.
  revert s. induction fuel as [|fuel IH]; intros s Hi Hfuel; [lia|].
  simpl. case_bool_decide as Hend; [done|].
  intros [Hstep|([s'|html] & Hstep & Hloop)]%bind_Throw; [| |done].
  - by apply step_fuel in Hstep.
  - apply step_progress in Hstep; [|done..].
    apply IH in Hloop; [done|lia..].
Qed.

(** [parse] ends within the fuel [parse_run] gives it. *)
Lemma parse_run_fuel mhtml htmlOnly :
  parse_run mhtml htmlOnly ≠ Throw OutOfFuel.
Proof. apply parse_loop_fuel; simpl; lia. Qed.
End ParseFuel.


(* ================================================================== *)
(** ** [parse] on the text of an archive *)
(* ================================================================== *)

(** Decides a membership in a list of literals. *)
Ltac closed_mem :=
  match goal with
  | |- ?P => apply (bool_decide_eq_true_1 P); vm_compute; reflexivity
  end.
(** Refutes a membership [H] of a literal in a list of literals. *)
Ltac closed_notin H :=
  exfalso;
  repeat (apply elem_of_cons in H as [H|H]; [discriminate H|]);
  by apply elem_of_nil in H.

Section Numerals.
Implicit Types (s t : jsstring) (c : N).

Lemma span_app (p : N → bool) s a b :
  span p s = (a, b) → s = a ++ b ∧ Forall (λ c, p c = true) a.
Proof.
  revert a b. induction s as [|c s IH]; intros a b; simpl.
  - by intros [= <- <-].
  - destruct (p c) eqn:Hc; [|by intros [= <- <-]].
    destruct (span p s) as [a' b'] eqn:Hs. intros [= <- <-].
    destruct (IH _ _ eq_refl) as [-> Ha]. split; [done|]. by constructor.
Qed.

Lemma numeric_digit c : is_digit c = true → numeric c = true.
Proof. unfold numeric. by intros ->. Qed.

Lemma exponent_part_numeric r e :
  exponent_part r = Some e → Forall (λ c, numeric c = true) r.
Proof.
  unfold exponent_part. destruct r as [|x r]; [by constructor|].
  case_bool_decide as Hx; [|done].
  assert (numeric x = true) as Hnx.
  { unfold numeric. rewrite orb_true_iff. right.
    apply bool_decide_eq_true_2.
    apply elem_of_cons in Hx as [->|Hx%list_elem_of_singleton];
      subst; closed_mem. }
  assert (∀ ds, bool_decide (ds ≠ []) && forallb is_digit ds = true →
                Forall (λ c, numeric c = true) ds) as Hds.
  { intros ds [_ Hd]%andb_true_iff. rewrite forallb_forall in Hd.
    apply Forall_forall. intros c Hc%list_elem_of_In.
    by apply numeric_digit, Hd. }
  destruct r as [|y r].
  { simpl. done. }
  assert (numeric 43 = true ∧ numeric 45 = true) as [H43 H45] by done.
  destruct (decide (y = 43%N)) as [->|]; [|destruct (decide (y = 45%N)) as [->|]].
  - destruct (_ && _) eqn:E; [|done]. intros _.
    constructor; [done|]. constructor; [done|]. by apply Hds.
  - destruct (_ && _) eqn:E; [|done]. intros _.
    constructor; [done|]. constructor; [done|]. by apply Hds.
  - assert ((let '(neg, ds) :=
               match y :: r with
               | 43%N :: ds => (false, ds)
               | 45%N :: ds => (true, ds)
               | _ => (false, y :: r)
               end in
             if bool_decide (ds ≠ []) && forallb is_digit ds
             then Some (if neg then (- Z.of_N (digits_value ds))%Z
                        else Z.of_N (digits_value ds))
             else None)
            = if bool_decide (y :: r ≠ []) && forallb is_digit (y :: r)
              then Some (Z.of_N (digits_value (y :: r))) else None) as ->.
    { destruct y as [|y]; [done|].
      do 6 (destruct y as [y|y|]; try done). }
    destruct (_ && _) eqn:E; [|done]. intros _.
    constructor; [done|]. by apply Hds.
Qed.

Lemma decimal_zero_numeric t :
  decimal_zero t = true → Forall (λ c, numeric c = true) t.
Proof.
  unfold decimal_zero.
  set (u := match t with 43%N :: u => u | 45%N :: u => u | _ => t end).
  assert (Forall (λ c, numeric c = true) u →
          Forall (λ c, numeric c = true) t) as Hsign.
  { unfold u. destruct t as [|x t]; [done|].
    destruct (decide (x = 43%N)) as [->|];
      [by constructor|destruct (decide (x = 45%N)) as [->|]];
      [by constructor|].
    destruct x as [|x]; [done|].
    do 6 (destruct x as [x|x|]; try done). }
  destruct (span is_digit u) as [ip r1] eqn:Hip.
  apply span_app in Hip as [Hu Hipd].
  assert (Forall (λ c, numeric c = true) ip) as Hipn.
  { eapply Forall_impl; [done|]. intros c. apply numeric_digit. }
  intros Hz. apply Hsign. rewrite Hu. apply Forall_app. split; [done|].
  destruct r1 as [|x r].
  { by constructor. }
  destruct (decide (x = 46%N)) as [->|Hx].
  - destruct (span is_digit r) as [fp r2] eqn:Hfp.
    apply span_app in Hfp as [-> Hfpd].
    destruct (_ || _); [|done].
    destruct (exponent_part r2) as [e|] eqn:He; [|done].
    constructor; [done|]. apply Forall_app. split.
    + eapply Forall_impl; [done|]. intros c. apply numeric_digit.
    + by eapply exponent_part_numeric.
  - assert (∀ (A : Type) (f g : A),
              match x with 46%N => f | _ => g end = g) as Hm.
    { intros A f g. destruct x as [|x]; [done|].
      do 6 (destruct x as [x|x|]; try done). }
    rewrite Hm in Hz.
    assert (is_Some (exponent_part (x :: r))) as Hex.
    { destruct (_ || _); [|done].
      destruct (exponent_part _); [by eexists|done]. }
    destruct Hex as [e He]. by eapply exponent_part_numeric.
Qed.

Lemma nondecimal_zero_colon t : 58%N ∈ t → nondecimal_zero t = false.
Proof.
  intros Ht. unfold nondecimal_zero. destruct t as [|a [|p ds]]; try done.
  { by destruct a as [|a]; [|do 6 (destruct a as [a|a|]; try done)]. }
  destruct (decide (a = 48%N)) as [->|];
    [|by destruct a as [|a]; [|do 6 (destruct a as [a|a|]; try done)]].
  destruct (bool_decide (p ∈ _)) eqn:Hp; [|done].
  destruct (bool_decide (ds ≠ [])); [|done]. simpl.
  apply bool_decide_eq_true_1 in Hp.
  apply not_true_is_false. unfold all_zeros. rewrite forallb_forall.
  intros Hz.
  apply elem_of_cons in Ht as [?|Ht]; [done|].
  apply elem_of_cons in Ht as [<-|Ht].
  - closed_notin Hp.
  - apply list_elem_of_In, Hz in Ht. done.
Qed.

(** A text with a colon is no number. *)
Lemma loose_eq_zero_colon s : 58%N ∈ s → loose_eq_zero s = false.
Proof.
  intros Hs. unfold loose_eq_zero.
  assert (∀ w, 58%N ∈ w → 58%N ∈ drop_space w) as Hdrop.
  { induction w as [|c w IH]; [done|]. simpl.
    destruct (is_space c) eqn:Hc; [|done].
    intros [<-|?]%elem_of_cons; [by vm_compute in Hc|auto]. }
  assert (58%N ∈ str_trim s) as Ht.
  { unfold str_trim. rewrite elem_of_reverse. apply Hdrop.
    rewrite elem_of_reverse. by apply Hdrop. }
  rewrite bool_decide_eq_false_2
    by (intros E; rewrite E in Ht; by apply elem_of_nil in Ht).
  rewrite nondecimal_zero_colon by done.
  simpl. apply not_true_is_false. intros Hd%decimal_zero_numeric.
  rewrite Forall_forall in Hd. by specialize (Hd _ Ht).
Qed.

Lemma is_header_line_colon s : 58%N ∈ s → is_header_line s = true.
Proof.
  intros Hs. unfold is_header_line. rewrite loose_eq_zero_colon by done.
  apply bool_decide_eq_true_2. intros ->. closed_notin Hs.
Qed.

End Numerals.


(* ================================================================== *)
(** ** More on [findAsset], [replaceReferences] and [processCSS] *)
(* ================================================================== *)

Section Rewriter.
Context `{Runtime}.
Implicit Types (media : jsobj asset) (css reference : jsstring).


End Rewriter.



Section RewriterCursor.
Context `{Runtime}.
Implicit Types (media : jsobj asset) (css reference : jsstring).

(** An occurrence found from [from] on is not before [from]. *)
Lemma indexOf_from pat s from :
  pat ≠ [] → (0 ≤ from)%Z → (0 ≤ indexOf pat s from)%Z →
  (from ≤ indexOf pat s from)%Z
  ∧ (indexOf pat s from + len pat ≤ len s)%Z.
Proof.
  intros Hpat Hfrom Hfound.
  destruct (indexOf_found _ _ _ Hfound) as (j & Hj & Hlen & _).
  assert (0 < length pat) by (destruct pat; [done|simpl; lia]).
  unfold len. split; [|lia].
  unfold indexOf in *.
  destruct (search pat _ _) as [p|] eqn:Hsearch; [|lia].
  apply search_Some in Hsearch as (Hk & _). unfold clamp, len in Hk. lia.
Qed.

Lemma take_substring_0 s (i : Z) rest :
  (0 ≤ i ≤ len s)%Z →
  take (Z.to_nat i) (substring s 0 i ++ rest) = take (Z.to_nat i) s.
Proof.
  intros Hi. unfold len in Hi.
  rewrite <- (Z2Nat.id i) at 2 by lia.
  rewrite substring_0 by lia.
  rewrite take_app_le by (rewrite length_take; lia).
  rewrite take_take. f_equal. lia.
Qed.

Lemma replaceReferences_from_prefix fuel media base css i out :
  (0 ≤ i)%Z →
  replaceReferences_from fuel media base css i = Ret out →
  take (Z.to_nat i) out = take (Z.to_nat i) css.
Proof.
  revert css i. induction fuel as [|fuel IH]; intros css i Hi; [done|].
  cbn [replaceReferences_from].
  destruct (0 <? indexOf CSS_URL_RULE css i)%Z eqn:Hpos;
    [|by intros [= ->]].
  apply Z.ltb_lt in Hpos.
  destruct (indexOf_from CSS_URL_RULE css i) as [Hge Hle]; [done|lia..|].
  set (i2 := (indexOf CSS_URL_RULE css i + len CSS_URL_RULE)%Z) in *.
  set (reference := substring css i2 (indexOf (str ")") css i2)).
  intros Hrun.
  apply bind_Ret in Hrun as (found & _ & Hrun).
  apply bind_Ret in Hrun as (css' & Hcss' & Hrun).
  assert (take (Z.to_nat i2) css' = take (Z.to_nat i2) css) as Hkeep.
  { destruct found as [[path [|entry|]]|]; [| | |by simplify_eq].
    2: apply bind_Ret in Hcss' as (assetData & _ & Hcss').
    all: destruct (Base64_encode _); simplify_eq; [|done].
    all: apply take_substring_0; unfold i2, len in *; lia. }
  apply IH in Hrun; [|unfold i2, len; lia].
  assert (Z.to_nat i ≤ Z.to_nat i2) by (unfold i2, len; lia).
  assert (Z.to_nat i2 ≤ Z.to_nat (i2 + len reference))
    by (unfold len; lia).
  rewrite <- (Nat.min_l (Z.to_nat i) (Z.to_nat (i2 + len reference)))
    by lia.
  rewrite <- !take_take, Hrun, !take_take.
  rewrite (Nat.min_l _ _) by lia.
  rewrite <- (Nat.min_l (Z.to_nat i) (Z.to_nat i2)) by lia.
  by rewrite <- !take_take, Hkeep.
Qed.

(** X2: [replaceReferences] never touches the text before its cursor:
    what it returns agrees with the text it was given up to the end of
    the first [url(] after the start of the text. *)
Theorem replaceReferences_keeps_prefix fuel media base css out :
  (0 < indexOf CSS_URL_RULE css 0)%Z →
  replaceReferences fuel media base css = Ret out →
  take (Z.to_nat (indexOf CSS_URL_RULE css 0) + 4) out
  = take (Z.to_nat (indexOf CSS_URL_RULE css 0) + 4) css.
Proof.
  intros Hpos. unfold replaceReferences. destruct fuel as [|fuel]; [done|].
  cbn [replaceReferences_from]. rewrite (proj2 (Z.ltb_lt _ _) Hpos).
  destruct (indexOf_from CSS_URL_RULE css 0) as [_ Hle]; [done|lia..|].
  set (i2 := (indexOf CSS_URL_RULE css 0 + len CSS_URL_RULE)%Z) in *.
  set (reference := substring css i2 (indexOf (str ")") css i2)).
  assert (Z.to_nat (indexOf CSS_URL_RULE css 0) + 4 = Z.to_nat i2) as ->.
  { unfold i2. change (len CSS_URL_RULE) with 4%Z. lia. }
  intros Hrun.
  apply bind_Ret in Hrun as (found & _ & Hrun).
  apply bind_Ret in Hrun as (css' & Hcss' & Hrun).
  assert (take (Z.to_nat i2) css' = take (Z.to_nat i2) css) as Hkeep.
  { destruct found as [[path [|entry|]]|]; [| | |by simplify_eq].
    2: apply bind_Ret in Hcss' as (assetData & _ & Hcss').
    all: destruct (Base64_encode _); simplify_eq; [|done].
    all: apply take_substring_0; unfold i2, len in *; lia. }
  apply replaceReferences_from_prefix in Hrun; [|unfold i2, len; lia].
  assert (Z.to_nat i2 ≤ Z.to_nat (i2 + len reference))
    by (unfold len; lia).
  rewrite <- (Nat.min_l (Z.to_nat i2) (Z.to_nat (i2 + len reference)))
    by lia.
  by rewrite <- !take_take, Hrun, !take_take, (Nat.min_l _ _), Hkeep by lia.
Qed.
End RewriterCursor.

(** X2, witness: an image reference behind a selector. *)
Lemma replaceReferences_keeps_prefix_witness :
  take (Z.to_nat (indexOf CSS_URL_RULE (str "a{b:url(http://e.com/a.png)}") 0)
        + 4)
    (str "a{b:url('data:image/png;base64,QUJD')}")
  = take (Z.to_nat (indexOf CSS_URL_RULE (str "a{b:url(http://e.com/a.png)}") 0)
          + 4)
      (str "a{b:url(http://e.com/a.png)}").
Proof.
  apply (replaceReferences_keeps_prefix (H := Sample.runtime) 9
           Ex.media_png (Some Ex.base)).
  - vm_compute. reflexivity.
  - vm_compute. reflexivity.
Defined.

Section RewriterIdle.
Context `{Runtime}.
Implicit Types (media : jsobj asset) (css reference : jsstring).


End RewriterIdle.


Section SelfReference.
Context `{Runtime}.
Implicit Types (media : jsobj asset) (css reference : jsstring).

Lemma findAsset_direct media base reference entry :
  get media (remove_chars [34; 39]%N reference) = Some entry →
  findAsset media base reference
  = Ret (Some (remove_chars [34; 39]%N reference, Own entry)).
Proof.
  intros Hget. unfold findAsset. by rewrite (proj2 (read_Own _ _ _) Hget).
Qed.

Lemma processCSS_with_stylesheet replace media path entry css :
  get media path = Some entry →
  type entry = str "text/css" →
  decoded_data entry = Ret css →
  processCSS_with replace media (Some path)
  = Some <$> replace media (Some path) css.
Proof.
  intros Hget Htype Hdata. unfold processCSS_with. simpl.
  rewrite (proj2 (read_Own _ _ _) Hget).
  rewrite bool_decide_eq_false_2 by (intros Hne; by apply Hne).
  by rewrite Hdata.
Qed.

(** X4: a stylesheet whose first [url(] after the start of its text
    names the stylesheet itself is never done with: [processCSS] calls
    [replaceReferences], which finds the reference and calls
    [processCSS] for the same path again. Whatever the fuel, the run
    uses it up. *)
Theorem processCSS_self_reference fuel media path entry css :
  get media path = Some entry →
  type entry = str "text/css" →
  decoded_data entry = Ret css →
  (0 < indexOf CSS_URL_RULE css 0)%Z →
  (let i := (indexOf CSS_URL_RULE css 0 + len CSS_URL_RULE)%Z in
   remove_chars [34; 39]%N (substring css i (indexOf (str ")") css i))
   = path) →
  processCSS fuel media (Some path) = Throw OutOfFuel.
Proof.
  intros Hget Htype Hdata Hpos Href. cbv zeta in Href.
  induction fuel as [|fuel IH]; unfold processCSS;
    rewrite (processCSS_with_stylesheet _ _ _ _ _ Hget Htype Hdata);
    [done|].
  unfold replaceReferences. cbn [replaceReferences_from].
  rewrite (proj2 (Z.ltb_lt _ _) Hpos).
  rewrite (findAsset_direct _ _ _ entry) by (by rewrite Href).
  cbn [mbind res_bind]. rewrite Href, (bool_decide_eq_true_2 _ Htype).
  change (processCSS_with _ media (Some path))
    with (processCSS fuel media (Some path)).
  by rewrite IH.
Qed.
End SelfReference.

(** X4, witness: a stylesheet that imports itself. *)
Lemma processCSS_self_reference_witness :
  processCSS (H := Sample.runtime) 1000 Ex7.media
    (Some (str "http://e.com/s.css"))
  = Throw OutOfFuel.
Proof.
  apply (processCSS_self_reference (H := Sample.runtime) 1000 Ex7.media
           (str "http://e.com/s.css") Ex7.sheet
           (str "@import url('http://e.com/s.css');"));
    vm_compute; reflexivity.
Defined.


(* ================================================================== *)
(** ** More on [parse]: the index *)
(* ================================================================== *)

Section ParseIndex.
Context `{Runtime}.
Implicit Types (mhtml : jsstring) (s : pstate).

Lemma data_loop_types fuel mhtml enc boundary r heap next i l heap' i' l' :
  data_loop fuel mhtml enc boundary r heap next i l = Ret (heap', i', l') →
  ∀ k, type <$> heap' !! k = type <$> heap !! k.
Proof.
  revert heap next i l. induction fuel as [|fuel IH]; intros heap next i l;
    simpl; destruct (includes _ _); try (by intros [= <- _ _]); try done.
  intros Hl. bind_inv Hl. destruct a as [[next' i1] l1].
  intros k. rewrite (IH _ _ _ _ Hl k).
  destruct (decide (k = r)) as [->|Hne].
  - rewrite list_lookup_alter_eq. by destruct (heap !! r).
  - by rewrite list_lookup_alter_ne.
Qed.

Lemma decode_unicode_type (a : asset) : type (decode_unicode a) = type a.
Proof. unfold decode_unicode. by destruct (decodeURIComponent _). Qed.

Lemma index_ok_initial : index_ok initial.
Proof. split; simpl; [done|done|by intros [?|?]]. Qed.

(** A round that leaves [index], [media] and the heap alone and does
    not end in the data state keeps the invariant. *)
Lemma index_ok_same s s' :
  index_ok s →
  s_index s' = s_index s → s_media s' = s_media s →
  s_heap s' = s_heap s →
  s_state s' = MHTML_HEADERS ∨ s_state s' = MTHML_CONTENT →
  index_ok s'.
Proof.
  intros [Hn Hs Hst] Hi Hm Hh Hstate.
  split; rewrite ?Hi, ?Hm, ?Hh; try done.
  intros [Hd|Hd]; destruct Hstate as [He|He]; congruence.
Qed.

Lemma step_index_ok mhtml htmlOnly s s' :
  index_ok s → step mhtml htmlOnly s = Ret (inl s') → index_ok s'.
Proof.
  intros Hok. unfold step. destruct (s_state s) eqn:Hst.
  - (* headers *)
    intros Hs. bind_inv Hs. destruct a as [[next i] l].
    destruct (is_header_line next).
    + bind_inv Hs. destruct a as [key headers]. injection Hs as <-.
      apply (index_ok_same s); simpl; auto.
    + do 3 (bind_inv Hs). destruct a1 as [i1 l1].
      bind_inv Hs. destruct a1 as [[next2 i2] l2]. bind_inv Hs.
      injection Hs as <-.
      apply (index_ok_same s); simpl; auto.
  - (* part headers *)
    intros Hs. bind_inv Hs. destruct a as [[next i] l].
    destruct (is_header_line next).
    { bind_inv Hs. destruct a as [key content]. injection Hs as <-.
      apply (index_ok_same s); simpl; auto. }
    apply bind_Ret in Hs as (index' & Hindex & Hs).
    apply bind_Ret in Hs as (? & _ & Hs).
    apply bind_Ret in Hs as (encoding' & _ & Hs).
    apply bind_Ret in Hs as (type' & Htype%lift_Ret & Hs).
    apply bind_Ret in Hs as ([i1 l1] & _ & Hs).
    injection Hs as <-.
    destruct Hok as [Hnone Hsome Hstate].
    destruct (s_index s) as [u0|] eqn:Hidx.
    + (* the index is set already *)
      simpl in Hindex. simplify_eq.
      destruct (Hsome u0 eq_refl) as (Hm & a & Ha0 & Hta).
      split; simpl; [done| |done].
      intros u [= <-]. split.
      * intros Hown.
        destruct (get (s_content s) (str "Content-Location")) as [loc|];
          [|by apply Hm].
        apply get_register. left. by apply Hm.
      * exists a. split; [|done]. by apply lookup_app_l_Some.
    + (* the first part *)
      apply bind_Ret in Hindex as (? & Hassert%assert_Ret & Hindex).
      simpl in Hindex. simplify_eq.
      apply andb_true_iff in Hassert as [Hloc Hty].
      apply bool_decide_eq_true_1 in Hloc, Hty.
      destruct (Hnone eq_refl) as [Hm Hh]. rewrite Hm, Hh.
      rewrite Hty in Htype. simplify_eq.
      destruct (get (s_content s) (str "Content-Location")) as [loc|];
        [|done].
      split; simpl; [done| |done].
      intros u [= <-]. split; [|by eexists].
      intros Hown. unfold read. simpl.
      rewrite bool_decide_eq_false_2 by done. simpl.
      by rewrite bool_decide_eq_true_2.
  - (* data *)
    intros Hs. apply bind_Ret in Hs as (r & Hr & Hs).
    apply bind_Ret in Hs as ([[next i] l] & _ & Hs).
    apply bind_Ret in Hs as ([[heap i1] l1] & Hdata & Hs).
    destruct (_ && _); [done|]. injection Hs as <-.
    destruct Hok as [Hnone Hsome Hstate].
    assert (s_index s ≠ None) by (apply Hstate; by left).
    split; simpl; [done| |done].
    intros u Hu. destruct (Hsome u Hu) as (Hm & a & Ha0 & Hta).
    split; [done|].
    pose proof (data_loop_types _ _ _ _ _ _ _ _ _ _ _ _ Hdata 0) as Ht.
    rewrite Ha0 in Ht. simpl in Ht.
    destruct (heap !! 0) as [a1|] eqn:H1; [|done].
    simpl in Ht. injection Ht as Ht.
    destruct (decide (r = 0)) as [->|Hne].
    + exists (decode_unicode a1). rewrite list_lookup_alter_eq, H1.
      split; [done|]. rewrite decode_unicode_type. congruence.
    + exists a1. rewrite list_lookup_alter_ne by done.
      split; [done|congruence].
  - by intros [= <-].
Qed.


End ParseIndex.

Section ParseHtmlOnly.
Context `{Runtime}.
Implicit Types (mhtml : jsstring) (s : pstate).

(** Takes a successful round [Hs] of [step] apart: one goal for each
    way through it, with what it returned for [s']. *)
Ltac unbind Hs :=
  repeat first
    [ apply bind_Ret in Hs as ([[? ?] ?] & ? & Hs)
    | apply bind_Ret in Hs as ([? ?] & ? & Hs)
    | apply bind_Ret in Hs as (? & ? & Hs) ].
Ltac rounds Hs :=
  unfold step in Hs;
  destruct (s_state _) eqn:?;
  unbind Hs;
  try match type of Hs with
      | context [if ?b then _ else _] => destruct b eqn:?
      end;
  unbind Hs; simpl in Hs; simplify_eq.

(** Only under [htmlOnly] a round ends [parse]. *)
Lemma step_false_inl mhtml s html :
  step mhtml false s ≠ Ret (inr html).
Proof. intros Hs. rounds Hs. Qed.

Lemma parse_loop_false_inl fuel mhtml s html :
  parse_loop fuel mhtml false s ≠ Ret (inr html).
Proof.
  revert s. induction fuel as [|fuel IH]; intros s; simpl;
    case_bool_decide; try done.
  intros Hl. bind_inv Hl. destruct a as [s1|html1].
  - by apply IH in Hl.
  - by apply step_false_inl in Ha.
Qed.



(** The bodies recorded are never taken back; outside the data state
    none is added, and the machine does not stop. *)
Lemma step_bodies mhtml htmlOnly s s' :
  step mhtml htmlOnly s = Ret (inl s') →
  ∃ more, s_bodies s' = s_bodies s ++ more
          ∧ (s_state s ≠ MHTML_DATA → s_state s ≠ MHTML_END →
             more = [] ∧ s_state s' ≠ MHTML_END).
Proof.
  intros Hs. rounds Hs; simpl;
    try (exists []; by rewrite app_nil_r); by eexists.
Qed.


End ParseHtmlOnly.

Section ParseAPI.
Context `{Runtime} `{DOMProvider}.
Implicit Types (mhtml : jsstring) (A : archive).

Lemma parse_inl mhtml htmlOnly A :
  parse mhtml htmlOnly = Ret (inl A) →
  ∃ s, parse_run mhtml htmlOnly = Ret (inl s) ∧ A = archive_of s.
Proof.
  unfold parse. intros Hp.
  apply bind_Ret in Hp as ([s|html] & Hrun & Hp).
  - exists s. by simplify_eq.
  - apply bind_Ret in Hp as (d & _ & Hp). done.
Qed.



(** X7: under [htmlOnly], [parse] returns a document, never an
    archive. *)
Theorem parse_htmlOnly_document mhtml r :
  parse mhtml true = Ret r → ∃ d, r = inr d.
Proof.
  destruct r as [A|d]; [|by exists d].
  intros (s & Hrun & _)%parse_inl. exfalso.
  assert (∀ fuel s0, index_ok s0 → s_state s0 ≠ MHTML_END →
                     parse_loop fuel mhtml true s0 ≠ Ret (inl s)) as Hloop.
  { clear Hrun. induction fuel as [|fuel IH]; intros s0 Hok Hend; simpl;
      rewrite bool_decide_eq_false_2 by done; [done|].
    intros Hl. apply bind_Ret in Hl as ([s1|html] & Hstep & Hl); [|done].
    pose proof (step_index_ok _ _ _ _ Hok Hstep) as Hok1.
    destruct (step_bodies _ _ _ _ Hstep) as (more & _ & Hsame).
    destruct (decide (s_state s0 = MHTML_DATA)) as [Hdata|Hdata].
    - unfold step in Hstep. rewrite Hdata in Hstep.
      apply bind_Ret in Hstep as (r & _ & Hstep).
      apply bind_Ret in Hstep as ([[next i] l] & _ & Hstep).
      apply bind_Ret in Hstep as ([[heap i1] l1] & _ & Hstep).
      simpl in Hstep. rewrite bool_decide_eq_true_2 in Hstep; [done|].
      apply (io_state _ Hok). by left.
    - destruct (Hsame Hdata Hend) as [_ Hend1]. by apply (IH s1). }
  by apply (Hloop (S (length mhtml)) initial index_ok_initial).
Qed.

End ParseAPI.



(** X7, witness: the page of [Ex5.broken]. *)
Lemma parse_htmlOnly_document_witness :
  ∃ d, (inr Ex5.page_dom : archive + dom) = inr d.
Proof.
  apply (parse_htmlOnly_document (H := Sample.runtime) (H0 := Ex5.provider)
           Ex5.broken).
  vm_compute. reflexivity.
Defined.


Section ParseEnd.
Context `{Runtime} `{DOMProvider}.
Implicit Types (mhtml : jsstring).

Lemma getLine_loop_no_line_feed rest i :
  10%N ∉ rest → getLine_loop rest i = Throw (Error UnexpectedEOF).
Proof.
  revert i. induction rest as [|c rest IH]; intros i Hno; [done|].
  apply not_elem_of_cons in Hno as [Hc Hno]. simpl.
  destruct (c =? 10)%N eqn:Hc10; [apply N.eqb_eq in Hc10; congruence|].
  destruct rest; [done|]. by apply IH.
Qed.

(** X9: a text without a line feed, the empty text among them, is no
    archive: [parse] throws [Unexpected EOF], with either value of
    [htmlOnly], and so does [convert]. *)
Theorem parse_no_line_feed mhtml htmlOnly fuel convertIframes :
  10%N ∉ mhtml →
  parse mhtml htmlOnly = Throw (Error UnexpectedEOF)
  ∧ convert fuel convertIframes (MhtmlString mhtml)
    = Throw (Error UnexpectedEOF).
Proof.
  intros Hno.
  assert (∀ h, parse_run mhtml h = Throw (Error UnexpectedEOF)) as Hrun.
  { intros h. unfold parse_run. cbn [parse_loop].
    rewrite bool_decide_eq_false_2 by done.
    unfold step, getLine. simpl. rewrite drop_0.
    by rewrite getLine_loop_no_line_feed. }
  unfold parse, convert. by rewrite !Hrun.
Qed.

(** X10: [parse] ends, whatever the text: every round of its loop
    reads at least one character, so that the rounds are at most as
    many as the characters of the text, and one more. *)
Theorem parse_ends mhtml htmlOnly :
  (∃ r, parse_run mhtml htmlOnly = Ret r)
  ∨ (∃ e, parse_run mhtml htmlOnly = Throw e ∧ e ≠ OutOfFuel).
Proof.
  pose proof (parse_run_fuel mhtml htmlOnly) as Hfuel.
  destruct (parse_run mhtml htmlOnly) as [r|e]; [left; by exists r|].
  right. exists e. split; [done|]. by intros ->.
Qed.
End ParseEnd.

(** X9, witness: a line without its end. *)
Lemma parse_no_line_feed_witness :
  parse (H := Sample.runtime) (H0 := Ex5.provider)
    (str "MIME-Version: 1.0") true
  = Throw (Error UnexpectedEOF)
  ∧ convert (H := Sample.runtime) (H0 := Ex5.provider) 10 true
      (MhtmlString (str "MIME-Version: 1.0"))
    = Throw (Error UnexpectedEOF).
Proof.
  apply (parse_no_line_feed (H := Sample.runtime) (H0 := Ex5.provider)).
  vm_compute. intros Hin. by repeat (apply elem_of_cons in Hin as [?|Hin];
    [done|]); apply elem_of_nil in Hin.
Defined.


(* ================================================================== *)
(** ** More on [absoluteURL] *)
(* ================================================================== *)

Section Paths.
Implicit Types (s x y cur : jsstring) (c : N) (l : list jsstring).

Lemma split_aux_nonempty sep skip cur s : split_aux sep skip cur s ≠ [].
Proof.
  revert skip cur. induction s as [|c s IH]; intros skip cur; [done|].
  simpl. destruct skip; [|apply IH]. destruct (startsWith sep (c :: s));
    [done|apply IH].
Qed.

Lemma startsWith_unit c c' s : startsWith [c] (c' :: s) = (c =? c')%N.
Proof. simpl. by rewrite andb_true_r. Qed.

(** A text is split at a separator of one code unit piece by piece. *)
Lemma split_aux_app c cur x y :
  split_aux [c] 0 cur (x ++ c :: y)
  = split_aux [c] 0 cur x ++ split_aux [c] 0 [] y.
Proof.
  revert cur. induction x as [|c' x IH]; intros cur.
  - cbn [app split_aux]. by rewrite startsWith_unit, N.eqb_refl.
  - cbn [app split_aux]. rewrite !startsWith_unit.
    destruct (c =? c')%N; [|apply IH]. simpl. by rewrite IH.
Qed.

Lemma split_aux_whole c cur s :
  c ∉ s → split_aux [c] 0 cur s = [reverse cur ++ s].
Proof.
  revert cur. induction s as [|c' s IH]; intros cur Hno.
  - by rewrite app_nil_r.
  - apply not_elem_of_cons in Hno as [Hc Hno].
    cbn [split_aux]. rewrite startsWith_unit.
    destruct (c =? c')%N eqn:Heq; [apply N.eqb_eq in Heq; congruence|].
    rewrite IH by done. by rewrite reverse_cons, <- (assoc_L (++)).
Qed.

Lemma join_cons sep x l :
  l ≠ [] → join sep (x :: l) = x ++ sep ++ join sep l.
Proof. by destruct l. Qed.

Lemma join_snoc sep l x :
  l ≠ [] → join sep (l ++ [x]) = join sep l ++ sep ++ x.
Proof.
  induction l as [|y l IH]; [done|]. intros _.
  destruct l as [|z l]; [done|].
  change ((y :: z :: l) ++ [x]) with (y :: ((z :: l) ++ [x])).
  rewrite !join_cons, IH by done. by rewrite <- !(assoc_L (++)).
Qed.

(** Joining the pieces gives the text back. *)
Lemma join_split_aux c cur s :
  join [c] (split_aux [c] 0 cur s) = reverse cur ++ s.
Proof.
  revert cur. induction s as [|c' s IH]; intros cur.
  - simpl. by rewrite app_nil_r.
  - cbn [split_aux]. rewrite startsWith_unit.
    destruct (c =? c')%N eqn:Heq.
    + apply N.eqb_eq in Heq as <-. simpl length.
      rewrite join_cons by apply split_aux_nonempty.
      by rewrite IH.
    + rewrite IH, reverse_cons. by rewrite <- (assoc_L (++)).
Qed.

Lemma pop_snoc l x : pop (l ++ [x]) = l.
Proof.
  unfold pop. rewrite length_app. simpl.
  replace (length l + 1 - 1) with (length l) by lia.
  by rewrite take_app_length.
Qed.

Lemma indexOf_0_startsWith pat s :
  indexOf pat s 0 = 0%Z → startsWith pat s = true.
Proof.
  intros H0. destruct (indexOf_found pat s 0) as (j & Hj & _ & Hs); [lia|].
  assert (j = 0) as -> by lia. by rewrite drop_0 in Hs.
Qed.
End Paths.

Section RelativeURL.
Implicit Types (dir file name sub : jsstring).

Lemma split_slash_app x y :
  47%N ∉ y → split (str "/") (x ++ str "/" ++ y) = split (str "/") x ++ [y].
Proof.
  intros Hy. unfold split. change (str "/") with [47%N].
  change (x ++ [47%N] ++ y) with (x ++ 47%N :: y).
  by rewrite split_aux_app, (split_aux_whole _ _ y).
Qed.

Lemma split_slash_whole y : 47%N ∉ y → split (str "/") y = [y].
Proof. intros Hy. unfold split. change (str "/") with [47%N].
  by rewrite split_aux_whole. Qed.

Lemma join_split_slash x : join (str "/") (split (str "/") x) = x.
Proof. unfold split. change (str "/") with [47%N]. apply join_split_aux. Qed.

Lemma not_absolute_dot name :
  bool_decide (indexOf (str "http://") (46%N :: name) 0 = 0%Z)
  || bool_decide (indexOf (str "https://") (46%N :: name) 0 = 0%Z) = false.
Proof.
  apply orb_false_iff. split; apply bool_decide_eq_false_2;
    intros Hs%indexOf_0_startsWith; vm_compute in Hs; discriminate.
Qed.

Lemma not_absolute_plain name :
  47%N ∉ name →
  bool_decide (indexOf (str "http://") name 0 = 0%Z)
  || bool_decide (indexOf (str "https://") name 0 = 0%Z) = false.
Proof.
  intros Hno. apply orb_false_iff. split; apply bool_decide_eq_false_2;
    intros [r ->]%indexOf_0_startsWith%startsWith_spec; apply Hno;
    apply elem_of_app; left; vm_compute; repeat constructor.
Qed.

Lemma absoluteURL_step_push stack part :
  part ≠ str "." → part ≠ str ".." →
  absoluteURL_step stack part = stack ++ [part].
Proof.
  intros H1 H2. unfold absoluteURL_step.
  by rewrite !bool_decide_eq_false_2.
Qed.

(** X11: how [absoluteURL] resolves the three relative forms of a file
    name against the URL of a file: the name, alone or behind [./],
    takes the place of the last segment of the base; behind [../] it
    goes one directory up. *)
Theorem absoluteURL_relative dir file name :
  47%N ∉ file → 47%N ∉ name → name ≠ str "." → name ≠ str ".." →
  absoluteURL (Some (dir ++ str "/" ++ file)) name
  = Ret (dir ++ str "/" ++ name)
  ∧ absoluteURL (Some (dir ++ str "/" ++ file)) (str "./" ++ name)
    = Ret (dir ++ str "/" ++ name)
  ∧ ∀ sub, 47%N ∉ sub →
      absoluteURL (Some (dir ++ str "/" ++ sub ++ str "/" ++ file))
        (str "../" ++ name)
      = Ret (dir ++ str "/" ++ name).
Proof.
  intros Hfile Hname Hdot Hdots.
  assert (join (str "/") (split (str "/") dir ++ [name])
          = dir ++ str "/" ++ name) as Hjoin.
  { rewrite join_snoc by apply split_aux_nonempty.
    by rewrite join_split_slash. }
  assert ((47%N ∉ str ".") ∧ (47%N ∉ str "..")) as [Hd1 Hd2].
  { split; vm_compute; intros Hin;
      repeat (apply elem_of_cons in Hin as [?|Hin]; [done|]);
      by apply elem_of_nil in Hin. }
  split_and!.
  - unfold absoluteURL. rewrite not_absolute_plain by done.
    cbn [lift mbind res_bind].
    rewrite (split_slash_app dir file) by done. rewrite pop_snoc.
    rewrite (split_slash_whole name) by done.
    cbn [foldl]. by rewrite absoluteURL_step_push, Hjoin.
  - unfold absoluteURL. change (str "./" ++ name) with (46%N :: 47%N :: name).
    rewrite not_absolute_dot. cbn [lift mbind res_bind].
    rewrite (split_slash_app dir file) by done. rewrite pop_snoc.
    change (46%N :: 47%N :: name) with (str "." ++ str "/" ++ name).
    rewrite (split_slash_app (str ".") name) by done.
    rewrite (split_slash_whole (str ".")) by done.
    cbn [foldl app]. unfold absoluteURL_step at 2.
    rewrite bool_decide_eq_true_2 by done.
    by rewrite absoluteURL_step_push, Hjoin.
  - intros sub Hsub. unfold absoluteURL.
    change (str "../" ++ name) with (46%N :: 46%N :: 47%N :: name).
    rewrite not_absolute_dot. cbn [lift mbind res_bind].
    rewrite (assoc_L (++) dir (str "/")), (assoc_L (++) (dir ++ str "/") sub).
    rewrite (split_slash_app ((dir ++ str "/") ++ sub) file) by done.
    rewrite pop_snoc, <- (assoc_L (++) dir (str "/")).
    rewrite (split_slash_app dir sub) by done.
    change (46%N :: 46%N :: 47%N :: name)
      with (str ".." ++ str "/" ++ name).
    rewrite (split_slash_app (str "..") name) by done.
    rewrite (split_slash_whole (str "..")) by done.
    cbn [foldl app]. unfold absoluteURL_step at 2.
    rewrite bool_decide_eq_false_2 by (by vm_compute).
    rewrite bool_decide_eq_true_2 by done.
    by rewrite pop_snoc, absoluteURL_step_push, Hjoin.
Qed.
End RelativeURL.

(** X11, witness: a stylesheet next to the page, and an image above
    it. *)
Lemma absoluteURL_relative_witness :
  absoluteURL (Some (str "http://e.com/css" ++ str "/" ++ str "s.css"))
    (str "a.png")
  = Ret (str "http://e.com/css" ++ str "/" ++ str "a.png")
  ∧ absoluteURL (Some (str "http://e.com/css" ++ str "/" ++ str "s.css"))
      (str "./" ++ str "a.png")
    = Ret (str "http://e.com/css" ++ str "/" ++ str "a.png")
  ∧ ∀ sub, 47%N ∉ sub →
      absoluteURL
        (Some (str "http://e.com/css" ++ str "/" ++ sub ++ str "/"
               ++ str "s.css"))
        (str "../" ++ str "a.png")
      = Ret (str "http://e.com/css" ++ str "/" ++ str "a.png").
Proof.
  apply (absoluteURL_relative (str "http://e.com/css") (str "s.css")
           (str "a.png"));
    vm_compute; try done; intros Hin;
    repeat (apply elem_of_cons in Hin as [?|Hin]; [done|]);
    by apply elem_of_nil in Hin.
Defined.


(* ================================================================== *)
(** ** More on the callback of [convert]: attributes *)
(* ================================================================== *)

(** A name that is none of those of a list of string literals. *)
Ltac str_notin :=
  let Hin := fresh in
  let Heq := fresh in
  intros Hin;
  repeat (apply elem_of_cons in Hin as [Heq|Hin];
          [vm_compute in Heq; discriminate|]);
  by apply elem_of_nil in Hin.

Section Attributes.
Implicit Types (s : store) (n c : nat) (name : jsstring).

Lemma attrs_kept_refl touched s : attrs_kept touched s s.
Proof. by split. Qed.

Lemma attrs_kept_trans touched s s1 s2 :
  attrs_kept touched s s1 → attrs_kept touched s1 s2 →
  attrs_kept touched s s2.
Proof.
  intros [Hl1 Ha1] [Hl2 Ha2]. split; [lia|].
  intros n name Hn Hname. rewrite Ha2 by (done || lia). by apply Ha1.
Qed.

Lemma attrs_kept_weaken touched touched' s s' :
  touched ⊆ touched' → attrs_kept touched s s' → attrs_kept touched' s s'.
Proof.
  intros Hsub [Hl Ha]. split; [done|].
  intros n name Hn Hname. apply Ha; [done|]. intros Hin. by apply Hname, Hsub.
Qed.

Lemma attrs_kept_setAttribute touched s n name v :
  name ∈ touched → attrs_kept touched s (setAttribute s n name v).
Proof.
  intros Hin. unfold setAttribute. split.
  - unfold store. by rewrite length_alter.
  - intros m k _ Hk. apply getAttribute_alter. intros nd. simpl.
    apply get_set_ne. by intros ->.
Qed.

Lemma attrs_kept_removeAttribute touched s n name :
  name ∈ touched → attrs_kept touched s (removeAttribute s n name).
Proof.
  intros Hin. unfold removeAttribute. split.
  - unfold store. by rewrite length_alter.
  - intros m k _ Hk. apply getAttribute_alter. intros nd. simpl.
    apply get_filter_ne. by intros ->.
Qed.

Lemma attrs_kept_set_kids touched s n l :
  attrs_kept touched s (set_kids s n l).
Proof.
  unfold set_kids. split.
  - unfold store. by rewrite length_alter.
  - intros. by apply getAttribute_alter.
Qed.

Lemma attrs_kept_app touched s t : attrs_kept touched s (s ++ t).
Proof.
  split; [rewrite length_app; lia|].
  intros. by apply getAttribute_app_l.
Qed.

(** [cloneNode] adds nodes and changes none. *)
Lemma cloneNode_app fuel s n s' n' :
  cloneNode fuel s n = Ret (s', n') →
  ∃ t, s' = s ++ t ∧ length s ≤ n' < length s'.
Proof.
  revert s n s' n'.
  induction fuel as [|fuel IH]; intros s n s' n' Hclone; [done|].
  cbn [cloneNode] in Hclone.
  apply bind_Ret in Hclone as (nd & _ & Hclone).
  apply bind_Ret in Hclone as ([s1 ks'] & Hkids & Hclone).
  assert (∃ t, s1 = s ++ t) as [t1 ->].
  { clear Hclone. revert Hkids. generalize (childNodes nd). intros ks.
    revert s s1 ks'. induction ks as [|k ks IHks]; intros s s1 ks' Hks.
    - simplify_eq. exists []. by rewrite app_nil_r.
    - apply bind_Ret in Hks as ([s2 k'] & Hk & Hks).
      apply bind_Ret in Hks as ([s3 ks''] & Hrest & Hks).
      simpl in Hks. simplify_eq.
      apply IH in Hk as (t2 & -> & _). apply IHks in Hrest as [t3 ->].
      exists (t2 ++ t3). by rewrite (assoc_L (++)). }
  apply bind_Ret in Hclone as ([s2 t] & Hcontent & Hclone).
  simpl in Hclone. simplify_eq.
  assert (∃ t2, s2 = (s ++ t1) ++ t2) as [t2 ->].
  { destruct (content nd) as [f|]; simplify_eq/=.
    - apply bind_Ret in Hcontent as ([s3 f'] & Hf & Hcontent).
      simpl in Hcontent. simplify_eq. apply IH in Hf as (t2 & -> & _).
      by exists t2.
    - exists []. by rewrite app_nil_r. }
  eexists. split; [by rewrite <- !(assoc_L (++))|].
  rewrite !length_app. simpl. lia.
Qed.

Lemma clone_content_app fuel s ns s' ns' :
  clone_content fuel s ns = Ret (s', ns') →
  ∃ t, s' = s ++ t ∧ ∀ x, x ∈ ns' → length s ≤ x < length s'.
Proof.
  revert s s' ns'. induction ns as [|n ns IH]; intros s s' ns' Hclone.
  - simpl in Hclone. simplify_eq. exists []. rewrite app_nil_r.
    split; [done|]. by intros x ?%elem_of_nil.
  - cbn [clone_content] in Hclone. case_bool_decide; [by apply IH|].
    apply bind_Ret in Hclone as ([s1 n'] & Hn & Hclone).
    apply bind_Ret in Hclone as ([s2 ns''] & Hns & Hclone).
    simpl in Hclone. simplify_eq.
    apply cloneNode_app in Hn as (t1 & -> & Hn').
    apply IH in Hns as (t2 & -> & Hns'').
    exists (t1 ++ t2). split; [by rewrite (assoc_L (++))|].
    intros x [->|Hx]%elem_of_cons.
    + rewrite !length_app in *. lia.
    + apply Hns'' in Hx. rewrite !length_app in *. lia.
Qed.
End Attributes.

Section ShadowDOM.
Context `{Runtime} `{DOMProvider}.
Implicit Types (s : store) (n c element : nat) (name : jsstring).

Lemma get_filter_eq {V} (o : jsobj V) name :
  get (filter (λ kv, kv.1 ≠ name) o) name = None.
Proof.
  induction o as [|[k v] o IH]; [done|].
  unfold jsobj in *. rewrite filter_cons. simpl. case_decide as Hd; [|done].
  simpl. by rewrite bool_decide_eq_false_2.
Qed.

Lemma getAttribute_removeAttribute s n name :
  getAttribute (removeAttribute s n name) n name = None.
Proof.
  unfold getAttribute, removeAttribute, store in *.
  rewrite list_lookup_alter_eq. destruct (s !! n); simpl; [|done].
  apply get_filter_eq.
Qed.

Lemma getAttribute_setAttribute s n name v :
  n < length s → getAttribute (setAttribute s n name v) n name = Some v.
Proof.
  intros Hn. unfold getAttribute, setAttribute, store in *.
  rewrite list_lookup_alter_eq.
  destruct (lookup_lt_is_Some_2 s n Hn) as [nd ->]. simpl.
  apply get_set_eq.
Qed.

Lemma processDeclarativeShadowDOM_attrs fuel s element s' :
  processDeclarativeShadowDOM fuel s element = Ret s' →
  attrs_kept [str "loaded"] s s'.
Proof.
  unfold processDeclarativeShadowDOM.
  destruct (filter _ _) as [|shadowTemplate _].
  { intros; simplify_eq. apply attrs_kept_refl. }
  intros Hrun. apply bind_Ret in Hrun as (s1 & Hs1 & Hrun).
  assert (attrs_kept [str "loaded"] s s1) as Hk1.
  { destruct (_ || _).
    - simplify_eq. apply attrs_kept_set_kids.
    - apply bind_Ret in Hs1 as ([s2 fragment] & Hclone & Hs1).
      simpl in Hs1. simplify_eq.
      apply clone_content_app in Hclone as (t & -> & _).
      eapply attrs_kept_trans; [apply attrs_kept_app|].
      eapply attrs_kept_trans; apply attrs_kept_set_kids. }
  simpl in Hrun. simplify_eq. destruct (hasAttribute _ _ _); [|done].
  eapply attrs_kept_trans; [exact Hk1|].
  apply attrs_kept_removeAttribute, list_elem_of_here.
Qed.

Lemma updateInlineStyle_attrs fuel s element media base s' :
  updateInlineStyle fuel s element media base = Ret s' →
  attrs_kept [str "style"] s s'.
Proof.
  unfold updateInlineStyle.
  destruct (if is_element _ _ then _ else _);
    [|intros; simplify_eq; apply attrs_kept_refl].
  case_bool_decide; [|intros; simplify_eq; apply attrs_kept_refl].
  intros Hrun. apply bind_Ret in Hrun as (css & _ & Hrun).
  simpl in Hrun. simplify_eq.
  apply attrs_kept_setAttribute, list_elem_of_here.
Qed.


End ShadowDOM.

Section CallbackAttributes.
Context `{Runtime} `{DOMProvider}.
Implicit Types (s : store) (n c p : nat) (name : jsstring).

(** The callback up to its [switch]: the store [s1] that the [switch]
    finds has the tags and, but for [integrity] and [loaded], the
    attributes of the store [s] the callback was called on. *)
Lemma visit_prelude fuel c s s1 :
  tag s c ≠ None →
  (if is_element (removeAttribute s c (str "integrity")) c
      && bool_decide
           (filter (λ c0, is_shadow_template
                            (removeAttribute s c (str "integrity")) c0 = true)
              (children (removeAttribute s c (str "integrity")) c) ≠ [])
   then processDeclarativeShadowDOM fuel
          (removeAttribute s c (str "integrity")) c
   else Ret (removeAttribute s c (str "integrity"))) = Ret s1 →
  c < length s
  ∧ grows c s s1
  ∧ attrs_kept [str "integrity"; str "loaded"] s s1
  ∧ getAttribute s1 c (str "integrity") = None.
Proof.
  intros Hel Hs1.
  assert (c < length s) as Hc.
  { destruct (tag s c) eqn:Ht; [by eapply tag_valid|done]. }
  assert (grows c (removeAttribute s c (str "integrity")) s1
          ∧ attrs_kept [str "loaded"]
              (removeAttribute s c (str "integrity")) s1) as [Hg1 Hk1].
  { destruct (_ && _).
    - split; [by eapply processDeclarativeShadowDOM_grows|].
      by eapply processDeclarativeShadowDOM_attrs.
    - simplify_eq. split; [apply grows_refl|apply attrs_kept_refl]. }
  split_and!; [done| | |].
  - eapply grows_trans; [|exact Hg1|by left].
    apply grows_removeAttribute; str_ne.
  - eapply attrs_kept_trans.
    + apply attrs_kept_removeAttribute, list_elem_of_here.
    + eapply attrs_kept_weaken; [|exact Hk1].
      intros x ->%list_elem_of_singleton. apply list_elem_of_further,
        list_elem_of_here.
  - destruct Hk1 as [_ Hk1]. rewrite Hk1.
    + apply getAttribute_removeAttribute.
    + unfold removeAttribute, store. by rewrite length_alter.
    + str_notin.
Qed.

(** X13: what the callback of [convert] does to a [head] element: its
    first child is, from then on, a new [base] element without
    children whose [target] is [_parent]. *)
Theorem visit_head fuel recur convertIframes frames media index
    p c s h sr s' h' sr' :
  tag s c = Some (str "HEAD") →
  visit fuel recur convertIframes frames media index p c s h sr
  = Ret (s', h', sr') →
  ∃ base rest,
    kids s' c = base :: rest
    ∧ length s ≤ base
    ∧ tag s' base = Some (str "BASE")
    ∧ getAttribute s' base (str "target") = Some (str "_parent")
    ∧ kids s' base = [].
Proof.
  intros Htag Hrun. unfold visit in Hrun.
  assert (is_element s c = true) as Hel.
  { apply bool_decide_eq_true_2. by rewrite Htag. }
  rewrite Hel in Hrun. cbv beta iota zeta in Hrun.
  apply bind_Ret in Hrun as (s1 & Hs1 & Hrun).
  apply visit_prelude in Hs1 as (Hc & Hg & _ & _); [|by rewrite Htag].
  apply bind_Ret in Hrun as (s2 & Hs2 & Hrun). simpl in Hrun.
  symmetry in Hrun. simplify_eq.
  rewrite (g_tag _ _ _ Hg), Htag in Hs2 by done.
  rewrite bool_decide_eq_true_2 in Hs2 by done.
  unfold createElement, insertFirst in Hs2. injection Hs2 as <-.
  pose proof (g_length _ _ _ Hg) as Hlen.
  assert (∀ nd, length (setAttribute (s1 ++ [nd]) (length s1) (str "target")
                          (str "_parent")) = S (length s1)) as Hlen3.
  { intros nd. unfold setAttribute, store.
    rewrite length_alter, length_app. simpl. lia. }
  eexists (length s1), _. split_and!.
  - apply kids_set_kids. rewrite Hlen3. lia.
  - done.
  - unfold set_kids, setAttribute. rewrite !tag_alter by done.
    unfold tag. by rewrite lookup_new.
  - unfold set_kids. rewrite getAttribute_alter by done.
    apply getAttribute_setAttribute. rewrite length_app. simpl. lia.
  - unfold set_kids, setAttribute.
    rewrite kids_alter by (left; lia). rewrite kids_alter by (by right).
    apply kids_new.
Qed.

(** X14: what the callback of [convert] does to the [src] of an [img]
    element: when it is a key of [media] for a resource whose type
    includes [image], and the conversion of that resource to a data
    URI does not throw, it is that data URI; otherwise it is what it
    was. A missing [src] is [null] and names the key ["null"]. *)
Theorem visit_img fuel recur convertIframes frames media index
    p c s h sr s' h' sr' :
  tag s c = Some (str "IMG") →
  visit fuel recur convertIframes frames media index p c s h sr
  = Ret (s', h', sr') →
  getAttribute s' c (str "src")
  = match get media (default (str "null") (getAttribute s c (str "src")))
    with
    | Some entry =>
        if includes (str "image") (type entry)
        then match convertAssetToDataURI entry with
             | Ret img => Some img
             | Throw _ => getAttribute s c (str "src")
             end
        else getAttribute s c (str "src")
    | None => getAttribute s c (str "src")
    end.
Proof.
  intros Htag Hrun. unfold visit in Hrun.
  assert (is_element s c = true) as Hel.
  { apply bool_decide_eq_true_2. by rewrite Htag. }
  rewrite Hel in Hrun. cbv beta iota zeta in Hrun.
  apply bind_Ret in Hrun as (s1 & Hs1 & Hrun).
  apply visit_prelude in Hs1 as (Hc & Hg & [_ Hk] & _); [|by rewrite Htag].
  apply bind_Ret in Hrun as (s2 & Hs2 & Hrun). simpl in Hrun.
  symmetry in Hrun. simplify_eq.
  rewrite (g_tag _ _ _ Hg), Htag in Hs2 by done.
  rewrite bool_decide_eq_false_2 in Hs2 by (by vm_compute).
  rewrite bool_decide_eq_false_2 in Hs2 by (by vm_compute).
  rewrite bool_decide_eq_false_2 in Hs2 by (by vm_compute).
  rewrite bool_decide_eq_true_2 in Hs2 by done.
  pose proof (g_length _ _ _ Hg) as Hlen.
  apply bind_Ret in Hs2 as (s3 & Hs3 & Hs2).
  apply updateInlineStyle_attrs in Hs2 as [Hlen2 Hk2].
  assert (getAttribute s1 c (str "src") = getAttribute s c (str "src"))
    as Hsrc by (apply Hk; [done|str_notin]).
  unfold read in Hs3.
  destruct (get media _) as [entry|].
  - destruct (includes _ _).
    + destruct (convertAssetToDataURI entry) as [img|]; injection Hs3 as <-.
      * rewrite Hk2; [|unfold setAttribute, store; rewrite length_alter; lia
                      |str_notin].
        apply getAttribute_setAttribute. lia.
      * rewrite Hk2 by (lia || str_notin). done.
    + injection Hs3 as <-. rewrite Hk2 by (lia || str_notin). done.
  - case_bool_decide; [done|]. injection Hs3 as <-.
    rewrite Hk2 by (lia || str_notin). done.
Qed.
End CallbackAttributes.


(** X13, witness: the [head] of [Ex8.page]. *)
Lemma visit_head_witness :
  ∃ base rest,
    kids Ex8.with_base 2 = base :: rest
    ∧ length Ex8.page ≤ base
    ∧ tag Ex8.with_base base = Some (str "BASE")
    ∧ getAttribute Ex8.with_base base (str "target") = Some (str "_parent")
    ∧ kids Ex8.with_base base = [].
Proof.
  apply (visit_head (H := Sample.runtime) (H0 := Ex5.provider) 10
           (λ _ _ _, Throw OutOfFuel) false [] Ex.media_png Ex.base
           1 2 Ex8.page None None Ex8.with_base None None);
    vm_compute; reflexivity.
Defined.

(** X14, witness: the image of [Ex8.page]. *)
Lemma visit_img_witness :
  getAttribute Ex8.inlined 4 (str "src")
  = Some (str "data:image/png;base64,QUJD").
Proof.
  rewrite (visit_img (H := Sample.runtime) (H0 := Ex5.provider) 10
             (λ _ _ _, Throw OutOfFuel) false [] Ex.media_png Ex.base
             3 4 Ex8.page None None Ex8.inlined None
             (Some (str "http://e.com/a.png")));
    vm_compute; reflexivity.
Defined.


(* ================================================================== *)
(** ** [convert] without [convertIframes] *)
(* ================================================================== *)

Section WithoutIframes.
Context `{Runtime} `{DOMProvider}.

Lemma visit_without_iframes fuel recur recur' frames frames' media index
    p c s h sr :
  visit fuel recur false frames media index p c s h sr
  = visit fuel recur' false frames' media index p c s h sr.
Proof.
  unfold visit.
  destruct (if is_element s c then _ else _) as [href src].
  destruct (if _ && _ then _ else _) as [s1|e]; [|done].
  cbn [mbind res_bind].
  destruct (tag s1 c) as [t|]; [|done].
  repeat case_bool_decide; done.
Qed.

Lemma walk_ext fuel callback callback' w :
  (∀ p c s h sr, callback p c s h sr = callback' p c s h sr) →
  walk fuel callback w = walk fuel callback' w.
Proof.
  intros Hext. revert w. induction fuel as [|fuel IH]; intros w; [done|].
  cbn [walk]. destruct (w_cur w) as [[p k]|]; [|by destruct (w_nodes w)].
  assert (∀ X Y : res store, X = Y →
            match w_nodes w with [] | _ => X end
            = match w_nodes w with [] | _ => Y end) as Hsame
    by (by intros X Y ->).
  destruct (kids (w_store w) p !! k) as [child|].
  - rewrite Hext.
    destruct (callback' p child (w_store w) (w_href w) (w_src w))
      as [[[s1 h1] sr1]|e]; [|done].
    cbn [mbind res_bind]. by rewrite IH.
  - by rewrite IH.
Qed.

(** X15: without [convertIframes], [convert] does not read [frames]:
    the frames of an archive have no part in what it returns. *)
Theorem convert_without_iframes fuel frames frames' media index :
  convert fuel false (MhtmlObject (Some frames) media index)
  = convert fuel false (MhtmlObject (Some frames') media index).
Proof.
  unfold convert. destruct media as [media|], index as [index|].
  2-4: by destruct fuel.
  rewrite !convert_object_unfold.
  destruct (assert _ _) as [[]|e]; [|done]. cbn [mbind res_bind].
  destruct (lift _ _) as [d|e]; [|done]. cbn [mbind res_bind].
  erewrite walk_ext; [done|]. intros. apply visit_without_iframes.
Qed.
End WithoutIframes.


(* ================================================================== *)
(** ** [convert] and the [integrity] attributes *)
(* ================================================================== *)

Section Integrity.
Context `{Runtime} `{DOMProvider}.
Implicit Types (s : store) (n c p : nat) (name : jsstring).

Lemma new_style_attrs touched s css : attrs_kept touched s (new_style s css).
Proof. rewrite new_style_eq. apply attrs_kept_app. Qed.

(** The [switch] of the callback sets no other attributes than
    [target], [src] and [style]. *)
Lemma visit_attrs fuel recur convertIframes frames media index
    p c s h sr s' h' sr' :
  visit fuel recur convertIframes frames media index p c s h sr
  = Ret (s', h', sr') →
  (∀ n, n < length s → n ≠ c →
        getAttribute s' n (str "integrity")
        = getAttribute s n (str "integrity"))
  ∧ (tag s c ≠ None → getAttribute s' c (str "integrity") = None).
Proof.
  unfold visit. intros Hrun.
  destruct (is_element s c) eqn:Hel; cbv beta iota zeta in Hrun; last first.
  { rewrite Hel in Hrun. apply bool_decide_eq_false_1 in Hel.
    destruct (tag s c) as [t|] eqn:Ht; [by destruct Hel|].
    split; [|done].
    apply bind_Ret in Hrun as (s1 & Hs1 & Hrun). simpl in Hs1.
    simplify_eq. rewrite Ht in Hrun.
    apply bind_Ret in Hrun as (s2 & Hs2 & Hrun). simpl in Hrun.
    simplify_eq. apply updateInlineStyle_attrs in Hs2 as [_ Hk].
    intros n Hn _. apply Hk; [done|str_notin]. }
  apply bool_decide_eq_true_1 in Hel.
  apply bind_Ret in Hrun as (s1 & Hs1 & Hrun).
  assert (∀ n, n < length s → n ≠ c →
               getAttribute s1 n (str "integrity")
               = getAttribute s n (str "integrity")) as Hother.
  { assert (attrs_kept [str "loaded"]
              (removeAttribute s c (str "integrity")) s1) as [_ Hk1].
    { destruct (_ && _).
      - by eapply processDeclarativeShadowDOM_attrs.
      - simplify_eq. apply attrs_kept_refl. }
    intros n Hn Hne. rewrite Hk1.
    - unfold removeAttribute, getAttribute, store in *.
      by rewrite list_lookup_alter_ne.
    - unfold removeAttribute, store. by rewrite length_alter.
    - str_notin. }
  apply visit_prelude in Hs1 as (Hc & Hg & _ & Hclean); [|done].
  pose proof (g_length _ _ _ Hg) as Hlen.
  apply bind_Ret in Hrun as (s2 & Hs2 & Hrun). simpl in Hrun.
  symmetry in Hrun. simplify_eq.
  assert (attrs_kept [str "target"; str "src"; str "style"] s1 s2)
    as [_ Hk]; last first.
  { split.
    - intros n Hn Hne. rewrite Hk by (lia || str_notin). by apply Hother.
    - intros _. rewrite Hk by (lia || str_notin). done. }
  rewrite (g_tag _ _ _ Hg) in Hs2 by done.
  destruct (tag s c) as [t|] eqn:Ht; [|done]. clear Hel.
  case_bool_decide as Hhead.
  { unfold createElement, insertFirst in Hs2. injection Hs2 as <-.
    eapply attrs_kept_trans; [apply attrs_kept_app|].
    eapply attrs_kept_trans; [|apply attrs_kept_set_kids].
    apply attrs_kept_setAttribute, list_elem_of_here. }
  case_bool_decide as Hlink.
  { destruct (_ && _); [|simplify_eq; apply attrs_kept_refl].
    unfold createElement in Hs2.
    apply bind_Ret in Hs2 as (css & Hcss & Hs2).
    unfold createTextNode in Hs2. injection Hs2 as <-.
    eapply attrs_kept_trans;
      [apply (new_style_attrs _ s1 (default (str "null") css))|].
    apply attrs_kept_set_kids. }
  case_bool_decide as Hstyle.
  { unfold createElement in Hs2.
    apply bind_Ret in Hs2 as (css & Hcss & Hs2).
    unfold createTextNode in Hs2. injection Hs2 as <-.
    eapply attrs_kept_trans; [apply (new_style_attrs _ s1 css)|].
    apply attrs_kept_set_kids. }
  assert (∀ s0, updateInlineStyle fuel s0 c media (Some index) = Ret s2 →
                attrs_kept [str "target"; str "src"; str "style"] s0 s2)
    as Hinline.
  { intros s0 Hs0. eapply attrs_kept_weaken;
      [|by eapply updateInlineStyle_attrs].
    intros x ->%list_elem_of_singleton.
    do 2 apply list_elem_of_further. apply list_elem_of_here. }
  assert (∀ v, attrs_kept [str "target"; str "src"; str "style"] s1
                 (setAttribute s1 c (str "src") v)) as Hsrc.
  { intros v. apply attrs_kept_setAttribute, list_elem_of_further,
      list_elem_of_here. }
  case_bool_decide as Himg.
  { apply bind_Ret in Hs2 as (s3 & Hs3 & Hs2).
    eapply attrs_kept_trans; [|by apply Hinline].
    repeat case_match; simplify_eq; try apply attrs_kept_refl. apply Hsrc. }
  case_bool_decide as Hiframe; [|by apply Hinline].
  repeat case_match; simplify_eq; try apply attrs_kept_refl.
  apply bind_Ret in Hs2 as (iframe & _ & Hs2).
  apply bind_Ret in Hs2 as (html & _ & Hs2). simpl in Hs2. simplify_eq.
  apply Hsrc.
Qed.

Lemma new_style_integrity s css :
  getAttribute (new_style s css) (length s) (str "integrity") = None.
Proof.
  rewrite new_style_eq. unfold getAttribute, store.
  rewrite lookup_app_r by lia. rewrite Nat.sub_diag. by vm_compute.
Qed.

Lemma visit_scrub_effect fuel recur convertIframes frames media index
    p c s h sr s' h' sr' :
  closed s → p < length s → c < length s →
  visit fuel recur convertIframes frames media index p c s h sr
  = Ret (s', h', sr') →
  scrub_effect p c s s'.
Proof.
  intros Hclosed Hp Hc Hrun.
  pose proof (visit_visit_effect _ _ _ _ _ _ _ _ _ _ _ _ _ _
                Hclosed Hp Hrun) as E.
  destruct (visit_attrs _ _ _ _ _ _ _ _ _ _ _ _ _ _ Hrun)
    as [Hother Hchild].
  assert (clean s' c) as Hcleanc.
  { intros Ht. apply Hchild. by rewrite <- (ve_tag _ _ _ _ _ E). }
  split.
  - apply (ve_length _ _ _ _ _ E).
  - apply (ve_closed _ _ _ _ _ E).
  - intros n Hn Hclean. destruct (decide (n = c)) as [->|Hne]; [done|].
    intros Ht. rewrite Hother by done. apply Hclean.
    by rewrite <- (ve_tag _ _ _ _ _ E).
  - done.
  - apply (ve_kids _ _ _ _ _ E).
  - intros Hpc.
    apply visit_cases in Hrun as [[_ Hg]|(s1 & css & Hg & -> & _)].
    { left. by apply (g_kids _ _ _ Hg). }
    right. exists (length s1), (S (length s1)).
    destruct (replaceChild_new_style_effect media p c s s1 css
                Hclosed Hp Hg) as [_ Hparent].
    destruct (Hparent Hpc)
      as [(Htag & _ & Hkids & Htag' & Hkids' & _) Hreplaced].
    split_and!; try done.
    + apply (g_length _ _ _ Hg).
    + intros _. unfold replaceChild, set_kids.
      rewrite getAttribute_alter by done. apply new_style_integrity.
    + intros Ht. by rewrite Htag' in Ht.
Qed.
End Integrity.

Section WalkClean.
Context (root : nat).
Implicit Types (w : wstate) (s : store) (n c p : nat).

Lemma walk_clean_initial s :
  closed s → root < length s → tag s root = None →
  walk_clean root
    {| w_store := s; w_nodes := [root]; w_cur := None;
       w_href := None; w_src := None |}.
Proof.
  intros Hclosed Hroot Htag.
  assert (clean s root) as Hclean by (by intros Ht).
  split; simpl; try done.
  - intros n [->|?%elem_of_nil]%elem_of_cons; done.
  - intros n Hn.
    assert (n = root) as ->; [|done].
    induction Hn as [|y x Hy -> Hx Hnp]; [done|].
    destruct Hnp. left. simpl. apply elem_of_cons. by left.
Qed.

Lemma walk_clean_shift w p rest :
  walk_clean root w → w_cur w = None → w_nodes w = p :: rest →
  walk_clean root
    {| w_store := w_store w; w_nodes := rest; w_cur := Some (p, 0);
       w_href := w_href w; w_src := w_src w |}.
Proof.
  intros [Hclosed Hroot Hnodes Hcur Hsettled] Hc Hn.
  split; simpl; try done.
  - intros n Hin. apply Hnodes. rewrite Hn. apply elem_of_cons. by right.
  - intros p' i [= <- <-]. apply Hnodes. rewrite Hn.
    apply elem_of_cons. by left.
  - intros n Hs. apply Hsettled. eapply settled_mono; [| |exact Hs]; [done|].
    intros y x Hx [Hq|(i & Hi & _)]; [|congruence].
    rewrite Hn in Hq. apply elem_of_cons in Hq as [->|Hq].
    + right. simpl. by exists 0.
    + by left.
Qed.

Lemma walk_clean_end w p i :
  walk_clean root w → w_cur w = Some (p, i) →
  kids (w_store w) p !! i = None →
  walk_clean root
    {| w_store := w_store w; w_nodes := w_nodes w; w_cur := None;
       w_href := w_href w; w_src := w_src w |}.
Proof.
  intros [Hclosed Hroot Hnodes Hcur Hsettled] Hc Hi.
  split; simpl; try done.
  intros n Hs. apply Hsettled. eapply settled_mono; [| |exact Hs]; [done|].
  intros y x Hx [Hq|(j & Hj & Hd)]; [by left|].
  rewrite Hc in Hj. simplify_eq.
  apply lookup_ge_None in Hi. rewrite drop_ge in Hd by done.
  by apply elem_of_nil in Hd.
Qed.

Lemma walk_clean_step w p i c s' h sr :
  walk_clean root w → w_cur w = Some (p, i) →
  kids (w_store w) p !! i = Some c →
  scrub_effect p c (w_store w) s' →
  walk_clean root
    {| w_store := s'; w_nodes := w_nodes w ++ [c];
       w_cur := Some (p, S i); w_href := h; w_src := sr |}.
Proof.
  intros [Hclosed [Hroot Hrootc] Hnodes Hcur Hsettled] Hc Hi E.
  pose proof (Hcur _ _ Hc) as Hp.
  assert (c ∈ kids (w_store w) p) as Hcin
    by (by eapply list_elem_of_lookup_2).
  assert (c < length (w_store w)) as Hcl by (by eapply Hclosed).
  pose proof (se_length _ _ _ _ E) as Hlen.
  split; simpl.
  - apply (se_closed _ _ _ _ E).
  - split; [lia|]. by apply (se_stable _ _ _ _ E).
  - intros n [Hn|Hn]%elem_of_app.
    + apply Hnodes in Hn. lia.
    + apply elem_of_cons in Hn as [->|?%elem_of_nil]; [lia|done].
  - intros p' i' [= <- <-]. lia.
  - intros n Hn.
    assert (clean s' n
            ∧ ((n < length (w_store w) ∧ settled w root n)
               ∨ (∃ st tx, kids s' st = [tx] ∧ kids s' tx = []
                           ∧ clean s' st ∧ clean s' tx
                           ∧ (n = st ∨ n = tx))
               ∨ n = c)) as [? _]; [|done].
    induction Hn as [|y x Hy [Hgy HRy] Hx Hnp]; simpl in *.
    { split; [by apply (se_stable _ _ _ _ E)|].
      left. split; [done|constructor]. }
    assert ((y ∉ w_nodes w) ∧ y ≠ c) as [Hyq Hyc].
    { split; intros Hq; apply Hnp; left; simpl; apply elem_of_app;
        [by left|right; apply elem_of_cons; by left]. }
    assert (∀ z, z ∈ kids (w_store w) y → ¬ pending w y z →
                 settled w root y →
                 clean s' z
                 ∧ ((z < length (w_store w) ∧ settled w root z)
                    ∨ (∃ st tx, kids s' st = [tx] ∧ kids s' tx = []
                                ∧ clean s' st ∧ clean s' tx
                                ∧ (z = st ∨ z = tx))
                    ∨ z = c)) as Hold.
    { intros z Hz Hnpz Hys.
      assert (settled w root z) as Hs by (by eapply settled_child).
      assert (z < length (w_store w)) by (by eapply Hclosed).
      split; [|by left].
      apply (se_stable _ _ _ _ E); [done|]. by apply Hsettled. }
    destruct HRy as [[Hyl Hys]|[(st & tx & Hk & Hk' & Hst & Htx & [->| ->])| ->]];
      [| | |done].
    + destruct (decide (y = p)) as [->|Hyp].
      * assert (x ∉ drop (S i) (kids s' p)) as Hd.
        { intros Hd. apply Hnp. right. by exists (S i). }
        assert (∀ z, z ∈ kids (w_store w) p → z ≠ c →
                     z ∉ drop (S i) (kids (w_store w) p) →
                     ¬ pending w p z) as Hnot.
        { intros z Hz Hzc Hzd [?|(j & Hj & Hdrop)]; [done|].
          rewrite Hc in Hj. simplify_eq.
          by apply (elem_of_drop_lookup _ _ _ _ Hi) in Hdrop as [?|?]. }
        destruct (se_parent _ _ _ _ E Hyc)
          as [Hk|(st & tx & Hfresh & Hk & Hk' & Hst & Htx & Hrep)].
        -- rewrite Hk in Hx, Hd.
           destruct (decide (x = c)) as [->|Hxc].
           ++ split; [apply (se_child _ _ _ _ E)|]. right. by right.
           ++ apply Hold; [done| |done]. by apply Hnot.
        -- rewrite Hrep in Hx, Hd. rewrite drop_replace_first in Hd by done.
           apply elem_of_replace_first in Hx as [->|Hx].
           { split; [done|]. right. left. exists st, tx. auto 10. }
           destruct (decide (x = c)) as [->|Hxc].
           ++ split; [apply (se_child _ _ _ _ E)|]. right. by right.
           ++ apply Hold; [done| |done]. by apply Hnot.
      * rewrite (se_kids _ _ _ _ E) in Hx by done.
        apply Hold; [done| |done].
        intros [?|(j & Hj & _)]; [done|]. rewrite Hc in Hj. by simplify_eq.
    + rewrite Hk in Hx.
      apply elem_of_cons in Hx as [->|?%elem_of_nil]; [|done].
      split; [done|]. right; left. exists st, tx. auto 10.
    + rewrite Hk' in Hx. by apply elem_of_nil in Hx.
Qed.

Lemma walk_all_clean fuel callback w s' :
  (∀ p c s h sr s1 h1 sr1,
     closed s → p < length s → c < length s →
     callback p c s h sr = Ret (s1, h1, sr1) →
     scrub_effect p c s s1) →
  walk_clean root w →
  walk fuel callback w = Ret s' →
  ∀ n, reach s' root n → clean s' n.
Proof.
  intros Hcb. revert w.
  assert (∀ w, walk_clean root w → w_cur w = None → w_nodes w = [] →
               ∀ n, reach (w_store w) root n → clean (w_store w) n)
    as Hend.
  { intros w I Hcur Hnodes n Hn. apply (wc_settled _ _ I).
    by apply reach_settled. }
  induction fuel as [|fuel IH]; intros w I Hwalk.
  { cbn [walk] in Hwalk.
    destruct (w_cur w) as [[]|] eqn:Hcur, (w_nodes w) eqn:Hnodes;
      try done.
    simplify_eq. by apply Hend. }
  cbn [walk] in Hwalk. destruct (w_cur w) as [[p i]|] eqn:Hcur.
  - assert (match kids (w_store w) p !! i with
            | Some child =>
                '(s, href, src) ←
                  callback p child (w_store w) (w_href w) (w_src w);
                walk fuel callback
                  {| w_store := s; w_nodes := w_nodes w ++ [child];
                     w_cur := Some (p, S i);
                     w_href := href; w_src := src |}
            | None =>
                walk fuel callback
                  {| w_store := w_store w; w_nodes := w_nodes w;
                     w_cur := None;
                     w_href := w_href w; w_src := w_src w |}
            end = Ret s') as Hstep by (by destruct (w_nodes w)).
    clear Hwalk. destruct (kids (w_store w) p !! i) as [c|] eqn:Hi.
    + apply bind_Ret in Hstep as ([[s1 h1] sr1] & Hcall & Hstep).
      eapply IH; [|exact Hstep]. apply walk_clean_step; try done.
      eapply Hcb; [| | |exact Hcall].
      * apply (wc_closed _ _ I).
      * by apply (wc_cur _ _ I _ i).
      * eapply (wc_closed _ _ I), list_elem_of_lookup_2, Hi.
    + eapply IH; [|exact Hstep]. by eapply walk_clean_end.
  - destruct (w_nodes w) as [|p rest] eqn:Hnodes.
    + simplify_eq. by apply Hend.
    + eapply IH; [|exact Hwalk]. by apply walk_clean_shift.
Qed.
End WalkClean.

Section NoIntegrity.
Context `{Runtime} `{DOMProvider}.

(** X16: no element of a document that [convert] returns carries an
    [integrity] attribute, whenever the DOM provider returns
    well-formed documents: the callback takes the attribute from every
    element it is called on, and the walk calls it on every node below
    the document, those that it adds on its way included. *)
Theorem convert_removes_integrity fuel convertIframes (A : archive) D n :
  wf_provider →
  convert fuel convertIframes (of_archive A) = Ret D →
  reach (d_store D) (d_document D) n →
  tag (d_store D) n ≠ None →
  getAttribute (d_store D) n (str "integrity") = None.
Proof.
  intros Hwf. unfold convert, of_archive.
  destruct (index A) as [idx|]; [|by destruct fuel].
  rewrite convert_object_unfold. intros Hrun.
  apply bind_Ret in Hrun as (? & _ & Hrun).
  apply bind_Ret in Hrun as (d & Hd & Hrun).
  apply bind_Ret in Hrun as (s & Hwalk & Hrun).
  simpl in Hrun. simplify_eq. simpl.
  apply lift_Ret, Hwf in Hd as (Hdoc & Htag & Hclosed).
  intros Hreach. eapply walk_all_clean;
    [|by apply walk_clean_initial|exact Hwalk|exact Hreach].
  intros p c s0 h sr s1 h1 sr1 Hc Hp Hcl Hcall.
  by eapply visit_scrub_effect.
Qed.
End NoIntegrity.

Lemma Ex8_converted :
  convert (H := Sample.runtime) (H0 := Ex8.provider) 100 false
    (of_archive Ex8.site)
  = Ret Ex8.converted.
Proof. vm_compute. reflexivity. Qed.

Lemma Ex8_wf_provider : wf_provider (H := Ex8.provider).
Proof.
  intros html d. simpl. case_bool_decide; [|done]. intros [= <-].
  split_and!; [vm_compute; lia|done|].
  apply closedb_closed. vm_compute. reflexivity.
Qed.

(** X16, witness: the image of [Ex8.page], which has an [integrity]
    attribute in the page. *)
Lemma convert_removes_integrity_witness :
  getAttribute Ex8.page 4 (str "integrity") = Some (str "sha256-x")
  ∧ getAttribute (d_store Ex8.converted) 4 (str "integrity") = None.
Proof.
  split; [vm_compute; reflexivity|].
  apply (convert_removes_integrity (H := Sample.runtime)
           (H0 := Ex8.provider) 100 false Ex8.site Ex8.converted 4
           Ex8_wf_provider Ex8_converted).
  - apply (reach_child _ _ 3); [apply (reach_child _ _ 1)|];
      [apply (reach_child _ _ 0); [apply reach_root|]| |];
      vm_compute; repeat constructor.
  - vm_compute. discriminate.
Defined.


(* ================================================================== *)
(** ** What [parse] throws *)
(* ================================================================== *)

Section ParseErrors.
Context `{Runtime}.
Implicit Types (mhtml : jsstring) (s : pstate) (e : exn).

Lemma getLine_loop_throws rest i e :
  getLine_loop rest i = Throw e → e = Error UnexpectedEOF.
Proof.
  revert i. induction rest as [|c rest IH]; intros i; simpl;
    [by intros [= <-]|].
  destruct (c =? 10)%N; [done|].
  destruct rest; [by intros [= <-]|apply IH].
Qed.

Lemma getLine_throws mhtml i l encoding e :
  getLine mhtml i l encoding = Throw e →
  (∃ m, e = Error m) ∨ e = QuotedPrintableError.
Proof.
  unfold getLine. intros [Hk|(k & _ & Hrun)]%bind_Throw.
  - left. eexists. by eapply getLine_loop_throws.
  - repeat case_bool_decide; [|done..].
    apply bind_Throw in Hrun as [Hd|(? & _ & ?)]; [|done].
    right. by destruct (QuotedPrintable_decode _); simplify_eq/=.
Qed.

Lemma trim_throws mhtml i l e :
  trim mhtml i l = Throw e → ∃ m, e = Error m.
Proof.
  unfold trim. generalize (drop i mhtml). intros rest. revert i l.
  induction rest as [|c rest IH]; intros i l; simpl;
    [intros [= <-]; by eexists|].
  destruct rest as [|c' rest]; [intros [= <-]; by eexists|].
  destruct (is_space c); [apply IH|done].
Qed.

Lemma splitHeaders_throws l key line obj e :
  splitHeaders l key line obj = Throw e → ∃ m, e = Error m.
Proof.
  unfold splitHeaders. repeat case_match; try done.
  intros [= <-]. by eexists.
Qed.

Lemma data_loop_throws fuel mhtml encoding boundary r heap next i l e :
  data_loop fuel mhtml encoding boundary r heap next i l = Throw e →
  (∃ m, e = Error m) ∨ e = QuotedPrintableError ∨ e = OutOfFuel.
Proof.
  revert heap next i l. induction fuel as [|fuel IH]; intros heap next i l;
    simpl; destruct (includes _ _); try done.
  - intros [= <-]. auto.
  - intros [Hline|([[next' i1] l1] & _ & Hrun)]%bind_Throw.
    + apply getLine_throws in Hline as [?|?]; auto.
    + by eapply IH.
Qed.

(** Reduces a hypothesis [Hs] by which a run made of binds threw [e]
    to the call that threw, and names the kind of [e] when the call
    is one of [parse]. *)
Ltac thrown Hs :=
  repeat match type of Hs with
    | _ ≫= _ = Throw _ => apply bind_Throw in Hs as [Hs|(? & ? & Hs)]
    | (let '(_, _) := ?a in _) = Throw _ => destruct a
    end;
  try (apply getLine_throws in Hs as [?|?]; by auto);
  try (apply trim_throws in Hs; by auto);
  try (apply splitHeaders_throws in Hs; by auto);
  try (apply data_loop_throws in Hs; by auto);
  try (unfold lift, assert in Hs; repeat case_match; simplify_eq;
       by eauto).

Lemma step_throws mhtml htmlOnly s e :
  tables_ok s → step mhtml htmlOnly s = Throw e →
  (∃ m, e = Error m) ∨ e = QuotedPrintableError ∨ e = OutOfFuel.
Proof.
  intros Hok Hs. unfold step in Hs.
  destruct (s_state s) eqn:Hst; [| | |done].
  - apply bind_Throw in Hs as [Hs|([[next i] l] & _ & Hs)]; [thrown Hs|].
    destruct (is_header_line next); thrown Hs.
  - apply bind_Throw in Hs as [Hs|([[next i] l] & _ & Hs)]; [thrown Hs|].
    destruct (is_header_line next); [thrown Hs|].
    apply bind_Throw in Hs as [Hs|(index' & _ & Hs)]; [|thrown Hs].
    destruct (s_index s); [done|]. thrown Hs.
  - pose proof (ok_bodies_length _ Hok) as Hasset.
    rewrite Hst in Hasset. simpl in Hasset. destruct Hasset as [_ Hasset].
    rewrite Hasset in Hs. simpl in Hs.
    apply bind_Throw in Hs as [Hs|([[next i] l] & _ & Hs)]; [thrown Hs|].
    apply bind_Throw in Hs as [Hs|([[heap i1] l1] & _ & Hs)]; [thrown Hs|].
    by destruct (_ && _).
Qed.

Lemma parse_loop_throws fuel mhtml htmlOnly s e :
  tables_ok s → parse_loop fuel mhtml htmlOnly s = Throw e →
  (∃ m, e = Error m) ∨ e = QuotedPrintableError ∨ e = OutOfFuel.
Proof.
  revert s. induction fuel as [|fuel IH]; intros s Hok; simpl;
    case_bool_decide; try done.
  - intros [= <-]. auto.
  - intros [Hstep|([s1|html] & Hstep & Hloop)]%bind_Throw; [| |done].
    + by eapply step_throws.
    + eapply IH; [|done]. by eapply step_tables_ok.
Qed.

Context `{DOMProvider}.

(** X17: the exceptions of [parse] are those of its assertions and the
    one of the decoder of quoted-printable text and, under [htmlOnly],
    that of the DOM provider. In particular [parse] does not fail on
    a base64 payload, nor on a body that is no UTF-8 text. *)
Theorem parse_throws mhtml htmlOnly e :
  parse mhtml htmlOnly = Throw e →
  (∃ m, e = Error m) ∨ e = QuotedPrintableError
  ∨ (htmlOnly = true ∧ e = DOMProviderError).
Proof.
  unfold parse. intros [Hrun|([s|html] & Hrun & Hp)]%bind_Throw; [|done|].
  - pose proof (parse_run_fuel mhtml htmlOnly) as Hfuel.
    pose proof Hrun as Hrun'.
    apply parse_loop_throws in Hrun as [?|[?|Hout]];
      [auto|auto|subst; by destruct Hfuel|apply tables_ok_initial].
  - destruct htmlOnly; [|by apply parse_loop_false_inl in Hrun].
    right. right. split; [done|].
    by destruct (parseDOM html); simplify_eq/=.
Qed.
End ParseErrors.

(** X17, witness: a run of [parse] that an assertion ends. *)
Lemma parse_throws_witness :
  (∃ m, Error (MissingHeaders 1) = Error m)
  ∨ Error (MissingHeaders 1) = QuotedPrintableError
  ∨ (false = true ∧ Error (MissingHeaders 1) = DOMProviderError).
Proof.
  apply (parse_throws (H := Sample.runtime) (H0 := Ex5.provider)
           (str "no header" ++ LF) false).
  vm_compute. reflexivity.
Defined.


(* ================================================================== *)
(** ** More on [updateInlineStyle] and the [iframe] case *)
(* ================================================================== *)

Section InlineStyle.
Context `{Runtime}.
Implicit Types (s : store) (n element : nat) (name : jsstring).

(** X18: [updateInlineStyle] rewrites the [style] attribute of an
    element that has one which is not empty, with what
    [replaceReferences] makes of it, and changes nothing else: no
    other attribute, no other node, no tag name and no list of
    children. *)
Theorem updateInlineStyle_effect fuel s element media base s' :
  updateInlineStyle fuel s element media base = Ret s' →
  (∀ n, tag s' n = tag s n ∧ kids s' n = kids s n)
  ∧ (∀ n name, n ≠ element ∨ name ≠ str "style" →
               getAttribute s' n name = getAttribute s n name)
  ∧ (∀ style, tag s element ≠ None →
              getAttribute s element (str "style") = Some style →
              style ≠ [] →
              ∃ css, replaceReferences fuel media base style = Ret css
                     ∧ getAttribute s' element (str "style") = Some css)
  ∧ (tag s element = None
     ∨ getAttribute s element (str "style") = None
     ∨ getAttribute s element (str "style") = Some [] →
     s' = s).
Proof.
  unfold updateInlineStyle, is_element. intros Hrun.
  destruct (tag s element) as [t|] eqn:Htag; last first.
  { rewrite bool_decide_eq_false_2 in Hrun by (by intros Hne).
    simplify_eq. split_and!; done. }
  rewrite bool_decide_eq_true_2 in Hrun by done.
  destruct (getAttribute s element (str "style")) as [style|] eqn:Hstyle;
    last first.
  { simplify_eq. split_and!; done. }
  case_bool_decide as Hempty; last first.
  { injection Hrun as <-. split_and!; try done.
    intros style' _ Hstyle' Hne. destruct Hempty. congruence. }
  apply bind_Ret in Hrun as (css & Hcss & Hrun). simpl in Hrun.
  simplify_eq.
  assert (element < length s) by (by eapply tag_valid).
  split_and!.
  - intros n. unfold setAttribute. split; [by apply tag_alter|].
    apply kids_alter. by right.
  - intros n name [Hn|Hname].
    + unfold setAttribute, getAttribute, store in *.
      by rewrite list_lookup_alter_ne.
    + unfold setAttribute. apply getAttribute_alter. intros nd. simpl.
      apply get_set_ne. congruence.
  - intros style' _ [= <-] _. exists css. split; [done|].
    by apply getAttribute_setAttribute.
  - intros [?|[?|[= ->]]]; done.
Qed.
End InlineStyle.

(** X18, witness: the style of a [div] that refers to an image of the
    archive [Ex.media_png]. *)
Lemma updateInlineStyle_effect_witness :
  ∃ css,
    replaceReferences (H := Sample.runtime) 20 Ex.media_png (Some Ex.base)
      (str "background: url(http://e.com/a.png)")
    = Ret css
    ∧ getAttribute
        (setAttribute (d_store Ex5.page_dom) 4 (str "style")
           (str "background: url('data:image/png;base64,QUJD')"))
        4 (str "style")
      = Some css.
Proof.
  apply (proj1 (proj2 (proj2
           (updateInlineStyle_effect (H := Sample.runtime) 20
              (d_store Ex5.page_dom) 4 Ex.media_png (Some Ex.base)
              (setAttribute (d_store Ex5.page_dom) 4 (str "style")
                 (str "background: url('data:image/png;base64,QUJD')"))
              ltac:(vm_compute; reflexivity)))));
    vm_compute; (reflexivity || discriminate).
Defined.

Section Iframes.
Context `{Runtime} `{DOMProvider}.
Implicit Types (s : store) (n c p : nat) (name : jsstring).

(** X19: what the callback of [convert] does to an [iframe] under
    [convertIframes]: when its [src] is not empty and names, behind
    [cid:], a frame of type [text/html], the frame is converted as the
    index of an archive with the same frames, in whose [media] it
    stands under its identifier, and the [src] becomes a data URI with
    the encoded HTML of that document. *)
Theorem visit_iframe fuel recur frames media index
    p c s h sr s' h' sr' src frame :
  tag s c = Some (str "IFRAME") →
  getAttribute s c (str "src") = Some src → src ≠ [] →
  get frames
    (str "<" ++ default (str "undefined") (split (str "cid:") src !! 1)
     ++ str ">") = Some frame →
  type frame = str "text/html" →
  visit fuel recur true frames media index p c s h sr = Ret (s', h', sr') →
  ∃ iframe html,
    recur (Some frames)
      (Some (assign media
               (str "<"
                ++ default (str "undefined") (split (str "cid:") src !! 1)
                ++ str ">") frame))
      (Some (str "<"
             ++ default (str "undefined") (split (str "cid:") src !! 1)
             ++ str ">"))
    = Ret iframe
    ∧ encodeURIComponent (outerHTML iframe) = Some html
    ∧ getAttribute s' c (str "src")
      = Some (str "data:text/html;charset=utf-8," ++ html).
Proof.
  intros Htag Hsrc Hne Hframe Htype Hrun. unfold visit in Hrun.
  assert (is_element s c = true) as Hel.
  { apply bool_decide_eq_true_2. by rewrite Htag. }
  rewrite Hel in Hrun. cbv beta iota zeta in Hrun.
  apply bind_Ret in Hrun as (s1 & Hs1 & Hrun).
  apply visit_prelude in Hs1 as (Hc & Hg & _ & _); [|by rewrite Htag].
  apply bind_Ret in Hrun as (s2 & Hs2 & Hrun). simpl in Hrun.
  symmetry in Hrun. simplify_eq.
  rewrite (g_tag _ _ _ Hg), Htag in Hs2 by done.
  rewrite bool_decide_eq_false_2 in Hs2 by (by vm_compute).
  rewrite bool_decide_eq_false_2 in Hs2 by (by vm_compute).
  rewrite bool_decide_eq_false_2 in Hs2 by (by vm_compute).
  rewrite bool_decide_eq_false_2 in Hs2 by (by vm_compute).
  rewrite bool_decide_eq_true_2 in Hs2 by done.
  rewrite Hsrc in Hs2. rewrite bool_decide_eq_true_2 in Hs2 by done.
  cbn [andb] in Hs2. rewrite (proj2 (read_Own _ _ _) Hframe) in Hs2.
  rewrite bool_decide_eq_true_2 in Hs2 by done.
  apply bind_Ret in Hs2 as (iframe & Hiframe & Hs2).
  apply bind_Ret in Hs2 as (html & Hhtml%lift_Ret & Hs2).
  simpl in Hs2. injection Hs2 as <-.
  exists iframe, html. split_and!; [done..|].
  apply getAttribute_setAttribute.
  pose proof (g_length _ _ _ Hg). lia.
Qed.
End Iframes.

(** X19, witness: the [iframe] of [Ex9.outer]. *)
Lemma visit_iframe_witness :
  ∃ iframe html,
    convert_object (H := Sample.runtime) (H0 := Ex8.provider) 50 true
      (Some [(str "<f1>", Ex9.frame)])
      (Some (assign []
               (str "<"
                ++ default (str "undefined")
                     (split (str "cid:") (str "cid:f1") !! 1)
                ++ str ">") Ex9.frame))
      (Some (str "<"
             ++ default (str "undefined")
                  (split (str "cid:") (str "cid:f1") !! 1)
             ++ str ">"))
    = Ret iframe
    ∧ encodeURIComponent (Runtime := Sample.runtime)
        (outerHTML (DOMProvider := Ex8.provider) iframe) = Some html
    ∧ getAttribute Ex9.framed 1 (str "src")
      = Some (str "data:text/html;charset=utf-8," ++ html).
Proof.
  apply (visit_iframe (H := Sample.runtime) (H0 := Ex8.provider) 50
           (convert_object (H := Sample.runtime) (H0 := Ex8.provider) 50 true)
           [(str "<f1>", Ex9.frame)] [] Ex.base 0 1 Ex9.outer None None
           Ex9.framed None (Some (str "cid:f1")) (str "cid:f1") Ex9.frame);
    vm_compute; (reflexivity || discriminate).
Defined.


(* ================================================================== *)
(** ** More on [splitHeaders] *)
(* ================================================================== *)

Section Headers.
Context `{Runtime}.
Implicit Types (name value line : jsstring).

End Headers.

